(** * Ollama-File-Assistant: sandboxed file operations and tool dispatch

    A shallow embedding of [src/filesystem_server.py] (the class
    [MCPFilesystemServer]) and of the tool-call half of
    [src/desktop_agent.py] (the class [DesktopAgent]).

    Conventions of the embedding.
    - A Python [str] is the list of its code points ([list N]); [len] is
      [length].  Bytes are numbers below 256.
    - The file system is a finite map from absolute, resolved paths (lists
      of components below [/]) to nodes.  A node is a regular file, a
      directory, or a socket, which stands for the special files: the
      entries for which both [is_file()] and [is_dir()] answer [False].
      Every name has a node of its own: there is no symbolic link and no
      second name for a file (a hard link) in these file systems, and
      permission failures are left out.  The module [Links] has the
      operations of the delete-all macro over a file system with
      symbolic links, and agrees with the operations here where there is
      none.  The platform is POSIX, the library that of CPython 3.11.
    - A path string goes through the encoding of the operating system
      interface before any call: for a string with a NUL or with a
      surrogate that does not encode, [resolve()] raises [ValueError]
      or its subclass [UnicodeEncodeError], as [os.lstat] does.
    - [async def] bodies run to completion without interleaving; a method
      is a function from the file system to a result and a file system.
      The state survives an exception: a mutation made before a [raise]
      stays.
    - What depends on the interpreter's Unicode tables or on the process
      environment is a field of the class [Env]. *)

From Stdlib Require Import ZArith NArith Lia Bool.
From Stdlib Require Import Ascii String DecimalString.
From stdpp Require Import gmap list.

Abbreviation str := (list N).
Abbreviation path := (list (list N)).

(** ** Strings *)

Module Str.

(** A string literal of the source whose characters are all ASCII. *)
Definition lit (s : string) : str :=
  map N_of_ascii (list_ascii_of_string s).

Definition eqb (a b : str) : bool := bool_decide (a = b).

(** [s.startswith(pre)] *)
Fixpoint starts_with (s pre : str) : bool :=
  match pre, s with
  | [], _ => true
  | p :: pre', c :: s' => N.eqb c p && starts_with s' pre'
  | _ :: _, [] => false
  end.

(** [sub in s] *)
Fixpoint contains (s sub : str) : bool :=
  starts_with s sub ||
  match s with
  | [] => false
  | _ :: s' => contains s' sub
  end.

(** [s.endswith(suf)] *)
Definition ends_with (s suf : str) : bool :=
  starts_with (rev s) (rev suf).

(** [str.isspace] on one character, which is also the class [\s] of [re]
    for a [str] pattern. *)
Definition isspace (c : N) : bool :=
  ((9 <=? c) && (c <=? 13) || (28 <=? c) && (c <=? 32) ||
   (c =? 133) || (c =? 160) || (c =? 5760) ||
   (8192 <=? c) && (c <=? 8202) || (c =? 8232) || (c =? 8233) ||
   (c =? 8239) || (c =? 8287) || (c =? 12288))%N.

Fixpoint lstrip (s : str) : str :=
  match s with
  | c :: s' => if isspace c then lstrip s' else s
  | [] => []
  end.

Definition rstrip (s : str) : str := rev (lstrip (rev s)).

(** [s.strip()] *)
Definition strip (s : str) : str := rstrip (lstrip s).

(** [s.split(sep)] for a one-character separator. *)
Fixpoint split (sep : N) (s : str) : list str :=
  match s with
  | [] => [[]]
  | c :: s' =>
      if N.eqb c sep then [] :: split sep s'
      else match split sep s' with
           | w :: ws => (c :: w) :: ws
           | [] => [[c]]
           end
  end.

(** [sep.join(l)] *)
Fixpoint join (sep : str) (l : list str) : str :=
  match l with
  | [] => []
  | [w] => w
  | w :: l' => w ++ sep ++ join sep l'
  end.

(** [str(n)] for a non-negative integer. *)
Definition of_nat (n : nat) : str :=
  lit (NilEmpty.string_of_uint (Nat.to_uint n)).

Definition of_N (n : N) : str := of_nat (N.to_nat n).

End Str.

Abbreviation lit := Str.lit.

(** ** The interpreter and process environment *)

(** Metadata of a node as [stat] reports it.  The time stamps are kept
    as the stored numbers; nothing is computed from them. *)
Record meta := Meta {
  st_mode : N;
  st_mtime : Z;
  st_ctime : Z;
  dir_size : N      (* st_size of a directory; a file's is its length *)
}.

Class Env := {
  (** [str.lower] *)
  py_lower : str -> str;
  (** [str.isalnum] on one character; with [_] it makes the class [\w] *)
  py_isalnum : N -> bool;
  (** [repr] of a string, as it appears in the text of an [OSError] *)
  py_repr : str -> str;
  (** [os.getcwd()], resolved *)
  os_getcwd : path;
  (** the metadata given to a file, a directory that is created or
      rewritten *)
  new_file_meta : meta;
  new_dir_meta : meta
}.

(** ** UTF-8, the encoding of [write_text] and [read_text] *)

Module Utf8.

Definition is_surrogate (c : N) : bool := ((55296 <=? c) && (c <=? 57343))%N.

(** A code point that the strict encoder accepts. *)
Definition encodable (c : N) : bool := ((c <? 1114112) && negb (is_surrogate c))%N.

Definition encode_char (c : N) : list N :=
  (if c <? 128 then [c]
   else if c <? 2048 then [192 + c / 64; 128 + c mod 64]
   else if c <? 65536 then [224 + c / 4096; 128 + (c / 64) mod 64; 128 + c mod 64]
   else [240 + c / 262144; 128 + (c / 4096) mod 64; 128 + (c / 64) mod 64;
         128 + c mod 64])%N.

(** [s.encode('utf-8')]; [None] stands for [UnicodeEncodeError]. *)
Fixpoint encode (s : str) : option (list N) :=
  match s with
  | [] => Some []
  | c :: s' =>
      if encodable c then
        match encode s' with
        | Some bs => Some (encode_char c ++ bs)
        | None => None
        end
      else None
  end.

(** The length of the run of surrogates at the head of [s]. *)
Fixpoint surrogate_run (s : str) : nat :=
  match s with
  | c :: s' => if is_surrogate c then S (surrogate_run s') else 0
  | [] => 0
  end.

Definition cont (b : N) : bool := ((128 <=? b) && (b <=? 191))%N.

(** One step of the strict decoder: the code point at the head of [bs] and
    the bytes after it. *)
Definition decode_char (bs : list N) : option (N * list N) :=
  match bs with
  | [] => None
  | b0 :: r0 =>
      (if b0 <? 128 then Some (b0, r0)
       else if (194 <=? b0) && (b0 <=? 223) then
         match r0 with
         | b1 :: r1 =>
             if cont b1 then Some ((b0 - 192) * 64 + (b1 - 128), r1) else None
         | _ => None
         end
       else if (224 <=? b0) && (b0 <=? 239) then
         match r0 with
         | b1 :: b2 :: r2 =>
             if cont b1 && cont b2
                && negb ((b0 =? 224) && (b1 <? 160))
                && negb ((b0 =? 237) && (160 <=? b1))
             then Some ((b0 - 224) * 4096 + (b1 - 128) * 64 + (b2 - 128), r2)
             else None
         | _ => None
         end
       else if (240 <=? b0) && (b0 <=? 244) then
         match r0 with
         | b1 :: b2 :: b3 :: r3 =>
             if cont b1 && cont b2 && cont b3
                && negb ((b0 =? 240) && (b1 <? 144))
                && negb ((b0 =? 244) && (144 <=? b1))
             then Some ((b0 - 240) * 262144 + (b1 - 128) * 4096
                        + (b2 - 128) * 64 + (b3 - 128), r3)
             else None
         | _ => None
         end
       else None)%N
  end.

(** [bs.decode('utf-8')]; [None] stands for [UnicodeDecodeError].  Every
    step consumes a byte, so the length of the input is fuel enough. *)
Fixpoint decode_fuel (fuel : nat) (bs : list N) : option str :=
  match bs with
  | [] => Some []
  | _ :: _ =>
      match fuel with
      | O => None
      | S fuel' =>
          match decode_char bs with
          | Some (c, rest) =>
              match decode_fuel fuel' rest with
              | Some s => Some (c :: s)
              | None => None
              end
          | None => None
          end
      end
  end.

Definition decode (bs : list N) : option str := decode_fuel (length bs) bs.

(** Reading in text mode with the default [newline=None]: [\r\n] and a
    lone [\r] come out as [\n]. *)
Fixpoint universal_newlines (s : str) : str :=
  match s with
  | [] => []
  | 13%N :: ((10%N :: s'') as s') => 10%N :: universal_newlines s''
  | 13%N :: s' => 10%N :: universal_newlines s'
  | c :: s' => c :: universal_newlines s'
  end.

End Utf8.

(** ** Exceptions and their text *)

Inductive exn :=
| PermissionError (msg : str)
| ValueError (msg : str)
| TypeError (msg : str)
| KeyError (key : str)
| AttributeError (msg : str)
| OSError (errno : N) (strerror : str) (filename : str)
| ShutilError (msg : str)
| UnicodeEncodeError (start stop : nat) (c : N)
| UnicodeDecodeError.

Definition hex_digit (d : N) : N := (if d <? 10 then 48 + d else 87 + d)%N.

Definition hex4 (c : N) : str :=
  [hex_digit (c / 4096 mod 16); hex_digit (c / 256 mod 16);
   hex_digit (c / 16 mod 16); hex_digit (c mod 16)]%N.

(** [str(e)] *)
Definition exn_str `{Env} (e : exn) : str :=
  match e with
  | PermissionError msg | ValueError msg | TypeError msg | AttributeError msg
  | ShutilError msg => msg
  | KeyError key => py_repr key
  | OSError errno strerror filename =>
      lit "[Errno " ++ Str.of_N errno ++ lit "] " ++ strerror ++ lit ": "
      ++ py_repr filename
  | UnicodeEncodeError start stop c =>
      lit "'utf-8' codec can't encode " ++
      (if decide (stop = S start)
       then lit "character '\u" ++ hex4 c ++ lit "' in position " ++ Str.of_nat start
       else lit "characters in position " ++ Str.of_nat start ++ lit "-"
            ++ Str.of_nat (Nat.pred stop))
      ++ lit ": surrogates not allowed"
  | UnicodeDecodeError => lit "'utf-8' codec can't decode bytes"
  end.

(** ** Paths *)

Module PathLib.

Definition slash : N := 47.
Definition curdir : str := lit ".".
Definition pardir : str := lit "..".

(** [os.path.isabs] *)
Definition os_path_isabs (s : str) : bool :=
  match s with
  | c :: _ => N.eqb c slash
  | [] => false
  end.

(** A pure path: whether it is anchored at [/], and its components.
    Parsing a string drops empty and [.] components and keeps [..]. *)
Record PurePath := { is_abs : bool; parts : path }.

Definition parse_parts (s : str) : path :=
  filter (fun c => c <> [] /\ c <> curdir) (Str.split slash s).

Definition Path (s : str) : PurePath :=
  {| is_abs := os_path_isabs s; parts := parse_parts s |}.

(** A resolved absolute path, as a pure path. *)
Definition of_abs (p : path) : PurePath := {| is_abs := true; parts := p |}.

(** [a / s] *)
Definition joinpath (a : PurePath) (s : str) : PurePath :=
  if os_path_isabs s then Path s
  else {| is_abs := is_abs a; parts := parts a ++ parse_parts s |}.

(** [str(p)] for a resolved absolute path. *)
Definition path_str (p : path) : str :=
  match p with
  | [] => [slash]
  | _ => concat (map (fun c => slash :: c) p)
  end.

(** [..] pops a component (and stays at [/]); any other component is
    pushed, whether or not it exists. *)
Definition resolve_step (acc : path) (c : str) : path :=
  if decide (c = pardir) then removelast acc else acc ++ [c].

Definition resolve_from (base : path) (cs : path) : path :=
  fold_left resolve_step cs base.

(** What the interface of the operating system does with a path string
    before any call is made: the string is encoded for the file system,
    in UTF-8 with [surrogateescape], and the bytes must not hold a NUL.
    A surrogate encodes only if it stands for an escaped byte. *)
Definition escaped_byte (c : N) : bool := ((56448 <=? c) && (c <=? 56575))%N.

Definition fs_encodable (c : N) : bool :=
  ((c <? 1114112) && (negb (Utf8.is_surrogate c) || escaped_byte c))%N.

(** The first character that does not encode, and the end of the run of
    surrogates it stands in. *)
Fixpoint fs_bad_run (s : str) (i : nat) : option (nat * nat * N) :=
  match s with
  | [] => None
  | c :: s' =>
      if fs_encodable c then fs_bad_run s' (S i)
      else Some (i, i + Utf8.surrogate_run s, c)
  end.

(** What [os.lstat(s)] raises before it looks at the file system. *)
Definition os_refuses (s : str) : option exn :=
  match fs_bad_run s 0 with
  | Some (start, stop, c) => Some (UnicodeEncodeError start stop c)
  | None =>
      if existsb (N.eqb 0) s then Some (ValueError (lit "embedded null byte"))
      else None
  end.

(** The path that [posixpath._joinrealpath] has walked so far, as the
    text it is kept in: below [/] for an absolute path; for a relative
    one the components, which may begin with [..]. *)
Definition walked_text (abs : bool) (acc : path) : str :=
  if abs then path_str acc else Str.join [slash] acc.

(** The step of the walk for [..]: the last component goes; at [/] it
    has no effect, and a relative path that is empty or ends in [..]
    gets one more [..]. *)
Definition walk_up (abs : bool) (acc : path) : path :=
  if abs then removelast acc
  else match acc with
       | [] => [pardir]
       | _ :: _ =>
           if decide (List.last acc [] = pardir) then acc ++ [pardir]
           else removelast acc
       end.

(** [posixpath._joinrealpath] where no component is a symbolic link:
    every component but [..] is joined to the path so far and the result
    is passed to [os.lstat], whose [OSError]s are ignored. *)
Fixpoint joinrealpath (abs : bool) (acc : path) (cs : path) : exn + path :=
  match cs with
  | [] => inr acc
  | c :: cs' =>
      if decide (c = pardir) then joinrealpath abs (walk_up abs acc) cs'
      else match os_refuses (walked_text abs (acc ++ [c])) with
           | Some e => inl e
           | None => joinrealpath abs (acc ++ [c]) cs'
           end
  end.

(** [p.resolve()]: [os.path.realpath], which walks the components and
    then makes the result absolute from the working directory. *)
Definition resolve `{Env} (p : PurePath) : exn + path :=
  match joinrealpath (is_abs p) [] (parts p) with
  | inl e => inl e
  | inr q => inr (if is_abs p then q else resolve_from os_getcwd q)
  end.

(** [p.is_relative_to(root)] *)
Fixpoint is_relative_to (p root : path) : bool :=
  match root, p with
  | [] , _ => true
  | r :: root', c :: p' => Str.eqb c r && is_relative_to p' root'
  | _ :: _, [] => false
  end.

(** [p.parent] and [p.name] *)
Definition parent (p : path) : path := removelast p.
Definition name (p : path) : str := List.last p [].

End PathLib.
Import PathLib.

(** ** Result payloads *)

(** A [dict] with string keys, in insertion order. *)
Module Dict.

Definition t (V : Type) : Type := list (str * V).

(** [key in d] *)
Definition mem {V} (key : str) (d : t V) : bool :=
  existsb (fun kv => Str.eqb (fst kv) key) d.

(** [d.get(key)] *)
Fixpoint get {V} (key : str) (d : t V) : option V :=
  match d with
  | [] => None
  | (k, v) :: d' => if Str.eqb k key then Some v else get key d'
  end.

End Dict.

Inductive scalar :=
| SNone
| SInt (n : Z)
| SFloat (t : Z)
| SStr (s : str).

Inductive value :=
| VScalar (x : scalar)
| VItems (items : list (Dict.t scalar)).

Coercion VScalar : scalar >-> value.

Abbreviation payload := (Dict.t value).

(** ** The file system *)

Inductive node :=
| NFile (data : list N) (m : meta)
| NDir (m : meta)
| NSock (m : meta).

Abbreviation fsys := (gmap path node).

(** A method body: it reads and writes the file system and may raise. *)
Definition M (A : Type) : Type := fsys -> (exn + A) * fsys.

#[export] Instance M_ret : MRet M := fun A a fs => (inr a, fs).
#[export] Instance M_bind : MBind M := fun A B k m fs =>
  match m fs with
  | (inr a, fs') => k a fs'
  | (inl e, fs') => (inl e, fs')
  end.

Definition raise {A} (e : exn) : M A := fun fs => (inl e, fs).
Definition get_fs : M fsys := fun fs => (inr fs, fs).
Definition modify (f : fsys -> fsys) : M unit := fun fs => (inr tt, f fs).
Definition lift {A} (r : exn + A) : M A := fun fs => (r, fs).

(** A call of a method that catches its own exceptions. *)
Definition call {A} (f : fsys -> A * fsys) : M A := fun fs =>
  let (a, fs') := f fs in (inr a, fs').

(** [try: body except Exception as e: handler(e)], for a body that ends in
    [return]. *)
Definition try_except {A} (body : M A) (handler : exn -> A) (fs : fsys) : A * fsys :=
  match body fs with
  | (inr a, fs') => (a, fs')
  | (inl e, fs') => (handler e, fs')
  end.

Module OS.

Definition node_meta (n : node) : meta :=
  match n with NFile _ m | NDir m | NSock m => m end.

Definition exists_ (fs : fsys) (p : path) : bool :=
  match fs !! p with Some _ => true | None => false end.

Definition is_dir (fs : fsys) (p : path) : bool :=
  match fs !! p with Some (NDir _) => true | _ => false end.

Definition is_file (fs : fsys) (p : path) : bool :=
  match fs !! p with Some (NFile _ _) => true | _ => false end.

Record stat_result := { r_size : N; r_mode : N; r_mtime : Z; r_ctime : Z }.

Definition stat_node (n : node) : stat_result :=
  let m := node_meta n in
  {| r_size := match n with
               | NFile data _ => N.of_nat (length data)
               | NDir _ => dir_size m
               | NSock _ => 0%N
               end;
     r_mode := st_mode m; r_mtime := st_mtime m; r_ctime := st_ctime m |}.

Definition ENOENT (p : path) : exn :=
  OSError 2 (lit "No such file or directory") (path_str p).
Definition ENXIO (p : path) : exn :=
  OSError 6 (lit "No such device or address") (path_str p).
Definition EEXIST (p : path) : exn :=
  OSError 17 (lit "File exists") (path_str p).
Definition ENOTDIR (p : path) : exn :=
  OSError 20 (lit "Not a directory") (path_str p).
Definition EISDIR (p : path) : exn :=
  OSError 21 (lit "Is a directory") (path_str p).

(** [p.stat()] *)
Definition stat (p : path) : M stat_result := fun fs =>
  match fs !! p with
  | Some n => (inr (stat_node n), fs)
  | None => (inl (ENOENT p), fs)
  end.

(** The proper ancestors of [p], from [/] down. *)
Definition ancestors (p : path) : list path :=
  map (fun i => take i p) (seq 0 (length p)).

(** Some ancestor of [p] is an entry that is not a directory. *)
Definition blocked (fs : fsys) (p : path) : bool :=
  existsb (fun q => exists_ fs q && negb (is_dir fs q)) (ancestors p).

(** [p.iterdir()]: the entries directly below [p], in the order the
    system lists them. *)
Definition iterdir (fs : fsys) (p : path) : list path :=
  filter (fun q => q <> [] /\ parent q = p) (map fst (map_to_list fs)).

Definition make_dir `{Env} (fs : fsys) (q : path) : fsys :=
  match fs !! q with
  | None => <[q := NDir new_dir_meta]> fs
  | Some _ => fs
  end.

(** [p.mkdir(parents=True, exist_ok=True)] *)
Definition mkdir_parents `{Env} (p : path) : M unit := fun fs =>
  if blocked fs p then (inl (ENOTDIR p), fs)
  else match fs !! p with
       | Some (NDir _) => (inr tt, fs)
       | Some _ => (inl (EEXIST p), fs)
       | None => (inr tt, foldl make_dir fs (ancestors p ++ [p]))
       end.

(** [open(p, 'w')]: the file is created, or emptied if it exists. *)
Definition open_w `{Env} (p : path) : M unit := fun fs =>
  if blocked fs p then (inl (ENOTDIR p), fs)
  else if negb (is_dir fs (parent p)) then (inl (ENOENT p), fs)
  else match fs !! p with
       | Some (NDir _) => (inl (EISDIR p), fs)
       | Some (NSock _) => (inl (ENXIO p), fs)
       | Some (NFile _ m) =>
           (inr tt, <[p := NFile [] (Meta (st_mode m) (st_mtime new_file_meta)
                                        (st_ctime new_file_meta) (dir_size m))]> fs)
       | None => (inr tt, <[p := NFile [] new_file_meta]> fs)
       end.

(** The surrogates that stop the encoder: the position of the first one
    and the end of its run. *)
Fixpoint bad_run (s : str) (i : nat) : option (nat * nat * N) :=
  match s with
  | [] => None
  | c :: s' =>
      if Utf8.encodable c then bad_run s' (S i)
      else Some (i, i + Utf8.surrogate_run s, c)
  end.

Definition encode_error (s : str) : exn :=
  match bad_run s 0 with
  | Some (start, stop, c) => UnicodeEncodeError start stop c
  | None => UnicodeEncodeError 0 0 0
  end.

Definition set_data (p : path) (bs : list N) (fs : fsys) : fsys :=
  match fs !! p with
  | Some (NFile _ m) => <[p := NFile bs m]> fs
  | _ => fs
  end.

(** [p.write_text(content, encoding='utf-8')]: open for writing, then
    encode, then write. *)
Definition write_text `{Env} (p : path) (content : str) : M nat :=
  _ ← open_w p;
  match Utf8.encode content with
  | Some bs => _ ← modify (set_data p bs); mret (length content)
  | None => raise (encode_error content)
  end.

(** [p.read_bytes()] *)
Definition read_bytes (p : path) : M (list N) := fun fs =>
  if blocked fs p then (inl (ENOTDIR p), fs)
  else match fs !! p with
       | None => (inl (ENOENT p), fs)
       | Some (NDir _) => (inl (EISDIR p), fs)
       | Some (NSock _) => (inl (ENXIO p), fs)
       | Some (NFile data _) => (inr data, fs)
       end.

(** [p.read_text(encoding='utf-8')] *)
Definition read_text (p : path) : M str :=
  data ← read_bytes p;
  match Utf8.decode data with
  | Some s => mret (Utf8.universal_newlines s)
  | None => raise UnicodeDecodeError
  end.

(** [p.unlink()] *)
Definition unlink (p : path) : M unit := fun fs =>
  match fs !! p with
  | None => (inl (ENOENT p), fs)
  | Some (NDir _) => (inl (EISDIR p), fs)
  | Some _ => (inr tt, delete p fs)
  end.

(** [q] is [p] or lies below it. *)
Definition under (p q : path) : Prop := p `prefix_of` q.

(** [shutil.rmtree(p)]: [p] and everything below it go. *)
Definition rmtree (p : path) : M unit := fun fs =>
  match fs !! p with
  | None => (inl (ENOENT p), fs)
  | Some (NDir _) => (inr tt, filter (fun kv => ~ under p (fst kv)) fs)
  | Some _ => (inl (ENOTDIR p), fs)
  end.

End OS.

(** ** [shutil.move] *)

Module Shutil.
Import OS.

(** The entries at and below [src] are re-rooted at [dst]; whatever was at
    or below [dst] is replaced. *)
Definition move_tree (src dst : path) (fs : fsys) : fsys :=
  let moved := filter (fun kv => under src (fst kv)) fs in
  let rest := filter (fun kv => ~ under src (fst kv) /\ ~ under dst (fst kv)) fs in
  list_to_map (map (fun kv => (dst ++ drop (length src) (fst kv), snd kv))
                   (map_to_list moved)) ∪ rest.

(** [os.rename(src, dst)]; [None] stands for the [OSError] that
    [shutil.move] catches. *)
Definition os_rename (src dst : path) (fs : fsys) : option fsys :=
  match fs !! src with
  | None => None
  | Some n =>
      if decide (src = dst) then Some fs
      else if blocked fs dst || negb (is_dir fs (parent dst)) then None
      else match n with
           | NDir _ =>
               if bool_decide (under src dst) then None
               else match fs !! dst with
                    | None => Some (move_tree src dst fs)
                    | Some (NDir _) =>
                        match iterdir fs dst with
                        | [] => Some (move_tree src dst fs)
                        | _ :: _ => None
                        end
                    | Some _ => None
                    end
           | _ =>
               match fs !! dst with
               | Some (NDir _) => None
               | _ => Some (<[dst := n]> (delete src fs))
               end
           end
  end.

(** [shutil.copytree(src, dst)] followed by [shutil.rmtree(src)], the way
    a directory is moved when [os.rename] has failed. *)
Definition copytree_rmtree `{Env} (src dst : path) : M unit := fun fs =>
  if exists_ fs dst then (inl (EEXIST dst), fs)
  else match mkdir_parents dst fs with
       | (inl e, fs') => (inl e, fs')
       | (inr _, fs') => (inr tt, move_tree src dst fs')
       end.

(** [shutil.copy2(src, dst)] when [os.rename] of a file has failed: in
    this model the copy fails for the reason the rename did. *)
Definition copy2_failure (src dst : path) (fs : fsys) : exn :=
  match fs !! src with
  | None => ENOENT src
  | Some (NSock _) => ENXIO src
  | Some _ =>
      if blocked fs dst then ENOTDIR dst
      else if is_dir fs dst then EISDIR dst
      else ENOENT dst
  end.

Definition rename_or_copy `{Env} (src dst real_dst : path) : M unit := fun fs =>
  match os_rename src real_dst fs with
  | Some fs' => (inr tt, fs')
  | None =>
      if is_dir fs src then
        if bool_decide (under src dst) then
          (inl (ShutilError (lit "Cannot move a directory '" ++ path_str src
                             ++ lit "' into itself '" ++ path_str dst ++ lit "'.")), fs)
        else copytree_rmtree src real_dst fs
      else (inl (copy2_failure src real_dst fs), fs)
  end.

(** [shutil.move(src, dst)] *)
Definition move `{Env} (src dst : path) : M unit := fun fs =>
  if is_dir fs dst then
    if decide (src = dst) then (inr tt, fs)
    else
      let real_dst := dst ++ [name src] in
      if exists_ fs real_dst then
        (inl (ShutilError (lit "Destination path '" ++ path_str real_dst
                           ++ lit "' already exists")), fs)
      else rename_or_copy src dst real_dst fs
  else rename_or_copy src dst dst fs.

End Shutil.

(** ** [MCPFilesystemServer] *)

Record MCPFilesystemServer := { allowed_directory : path }.

Section Server.
Context `{Env}.
Variable self : MCPFilesystemServer.

(** [__init__] *)
Definition init (directory : str) : M MCPFilesystemServer :=
  root ← lift (resolve (Path directory));
  fs ← get_fs;
  if negb (OS.exists_ fs root) then
    raise (ValueError (lit "Directory does not exist: " ++ path_str root))
  else mret {| allowed_directory := root |}.

(** The [try] of the source turns whatever [resolve] raises into
    [False]. *)
Definition _is_path_allowed (path_ : str) : bool :=
  match resolve (Path path_) with
  | inr resolved_path => is_relative_to resolved_path (allowed_directory self)
  | inl _ => false
  end.

(** The two calls of [resolve] stand outside any [try]: what they raise
    leaves the function. *)
Definition _get_safe_path (path_ : str) : exn + path :=
  match (if os_path_isabs path_ then resolve (Path path_)
         else resolve (joinpath (of_abs (allowed_directory self)) path_)) with
  | inl e => inl e
  | inr safe_path =>
      if negb (_is_path_allowed (path_str safe_path)) then
        inl (PermissionError (lit "Access denied to path: " ++ path_))
      else inr safe_path
  end.

Definition error_payload (msg : str) : payload := [(lit "error", VScalar (SStr msg))].

(** [except Exception as e: return {"error": str(e)}] *)
Definition on_exception (e : exn) : payload := error_payload (exn_str e).

Fixpoint mapM {A B} (f : A -> M B) (l : list A) : M (list B) :=
  match l with
  | [] => mret []
  | a :: l' => b ← f a; bs ← mapM f l'; mret (b :: bs)
  end.

Definition item_info (item : path) : M (Dict.t scalar) :=
  fs ← get_fs;
  st ← OS.stat item;
  mret [(lit "name", SStr (name item));
        (lit "type", SStr (if OS.is_dir fs item then lit "directory" else lit "file"));
        (lit "size", if OS.is_file fs item then SInt (Z.of_N (OS.r_size st)) else SNone);
        (lit "modified", SFloat (OS.r_mtime st))].

Definition list_directory (path_ : str) : fsys -> payload * fsys :=
  try_except
    (safe_path ← lift (_get_safe_path path_);
     fs ← get_fs;
     if negb (OS.exists_ fs safe_path) then
       mret (error_payload (lit "Directory does not exist: " ++ path_))
     else if negb (OS.is_dir fs safe_path) then
       mret (error_payload (lit "Path is not a directory: " ++ path_))
     else
       items ← mapM item_info (OS.iterdir fs safe_path);
       mret [(lit "path", VScalar (SStr (path_str safe_path)));
             (lit "items", VItems items);
             (lit "count", VScalar (SInt (Z.of_nat (length items))))])
    on_exception.

(** [try: body except UnicodeDecodeError: handler] *)
Definition except_decode {A} (body handler : M A) : M A := fun fs =>
  match body fs with
  | (inl UnicodeDecodeError, fs') => handler fs'
  | r => r
  end.

Definition read_file (path_ : str) : fsys -> payload * fsys :=
  try_except
    (safe_path ← lift (_get_safe_path path_);
     fs ← get_fs;
     if negb (OS.exists_ fs safe_path) then
       mret (error_payload (lit "File does not exist: " ++ path_))
     else if negb (OS.is_file fs safe_path) then
       mret (error_payload (lit "Path is not a file: " ++ path_))
     else
       except_decode
         (content ← OS.read_text safe_path;
          mret [(lit "path", VScalar (SStr (path_str safe_path)));
                (lit "content", VScalar (SStr content));
                (lit "size", VScalar (SInt (Z.of_nat (length content))));
                (lit "type", VScalar (SStr (lit "text")))])
         (data ← OS.read_bytes safe_path;
          let content := take 1024 data in
          st ← OS.stat safe_path;
          mret [(lit "path", VScalar (SStr (path_str safe_path)));
                (lit "content",
                 VScalar (SStr (lit "<Binary file, first 1024 bytes: "
                                ++ Str.of_nat (length content) ++ lit " bytes>")));
                (lit "size", VScalar (SInt (Z.of_N (OS.r_size st))));
                (lit "type", VScalar (SStr (lit "binary")))]))
    on_exception.

Definition write_file (path_ content : str) : fsys -> payload * fsys :=
  try_except
    (safe_path ← lift (_get_safe_path path_);
     _ ← OS.mkdir_parents (parent safe_path);
     _ ← OS.write_text safe_path content;
     mret [(lit "path", VScalar (SStr (path_str safe_path)));
           (lit "size", VScalar (SInt (Z.of_nat (length content))));
           (lit "message", VScalar (SStr (lit "File written successfully")))])
    on_exception.

Definition create_directory (path_ : str) : fsys -> payload * fsys :=
  try_except
    (safe_path ← lift (_get_safe_path path_);
     _ ← OS.mkdir_parents safe_path;
     mret [(lit "path", VScalar (SStr (path_str safe_path)));
           (lit "message", VScalar (SStr (lit "Directory created successfully")))])
    on_exception.

Definition deleted (safe_path : path) (message : str) : payload :=
  [(lit "path", VScalar (SStr (path_str safe_path)));
   (lit "message", VScalar (SStr message))].

Definition delete_file (path_ : str) : fsys -> payload * fsys :=
  try_except
    (safe_path ← lift (_get_safe_path path_);
     fs ← get_fs;
     if negb (OS.exists_ fs safe_path) then
       mret (error_payload (lit "Path does not exist: " ++ path_))
     else if OS.is_file fs safe_path then
       _ ← OS.unlink safe_path;
       mret (deleted safe_path (lit "File deleted successfully"))
     else if OS.is_dir fs safe_path then
       _ ← OS.rmtree safe_path;
       mret (deleted safe_path (lit "Directory deleted successfully"))
     else mret (error_payload (lit "Unknown path type: " ++ path_)))
    on_exception.

Definition move_file (source destination : str) : fsys -> payload * fsys :=
  try_except
    (safe_source ← lift (_get_safe_path source);
     safe_dest ← lift (_get_safe_path destination);
     fs ← get_fs;
     if negb (OS.exists_ fs safe_source) then
       mret (error_payload (lit "Source does not exist: " ++ source))
     else
       _ ← OS.mkdir_parents (parent safe_dest);
       _ ← Shutil.move safe_source safe_dest;
       mret [(lit "source", VScalar (SStr (path_str safe_source)));
             (lit "destination", VScalar (SStr (path_str safe_dest)));
             (lit "message", VScalar (SStr (lit "File moved successfully")))])
    on_exception.

(** [oct(n)] *)
Fixpoint oct_digits (fuel : nat) (n : N) (acc : str) : str :=
  match fuel with
  | O => acc
  | S fuel' =>
      let acc' := (48 + n mod 8)%N :: acc in
      if (n <? 8)%N then acc' else oct_digits fuel' (n / 8)%N acc'
  end.

Definition oct (n : N) : str := lit "0o" ++ oct_digits (S (N.to_nat (N.log2 n))) n [].

(** [s[-3:]] *)
Definition last3 (s : str) : str := drop (length s - 3) s.

Definition get_file_info (path_ : str) : fsys -> payload * fsys :=
  try_except
    (safe_path ← lift (_get_safe_path path_);
     fs ← get_fs;
     if negb (OS.exists_ fs safe_path) then
       mret (error_payload (lit "Path does not exist: " ++ path_))
     else
       st ← OS.stat safe_path;
       mret [(lit "path", VScalar (SStr (path_str safe_path)));
             (lit "name", VScalar (SStr (name safe_path)));
             (lit "type", VScalar (SStr (if OS.is_dir fs safe_path
                                         then lit "directory" else lit "file")));
             (lit "size", VScalar (SInt (Z.of_N (OS.r_size st))));
             (lit "created", VScalar (SFloat (OS.r_ctime st)));
             (lit "modified", VScalar (SFloat (OS.r_mtime st)));
             (lit "permissions", VScalar (SStr (last3 (oct (OS.r_mode st)))))])
    on_exception.

End Server.

(** ** Regular expressions of [re], by backtracking *)

Declare Scope re_scope.
Delimit Scope re_scope with re.

Module Re.

Inductive regex :=
| Eps
| Chr (p : N -> bool)               (* one character of a class *)
| Seq (r1 r2 : regex)
| Opt (r : regex)                   (* [r?] *)
| Star (greedy : bool) (r : regex)  (* [r*] and [r*?] *)
| Group (n : nat) (r : regex)       (* the [n]-th parenthesis *)
| Backref (n : nat)                 (* [\n] *)
| Bol                               (* [^] *)
| Eol.                              (* [$] *)

Bind Scope re_scope with regex.
Infix ";;" := Seq (at level 100, right associativity) : re_scope.

(** The groups matched so far, the latest first. *)
Definition groups := list (nat * str).

Fixpoint group (n : nat) (g : groups) : option str :=
  match g with
  | [] => None
  | (m, w) :: g' => if Nat.eqb m n then Some w else group n g'
  end.

(** [run r k pos s g]: match [r] at offset [pos], where [s] is what is
    left of the subject, then go on with [k]; the alternatives are tried
    in the order of the [re] engine and the first success is returned.
    An iteration of a star has to consume a character. *)
Fixpoint run {R} (r : regex) (k : nat -> str -> groups -> option R)
    (pos : nat) (s : str) (g : groups) : option R :=
  match r with
  | Eps => k pos s g
  | Chr p =>
      match s with
      | c :: s' => if p c then k (S pos) s' g else None
      | [] => None
      end
  | Seq r1 r2 => run r1 (run r2 k) pos s g
  | Opt r1 =>
      match run r1 k pos s g with
      | Some x => Some x
      | None => k pos s g
      end
  | Star greedy r1 =>
      (fix loop (fuel : nat) (pos : nat) (s : str) (g : groups) : option R :=
         let more :=
           match fuel with
           | O => None
           | S fuel' =>
               run r1 (fun pos' s' g' =>
                         if length s' <? length s then loop fuel' pos' s' g'
                         else None) pos s g
           end in
         if greedy then
           match more with Some x => Some x | None => k pos s g end
         else
           match k pos s g with Some x => Some x | None => more end)
        (length s) pos s g
  | Group n r1 =>
      run r1 (fun pos' s' g' => k pos' s' ((n, take (pos' - pos) s) :: g')) pos s g
  | Backref n =>
      match group n g with
      | Some w =>
          if Str.starts_with s w then k (pos + length w) (drop (length w) s) g
          else None
      | None => None
      end
  | Bol => if Nat.eqb pos 0 then k pos s g else None
  | Eol =>
      match s with
      | [] => k pos s g
      | [c] => if N.eqb c 10 then k pos s g else None
      | _ => None
      end
  end.

Definition accept : nat -> str -> groups -> option groups :=
  fun _ _ g => Some g.

(** [re.match(r, s)] *)
Definition match_ (r : regex) (s : str) : option groups :=
  run r accept 0 s [].

(** [re.search(r, s)]: the leftmost start at which [r] matches. *)
Fixpoint search_from (r : regex) (pos : nat) (s : str) : option groups :=
  match run r accept pos s [] with
  | Some g => Some g
  | None =>
      match s with
      | [] => None
      | _ :: s' => search_from r (S pos) s'
      end
  end.

Definition search (r : regex) (s : str) : option groups := search_from r 0 s.

(** A run of literal characters. *)
Fixpoint lits (w : str) : regex :=
  match w with
  | [] => Eps
  | c :: w' => (Chr (N.eqb c) ;; lits w')%re
  end.

Definition plus (r : regex) : regex := (r ;; Star true r)%re.

Definition space : regex := Chr Str.isspace.                   (* [\s] *)
Definition spaces : regex := Star true space.                  (* [\s*] *)
Definition dot_all : regex := Chr (fun _ => true).             (* [.] with DOTALL *)
Definition dot : regex := Chr (fun c => negb (N.eqb c 10)).    (* [.] *)
Definition is_quote (c : N) : bool := N.eqb c 39 || N.eqb c 34.
Definition quote : regex := Chr is_quote.                      (* a quote, single or double *)
Definition is_word `{Env} (c : N) : bool := py_isalnum c || N.eqb c 95.
Definition word `{Env} : regex := Chr is_word.                 (* [\w] *)

End Re.

Infix ";;" := Re.Seq (at level 100, right associativity) : re_scope.

(** ** [DesktopAgent] *)

(** The two marks that open the agent's replies, as the source file has
    them. *)
Definition cross : str := [8218; 249; 229]%N.
Definition tick : str := [8218; 250; 214]%N.

Definition comma : N := 44.

(** The pattern of [execute_tool] for the arguments of [write_file],
    compiled with [re.DOTALL]:
    optional spaces, group 1 an optional quote, group 2 lazy, the quote of
    group 1 again, optional spaces, a comma, optional spaces, group 3 an
    optional quote, group 4 greedy, the quote of group 3 again, optional
    spaces, end. *)
Definition write_args_re : Re.regex :=
  (Re.Bol ;; Re.spaces ;; Re.Group 1 (Re.Opt Re.quote) ;;
   Re.Group 2 (Re.Star false Re.dot_all) ;; Re.Backref 1 ;; Re.spaces ;;
   Re.Chr (N.eqb comma) ;; Re.spaces ;; Re.Group 3 (Re.Opt Re.quote) ;;
   Re.Group 4 (Re.Star true Re.dot_all) ;; Re.Backref 3 ;; Re.spaces ;;
   Re.Eol)%re.

(** [m.group(n)] of a successful match. *)
Definition group_of (n : nat) (g : Re.groups) : M str :=
  match Re.group n g with
  | Some w => mret w
  | None => raise (AttributeError (lit "'NoneType' object has no attribute 'strip'"))
  end.

(** The path and the content that [execute_tool] takes from the raw
    arguments of [write_file]; [None] when the pattern does not match. *)
Definition write_file_args (tool_args : str) : option (str * str) :=
  match Re.match_ write_args_re tool_args with
  | Some g =>
      match Re.group 2 g, Re.group 4 g with
      | Some g2, Some g4 => Some (Str.strip g2, Str.strip g4)
      | _, _ => None
      end
  | None => None
  end.

(** [part[1:-1]] *)
Definition slice_1_m1 (part : str) : str := removelast (tail part).

Definition parse_tool_arguments (args_str : str) : list str :=
  match Str.strip args_str with
  | [] => [lit "."]
  | _ :: _ =>
      map (fun part =>
             let part := Str.strip part in
             if Str.starts_with part [34%N] && Str.ends_with part [34%N]
                || Str.starts_with part [39%N] && Str.ends_with part [39%N]
             then slice_1_m1 part else part)
          (Str.split comma args_str)
  end.

(** What [tool["function"]] accepts: a path, or two required strings.
    Calling the second kind with one argument raises [TypeError]. *)
Inductive tool_function :=
| Unary (f : str -> fsys -> payload * fsys)
| Binary (missing : str) (f : str -> str -> fsys -> payload * fsys).

Record tool := { tool_name : str; tool_fn : tool_function }.

Section Agent.
Context `{Env}.
Variable filesystem : MCPFilesystemServer.

Definition tools : list tool :=
  [ {| tool_name := lit "list_directory"; tool_fn := Unary (list_directory filesystem) |};
    {| tool_name := lit "read_file"; tool_fn := Unary (read_file filesystem) |};
    {| tool_name := lit "write_file";
       tool_fn := Binary (lit "MCPFilesystemServer.write_file() missing 1 required positional argument: 'content'")
                         (write_file filesystem) |};
    {| tool_name := lit "create_directory"; tool_fn := Unary (create_directory filesystem) |};
    {| tool_name := lit "delete_file"; tool_fn := Unary (delete_file filesystem) |};
    {| tool_name := lit "move_file";
       tool_fn := Binary (lit "MCPFilesystemServer.move_file() missing 1 required positional argument: 'destination'")
                         (move_file filesystem) |};
    {| tool_name := lit "get_file_info"; tool_fn := Unary (get_file_info filesystem) |} ].

Definition apply1 (t : tool) (a : str) : M payload :=
  match tool_fn t with
  | Unary f => call (f a)
  | Binary missing _ => raise (TypeError missing)
  end.

Definition apply2 (t : tool) (a b : str) : M payload :=
  match tool_fn t with
  | Binary _ f => call (f a b)
  | Unary _ =>
      raise (TypeError (lit "takes from 1 to 2 positional arguments but 3 were given"))
  end.

(** The chain of [if]s that calls the tool function. *)
Definition dispatch (name_ : str) (t : tool) (args : list str) : M payload :=
  if Str.eqb name_ (lit "write_file") && Nat.eqb (length args) 2 then
    apply2 t (nth 0 args []) (nth 1 args [])
  else if Str.eqb name_ (lit "move_file") && Nat.eqb (length args) 2 then
    apply2 t (nth 0 args []) (nth 1 args [])
  else if Nat.leb 1 (length args) then apply1 t (nth 0 args [])
  else apply1 t (lit ".").

Definition invalid_write_args (tool_args : str) : str :=
  lit "Invalid arguments for write_file: " ++ tool_args
  ++ lit ". Expected 'path', 'content'".

Definition execute_tool (name_ tool_args : str) : fsys -> payload * fsys :=
  try_except
    (match List.find (fun t => Str.eqb (tool_name t) name_) tools with
     | None => mret (error_payload (lit "Tool '" ++ name_ ++ lit "' not found"))
     | Some t =>
         if Str.eqb name_ (lit "write_file") then
           match Re.match_ write_args_re tool_args with
           | Some g =>
               g2 ← group_of 2 g;
               g4 ← group_of 4 g;
               dispatch name_ t [Str.strip g2; Str.strip g4]
           | None => mret (error_payload (invalid_write_args tool_args))
           end
         else dispatch name_ t (parse_tool_arguments tool_args)
     end)
    on_exception.

(** *** The bulk macros *)

Definition image_extensions : list str :=
  [lit ".jpg"; lit ".jpeg"; lit ".png"; lit ".gif"; lit ".bmp"; lit ".tiff"; lit ".webp"].

(** [d.get("items", [])], iterated *)
Definition items_of (d : payload) : M (list (Dict.t scalar)) :=
  match Dict.get (lit "items") d with
  | None => mret []
  | Some (VItems l) => mret l
  | Some (VScalar _) => raise (TypeError (lit "object is not iterable"))
  end.

(** [item[key]] *)
Definition field (key : str) (item : Dict.t scalar) : M scalar :=
  match Dict.get key item with
  | Some v => mret v
  | None => raise (KeyError key)
  end.

(** [item["name"]] where a string is needed; a listing has no other. *)
Definition name_of (item : Dict.t scalar) : M str :=
  v ← field (lit "name") item;
  match v with
  | SStr s => mret s
  | _ => raise (AttributeError (lit "object has no attribute 'lower'"))
  end.

Definition is_file_item (item : Dict.t scalar) : M bool :=
  v ← field (lit "type") item;
  mret (match v with SStr s => Str.eqb s (lit "file") | _ => false end).

Definition is_image_name (name_ : str) : bool :=
  let name_lower := py_lower name_ in
  existsb (fun ext => Str.ends_with name_lower ext) image_extensions.

(** The loop that collects [image_files]. *)
Fixpoint image_files_of (items : list (Dict.t scalar)) : M (list str) :=
  match items with
  | [] => mret []
  | item :: items' =>
      is_file ← is_file_item item;
      if (is_file : bool) then
        name_ ← name_of item;
        rest ← image_files_of items';
        mret (if is_image_name name_ then name_ :: rest else rest)
      else image_files_of items'
  end.

(** The field of a payload inside an f-string; the fields that the agent
    prints this way are strings. *)
Definition text_of (v : option value) : str :=
  match v with
  | Some (VScalar (SStr s)) => s
  | _ => []
  end.

Definition error_of (d : payload) : str := text_of (Dict.get (lit "error") d).

(** The loop of [move_images_to_folder]: it returns at the first error. *)
Fixpoint move_each (folder_name : str) (total : nat) (files : list str) : M str :=
  match files with
  | [] =>
      mret (tick ++ lit " Successfully moved " ++ Str.of_nat total
            ++ lit " image files to " ++ folder_name ++ lit ".")
  | image_file :: files' =>
      let source_path := lit "./" ++ image_file in
      let destination_path := lit "./" ++ folder_name ++ lit "/" ++ image_file in
      move_result ← call (move_file filesystem source_path destination_path);
      if Dict.mem (lit "error") move_result then
        mret (cross ++ lit " Error moving " ++ image_file ++ lit ": "
              ++ error_of move_result)
      else move_each folder_name total files'
  end.

Definition move_images_to_folder (folder_name : str) : fsys -> str * fsys :=
  try_except
    (list_result ← call (list_directory filesystem (lit "."));
     if Dict.mem (lit "error") list_result then
       mret (cross ++ lit " Error listing files: " ++ error_of list_result)
     else
       items ← items_of list_result;
       image_files ← image_files_of items;
       match image_files with
       | [] => mret (cross ++ lit " No image files found to move.")
       | _ :: _ => move_each folder_name (length image_files) image_files
       end)
    (fun e => cross ++ lit " An error occurred while moving images: " ++ exn_str e).

(** The loop of [delete_images]: it returns at the first error. *)
Fixpoint delete_each (total : nat) (files : list str) : M str :=
  match files with
  | [] =>
      mret (tick ++ lit " Successfully deleted " ++ Str.of_nat total
            ++ lit " image files.")
  | image_file :: files' =>
      delete_result ← call (delete_file filesystem image_file);
      if Dict.mem (lit "error") delete_result then
        mret (cross ++ lit " Error deleting " ++ image_file ++ lit ": "
              ++ error_of delete_result)
      else delete_each total files'
  end.

Definition delete_images : fsys -> str * fsys :=
  try_except
    (list_result ← call (list_directory filesystem (lit "."));
     if Dict.mem (lit "error") list_result then
       mret (cross ++ lit " Error listing files: " ++ error_of list_result)
     else
       items ← items_of list_result;
       image_files ← image_files_of items;
       match image_files with
       | [] => mret (cross ++ lit " No image files found to delete.")
       | _ :: _ => delete_each (length image_files) image_files
       end)
    (fun e => cross ++ lit " An error occurred while deleting images: " ++ exn_str e).

(** The comprehension that collects [files_to_delete]. *)
Fixpoint files_of (items : list (Dict.t scalar)) : M (list str) :=
  match items with
  | [] => mret []
  | item :: items' =>
      is_file ← is_file_item item;
      if (is_file : bool) then
        name_ ← name_of item;
        rest ← files_of items';
        mret (name_ :: rest)
      else files_of items'
  end.

(** The loop of [delete_all_files_in_current_folder]: every file is
    tried; [deleted_count] and [errors] are carried along. *)
Fixpoint delete_all_loop (files : list str) (deleted_count : nat) (errors : list str)
  : M (nat * list str) :=
  match files with
  | [] => mret (deleted_count, errors)
  | file_name :: files' =>
      delete_result ← call (delete_file filesystem file_name);
      if Dict.mem (lit "error") delete_result then
        delete_all_loop files' deleted_count
          (errors ++ [cross ++ lit " Error deleting " ++ file_name ++ lit ": "
                      ++ error_of delete_result])
      else delete_all_loop files' (S deleted_count) errors
  end.

Definition delete_all_report (deleted_count : nat) (errors : list str) : str :=
  match errors with
  | _ :: _ =>
      tick ++ lit " Deleted " ++ Str.of_nat deleted_count
      ++ lit " files. Some errors occurred: " ++ Str.join (lit "; ") errors
  | [] =>
      tick ++ lit " Successfully deleted " ++ Str.of_nat deleted_count
      ++ lit " files in the current folder."
  end.

Definition delete_all_files_in_current_folder : fsys -> str * fsys :=
  try_except
    (list_result ← call (list_directory filesystem (lit "."));
     if Dict.mem (lit "error") list_result then
       mret (cross ++ lit " Error listing files to delete: " ++ error_of list_result)
     else
       items ← items_of list_result;
       files_to_delete ← files_of items;
       match files_to_delete with
       | [] => mret (tick ++ lit " No files found in the current folder to delete.")
       | _ :: _ =>
           r ← delete_all_loop files_to_delete 0 [];
           mret (delete_all_report (fst r) (snd r))
       end)
    (fun e => cross ++ lit " An unexpected error occurred while deleting files: "
              ++ exn_str e).

End Agent.

(** *** [process_user_input] *)

(** What the agent calls and this development leaves open: the language
    model, and the two formatters whose text involves floating-point
    formatting. *)
Record External := {
  generate_response : list (str * str) -> str;
  generate_final_response : str -> payload -> str -> str;
  list_folder_contents : str -> fsys -> str * fsys
}.

Section Router.
Context `{Env}.
Variable ext : External.
Variable filesystem : MCPFilesystemServer.

(** [TOOL_CALL:\s*(\w+)\s*\((.*?)\)] and the same with [USE_TOOL:],
    searched with [re.DOTALL]. *)
Definition call_pattern (keyword : str) : Re.regex :=
  (Re.lits keyword ;; Re.spaces ;; Re.Group 1 (Re.plus Re.word) ;; Re.spaces ;;
   Re.Chr (N.eqb 40) ;; Re.Group 2 (Re.Star false Re.dot_all) ;; Re.Chr (N.eqb 41))%re.

Definition tool_call_patterns : list Re.regex :=
  [call_pattern (lit "TOOL_CALL:"); call_pattern (lit "USE_TOOL:")].

(** The loop over the patterns: the match of the first one that is found
    in [response]. *)
Fixpoint first_match (patterns : list Re.regex) (response : str) : option Re.groups :=
  match patterns with
  | [] => None
  | pattern :: patterns' =>
      match Re.search pattern response with
      | Some g => Some g
      | None => first_match patterns' response
      end
  end.

(** The tool name and the stripped arguments of the call found in
    [response], if there is one. *)
Definition tool_call_of (response : str) : option (str * str) :=
  match first_match tool_call_patterns response with
  | Some g =>
      match Re.group 1 g, Re.group 2 g with
      | Some name_, Some args => Some (name_, Str.strip args)
      | _, _ => None
      end
  | None => None
  end.

Definition valid_tools : list str := map tool_name (tools filesystem).

Definition unknown_tool (name_ : str) : str :=
  cross ++ lit " Unknown tool: " ++ name_ ++ lit ". Available tools: "
  ++ Str.join (lit ", ") valid_tools.

(** The validation of the tool name: the call to execute, or the reply
    that ends the request. *)
Definition validate (name_ tool_args : str) : str + (str * str) :=
  if negb (existsb (Str.eqb name_) valid_tools) then
    if Str.contains (py_lower name_) (lit "list") then
      inr (lit "list_directory", match tool_args with [] => lit "." | _ => tool_args end)
    else inl (unknown_tool name_)
  else inr (name_, tool_args).

(** [extract_folder_name] *)
Definition folder_patterns : list Re.regex :=
  [ (Re.lits (lit "list") ;; Re.Star false Re.dot ;; Re.lits (lit "in") ;;
     Re.plus Re.space ;; Re.Group 1 (Re.plus Re.word) ;; Re.plus Re.space ;;
     Re.lits (lit "folder"))%re;
    (Re.lits (lit "list") ;; Re.Star false Re.dot ;; Re.Group 1 (Re.plus Re.word) ;;
     Re.plus Re.space ;; Re.lits (lit "folder"))%re;
    (Re.lits (lit "in") ;; Re.plus Re.space ;; Re.Group 1 (Re.plus Re.word) ;;
     Re.plus Re.space ;; Re.lits (lit "folder"))%re;
    (Re.lits (lit "folder") ;; Re.plus Re.space ;; Re.Group 1 (Re.plus Re.word))%re;
    (Re.Group 1 (Re.plus Re.word) ;; Re.plus Re.space ;; Re.lits (lit "folder"))%re ].

Definition extract_folder_name (user_input : str) : option str :=
  match first_match folder_patterns (py_lower user_input) with
  | Some g => Re.group 1 g
  | None => None
  end.

(** [to\s+(\w+)] *)
Definition to_folder : Re.regex :=
  (Re.lits (lit "to") ;; Re.plus Re.space ;; Re.Group 1 (Re.plus Re.word))%re.

Definition history := list (str * str).

(** The part of [process_user_input] from the call of the model on. *)
Definition ask_model (user_input : str) (h : history) (fs : fsys)
  : str * history * fsys :=
  let h := h ++ [(lit "user", user_input)] in
  let response := generate_response ext h in
  match tool_call_of response with
  | Some (name_, tool_args) =>
      match validate name_ tool_args with
      | inl reply => (reply, h, fs)
      | inr (name_, tool_args) =>
          let (tool_result, fs') := execute_tool filesystem name_ tool_args fs in
          let final_response :=
            generate_final_response ext name_ tool_result user_input in
          (final_response, h ++ [(lit "assistant", final_response)], fs')
      end
  | None => (response, h ++ [(lit "assistant", response)], fs)
  end.

Definition with_history {A} (h : history) (r : A * fsys) : A * history * fsys :=
  (fst r, h, snd r).

(** The macros are tried first, in this order; none of the steps raises
    in this model, so the handler of the source stays unused. *)
Definition process_user_input (user_input : str) (h : history) (fs : fsys)
  : str * history * fsys :=
  let lower := py_lower user_input in
  let folder_match :=
    if Str.contains lower (lit "move") && Str.contains lower (lit "image")
    then match Re.search to_folder lower with
         | Some g => Re.group 1 g
         | None => None
         end
    else None in
  match folder_match with
  | Some folder_name => with_history h (move_images_to_folder filesystem folder_name fs)
  | None =>
      if Str.contains lower (lit "delete") && Str.contains lower (lit "image") then
        with_history h (delete_images filesystem fs)
      else if Str.contains lower (lit "delete all files")
              || Str.contains lower (lit "clear all files") then
        with_history h (delete_all_files_in_current_folder filesystem fs)
      else
        let folder_name :=
          if Str.contains lower (lit "list")
             && (Str.contains lower (lit "in") || Str.contains lower (lit "folder"))
          then extract_folder_name user_input
          else None in
        match folder_name with
        | Some (c :: w) => with_history h (list_folder_contents ext (c :: w) fs)
        | _ => ask_model user_input h fs
        end
  end.

End Router.

(** * Vocabulary of the properties *)

(** The model of [Env] used for the concrete runs below: ASCII case
    folding, ASCII alphanumerics, [repr] of a string without quotes or
    control characters. *)
Definition ascii_lower (c : N) : N :=
  (if (65 <=? c) && (c <=? 90) then c + 32 else c)%N.

Definition ascii_isalnum (c : N) : bool :=
  ((48 <=? c) && (c <=? 57) || (65 <=? c) && (c <=? 90) || (97 <=? c) && (c <=? 122))%N.

Definition posix_env : Env :=
  {| py_lower := map ascii_lower;
     py_isalnum := ascii_isalnum;
     py_repr := fun s => lit "'" ++ s ++ lit "'";
     os_getcwd := [lit "home"];
     new_file_meta := Meta 33188 0 0 0;
     new_dir_meta := Meta 16877 0 0 4096 |}.

(** A string that the interface of the operating system accepts: every
    character encodes for the file system and none is NUL. *)
Definition os_accepts (s : str) : bool :=
  forallb fs_encodable s && negb (existsb (N.eqb 0) s).

(** What [resolve] raises for a string that is not accepted: the
    [ValueError] for a NUL, or its subclass [UnicodeEncodeError]. *)
Definition refusal (e : exn) : Prop :=
  e = ValueError (lit "embedded null byte")
  ∨ ∃ start stop c, e = UnicodeEncodeError start stop c.

(** A component of a resolved path: a real name. *)
Definition plain (c : str) : Prop :=
  c ≠ [] ∧ c ≠ curdir ∧ c ≠ pardir ∧ (slash ∉ c) ∧ os_accepts c = true.

(** The components that [_get_safe_path] walks for [p]. *)
Definition guard_parts (root : path) (p : str) : path :=
  if os_path_isabs p then parse_parts p else root ++ parse_parts p.

(** The location that [_get_safe_path] checks. *)
Definition resolved_location (root : path) (p : str) : path :=
  if os_path_isabs p then resolve_from [] (parse_parts p)
  else resolve_from [] (root ++ parse_parts p).

(** The system accepts every name on the way of [p], so that [p]
    resolves. *)
Definition resolves (self : MCPFilesystemServer) (p : str) : bool :=
  forallb os_accepts (guard_parts (allowed_directory self) p).



(** The two shapes of a result: the error payload, which has the one key
    [error] with a string, and a success payload, which has the keys of
    its operation and no key [error]. *)
Definition is_error (r : payload) : Prop := ∃ msg, r = error_payload msg.

Definition is_success (keys : list string) (r : payload) : Prop :=
  map fst r = map lit keys ∧ Dict.mem (lit "error") r = false.

Definition one_shape (keys : list string) (r : payload) : Prop :=
  (is_error r ∧ ¬ is_success keys r) ∨ (is_success keys r ∧ ¬ is_error r).

(** Every normal return of a body satisfies [P]. *)
Definition returns {A} (P : A -> Prop) (m : M A) : Prop :=
  ∀ fs a fs', m fs = (inr a, fs') → P a.

(** [plain], as a test. *)
Definition is_plain (c : str) : bool :=
  negb (Str.eqb c []) && negb (Str.eqb c curdir) && negb (Str.eqb c pardir)
  && negb (existsb (N.eqb slash) c) && os_accepts c.

(** The file system is a tree: [/] is a directory, every other entry sits
    in a directory, and the components of its path are real names, which
    the system accepts. *)
Definition tree (fs : fsys) : bool :=
  OS.is_dir fs []
  && forallb (fun q => OS.is_dir fs (parent q) && forallb is_plain q)
             (map fst (map_to_list fs)).

(** A string that text mode gives back as it was written: it can be
    encoded, and it has no carriage return. *)
Definition plain_text (content : str) : bool :=
  forallb Utf8.encodable content && negb (existsb (N.eqb 13) content).

(** The node at [p] is absent or a regular file. *)
Definition writable (fs : fsys) (p : path) : bool :=
  match fs !! p with
  | None | Some (NFile _ _) => true
  | Some _ => false
  end.

(** What [read_file] returns for a text file. *)
Definition text_result (p : path) (content : str) : payload :=
  [(lit "path", VScalar (SStr (path_str p)));
   (lit "content", VScalar (SStr content));
   (lit "size", VScalar (SInt (Z.of_nat (length content))));
   (lit "type", VScalar (SStr (lit "text")))].

(** What [write_file] returns when it has written. *)
Definition written_result (p : path) (content : str) : payload :=
  [(lit "path", VScalar (SStr (path_str p)));
   (lit "size", VScalar (SInt (Z.of_nat (length content))));
   (lit "message", VScalar (SStr (lit "File written successfully")))].

(** The state after [mkdir(parents=True, exist_ok=True)] has succeeded. *)
Definition with_dirs `{Env} (fs : fsys) (l : list path) (q : path) : option node :=
  match fs !! q with
  | Some n => Some n
  | None => if decide (q ∈ l) then Some (NDir new_dir_meta) else None
  end.

(** The sandbox of the concrete runs: [/box], empty. *)
Definition box : MCPFilesystemServer := {| allowed_directory := [lit "box"] |}.

Definition dir_meta : meta := Meta 16877 0 0 4096.
Definition file_meta : meta := Meta 33188 0 0 0.

Definition empty_box : fsys :=
  {[ [] := NDir dir_meta; [lit "box"] := NDir dir_meta ]}.

(** *** The arguments of [write_file], without the pattern *)

(** After optional spaces, a comma: what follows the comma. *)
Fixpoint after_comma (s : str) : option str :=
  match s with
  | c :: s' =>
      if Str.isspace c then after_comma s'
      else if N.eqb comma c then Some s' else None
  | [] => None
  end.

(** The first place where [s] goes on with the quote [q], optional spaces
    and a comma: what is before the quote, and what is after the comma. *)
Fixpoint close_quote (q : N) (s : str) : option (str * str) :=
  match s with
  | [] => None
  | c :: s' =>
      match (if N.eqb c q then after_comma s' else None) with
      | Some rest => Some ([], rest)
      | None =>
          match close_quote q s' with
          | Some (w, rest) => Some (c :: w, rest)
          | None => None
          end
      end
  end.

(** The first place where [s] goes on with optional spaces and a comma. *)
Fixpoint cut_comma (s : str) : option (str * str) :=
  match after_comma s with
  | Some rest => Some ([], rest)
  | None =>
      match s with
      | [] => None
      | c :: s' =>
          match cut_comma s' with
          | Some (w, rest) => Some (c :: w, rest)
          | None => None
          end
      end
  end.

(** The last place where [s] goes on with the quote [q] and then only
    spaces to the end: what is before the quote. *)
Fixpoint close_last (q : N) (s : str) : option str :=
  match s with
  | [] => None
  | c :: s' =>
      match close_last q s' with
      | Some w => Some (c :: w)
      | None => if N.eqb c q && forallb Str.isspace s' then Some [] else None
      end
  end.

(** Groups 3 and 4 of the pattern on what follows the comma. *)
Definition content_groups (rest : str) : str * str :=
  match Str.lstrip rest with
  | q :: c' =>
      if Re.is_quote q then
        match close_last q c' with
        | Some w => ([q], w)
        | None => ([], q :: c')
        end
      else ([], q :: c')
  | [] => ([], [])
  end.

(** Groups 1 and 2 of the pattern, and what follows the comma, when the
    pattern is tried on [b] with no space skipped. *)
Definition path_groups_at (b : str) : option (str * str * str) :=
  match (match b with
         | q :: b' => if Re.is_quote q then close_quote q b' else None
         | [] => None
         end) with
  | Some (w, rest) => Some (take 1 b, w, rest)
  | None =>
      match cut_comma b with
      | Some (w, rest) => Some ([], w, rest)
      | None => None
      end
  end.

Definition path_groups (args : str) : option (str * str * str) :=
  path_groups_at (Str.lstrip args).

(** The groups of a successful match of the pattern. *)
Definition matched (q1 g2 rest : str) : Re.groups :=
  [(4, (content_groups rest).2); (3, (content_groups rest).1); (2, g2); (1, q1)].

(** What follows group 2 in the pattern, and what follows group 1. *)
Definition closing : Re.regex := (Re.Backref 3 ;; Re.spaces ;; Re.Eol)%re.

Definition after_sep : Re.regex :=
  (Re.spaces ;; Re.Group 3 (Re.Opt Re.quote) ;;
   Re.Group 4 (Re.Star true Re.dot_all) ;; closing)%re.

Definition separator : Re.regex :=
  (Re.Backref 1 ;; Re.spaces ;; Re.Chr (N.eqb comma) ;; after_sep)%re.

Definition after_spaces : Re.regex :=
  (Re.Group 1 (Re.Opt Re.quote) ;; Re.Group 2 (Re.Star false Re.dot_all) ;; separator)%re.

(** No quote, a single quote or a double quote. *)
Definition quote_or_none (q : str) : Prop := q = [] ∨ q = [39%N] ∨ q = [34%N].

(** The scans that a star of one character class makes, with the text
    consumed so far: the lazy one asks the continuation first, the greedy
    one last. *)
Fixpoint lazy_from {R} (p : N -> bool) (k : str -> nat -> str -> option R)
    (w : str) (pos : nat) (s : str) : option R :=
  match k w pos s with
  | Some x => Some x
  | None =>
      match s with
      | c :: s' => if p c then lazy_from p k (w ++ [c]) (S pos) s' else None
      | [] => None
      end
  end.

Fixpoint greedy_from {R} (p : N -> bool) (k : str -> nat -> str -> option R)
    (w : str) (pos : nat) (s : str) : option R :=
  match s with
  | c :: s' =>
      if p c then
        match greedy_from p k (w ++ [c]) (S pos) s' with
        | Some x => Some x
        | None => k w pos s
        end
      else k w pos s
  | [] => k w pos s
  end.

(** Neither the first nor the last character of [s] is a space. *)
Definition no_outer_space (s : str) : Prop :=
  (∀ c s', s = c :: s' → Str.isspace c = false)
  ∧ (∀ c s', s = s' ++ [c] → Str.isspace c = false).

(** A language model that always answers [response], and formatters that
    answer with the name of the tool and of the folder. *)
Definition scripted (response : str) : External :=
  {| generate_response := fun _ => response;
     generate_final_response := fun name_ _ _ => name_;
     list_folder_contents := fun folder_name fs => (folder_name, fs) |}.

Definition available_tools : str :=
  lit "list_directory, read_file, write_file, create_directory, delete_file, move_file, get_file_info".

(** *** The bulk macros *)

(** The entry of a listing for [q]. *)
Definition item_of (fs : fsys) (q : path) : Dict.t scalar :=
  match fs !! q with
  | Some n =>
      [(lit "name", SStr (name q));
       (lit "type", SStr (if OS.is_dir fs q then lit "directory" else lit "file"));
       (lit "size", if OS.is_file fs q then SInt (Z.of_N (OS.r_size (OS.stat_node n)))
                    else SNone);
       (lit "modified", SFloat (OS.r_mtime (OS.stat_node n)))]
  | None => []
  end.

(** The entries directly below the root that a listing calls files: all
    but the directories. *)
Definition listed_files (self : MCPFilesystemServer) (fs : fsys) : list path :=
  List.filter (fun q => negb (OS.is_dir fs q)) (OS.iterdir fs (allowed_directory self)).

Definition file_names (self : MCPFilesystemServer) (fs : fsys) : list str :=
  map name (listed_files self fs).

Definition image_names `{Env} (self : MCPFilesystemServer) (fs : fsys) : list str :=
  List.filter is_image_name (file_names self fs).

(** A result with the key [error]. *)
Definition failed (r : payload) : bool := Dict.mem (lit "error") r.

(** The files of a batch are tried one after the other and every one
    succeeds: the state at the end. *)
Fixpoint run_ok (step : str -> fsys -> payload * fsys) (files : list str) (fs : fsys)
  : option fsys :=
  match files with
  | [] => Some fs
  | f :: files' =>
      let (r, fs') := step f fs in
      if failed r then None else run_ok step files' fs'
  end.

(** Every file of a batch is tried, one after the other, whatever the
    results: the results in order, and the state at the end. *)
Fixpoint run_all (step : str -> fsys -> payload * fsys) (files : list str) (fs : fsys)
  : list (str * payload) * fsys :=
  match files with
  | [] => ([], fs)
  | f :: files' =>
      let (r, fs1) := step f fs in
      let (outs, fs2) := run_all step files' fs1 in
      ((f, r) :: outs, fs2)
  end.

(** The step of the move macro for one image. *)
Definition move_step `{Env} (self : MCPFilesystemServer) (folder_name f : str)
  : fsys -> payload * fsys :=
  move_file self (lit "./" ++ f) (lit "./" ++ folder_name ++ lit "/" ++ f).

Definition delete_error (out : str * payload) : str :=
  cross ++ lit " Error deleting " ++ out.1 ++ lit ": " ++ error_of out.2.

(** A regular file directly below the root. *)
Definition root_file (self : MCPFilesystemServer) (fs : fsys) (p : path) : bool :=
  bool_decide (p ≠ [] ∧ parent p = allowed_directory self) && OS.is_file fs p.

(** A sandbox with three images, one of them a socket, a text file, and
    a folder [pics] that already holds a directory [c.png] with a file
    [c.png] in it. *)
Definition gallery : fsys :=
  {[ [] := NDir dir_meta;
     [lit "box"] := NDir dir_meta;
     [lit "box"; lit "a.jpg"] := NFile [65]%N file_meta;
     [lit "box"; lit "b.jpg"] := NSock file_meta;
     [lit "box"; lit "c.png"] := NFile [67]%N file_meta;
     [lit "box"; lit "notes.txt"] := NFile [110]%N file_meta;
     [lit "box"; lit "pics"] := NDir dir_meta;
     [lit "box"; lit "pics"; lit "c.png"] := NDir dir_meta;
     [lit "box"; lit "pics"; lit "c.png"; lit "c.png"] := NFile [99]%N file_meta ]}.

(** A sandbox with three files and one folder that holds a file. *)
Definition three_files : fsys :=
  {[ [] := NDir dir_meta;
     [lit "box"] := NDir dir_meta;
     [lit "box"; lit "a.txt"] := NFile [97]%N file_meta;
     [lit "box"; lit "b.txt"] := NFile [98]%N file_meta;
     [lit "box"; lit "c.txt"] := NFile [99]%N file_meta;
     [lit "box"; lit "sub"] := NDir dir_meta;
     [lit "box"; lit "sub"; lit "d.txt"] := NFile [100]%N file_meta ]}.

(** The listing of the root. *)
Definition root_listing (self : MCPFilesystemServer) (fs : fsys) : payload :=
  let items := map (item_of fs) (OS.iterdir fs (allowed_directory self)) in
  [(lit "path", VScalar (SStr (path_str (allowed_directory self))));
   (lit "items", VItems items);
   (lit "count", VScalar (SInt (Z.of_nat (length items))))].


(** The state after the regular files of [l] are removed. *)
Definition without_files (fs : fsys) (l : list path) (fs_k : fsys) : fsys :=
  foldl (fun acc q => if OS.is_file fs q then delete q acc else acc) fs_k l.

(** ** The replies of [DesktopAgent] *)

(** What the text of a reply leaves to the interpreter: the formatting of
    a quotient with one decimal, and the text of a value that is neither
    a string, an integer nor [None]. *)
Class Repr := {
  (** [format(n / d, '.1f')] for integers [n] and [d], or what the
      division raises *)
  ratio_1f : Z -> Z -> exn + str;
  (** the same for a float in the place of [n] *)
  float_ratio_1f : Z -> Z -> exn + str;
  (** [str(x)] for a float *)
  float_str : Z -> str;
  (** [str(l)] for a list of items *)
  items_str : list (Dict.t scalar) -> str;
  (** [json.dumps(d, indent=2)], or what it raises *)
  json_dumps : payload -> exn + str
}.

Module DesktopAgent.

(** The marks of the replies, as the source file has them. *)
Definition folder_mark : str := [63743; 252; 236; 197]%N.
Definition file_mark : str := [63743; 252; 236; 209]%N.
Definition video_mark : str := [63743; 252; 233; 168]%N.
Definition camera_mark : str := [63743; 252; 236; 960]%N.
Definition image_mark : str := [63743; 252; 241; 186; 212; 8719; 232]%N.
Definition open_folder_mark : str := [63743; 252; 236; 199]%N.
Definition info_mark : str := [8218; 209; 960; 212; 8719; 232]%N.
Definition pin_mark : str := [63743; 252; 236; 231]%N.
Definition ruler_mark : str := [63743; 252; 236; 232]%N.
Definition lock_mark : str := [63743; 252; 238; 237]%N.

(** The end of a line of a reply: the source writes a backslash and the
    letter n, two characters. *)
Definition nl : str := lit "\n".

(** [str(n)] for an integer. *)
Definition Z_str (n : Z) : str :=
  match n with
  | Zneg p => lit "-" ++ Str.of_N (Npos p)
  | _ => Str.of_N (Z.to_N n)
  end.

Section Replies.
Context `{Env} `{Repr}.
Variable filesystem : MCPFilesystemServer.

(** A value inside an f-string. *)
Definition scalar_str (x : scalar) : str :=
  match x with
  | SNone => lit "None"
  | SInt n => Z_str n
  | SFloat t => float_str t
  | SStr s => s
  end.

Definition value_str (v : value) : str :=
  match v with
  | VScalar x => scalar_str x
  | VItems l => items_str l
  end.

(** [d[key]] and [d.get(key, default)] inside an f-string. *)
Definition shown {V} (text : V -> str) (key : str) (d : Dict.t V) : M str :=
  match Dict.get key d with
  | Some v => mret (text v)
  | None => raise (KeyError key)
  end.

Definition shown_or {V} (text : V -> str) (key default : str) (d : Dict.t V) : str :=
  match Dict.get key d with
  | Some v => text v
  | None => default
  end.

(** [item["type"] == kind] *)
Definition has_type (kind : str) (item : Dict.t scalar) : M bool :=
  v ← field (lit "type") item;
  mret (match v with SStr s => Str.eqb s kind | _ => false end).

(** [[x for x in l if test(x)]] *)
Fixpoint filterM {A} (test : A -> M bool) (l : list A) : M (list A) :=
  match l with
  | [] => mret []
  | x :: l' =>
      keep ← test x;
      rest ← filterM test l';
      mret (if (keep : bool) then x :: rest else rest)
  end.

(** [for x in l: response += line(x)] *)
Fixpoint lines {A} (line : A -> M str) (l : list A) : M str :=
  match l with
  | [] => mret []
  | x :: l' => s ← line x; rest ← lines line l'; mret (s ++ rest)
  end.

(** [item.get("size", 0) / d if item.get("size") else 0], formatted with
    [.1f]: what is absent, [None], zero or empty counts as 0. *)
Definition size_text (d : Z) (item : Dict.t scalar) : M str :=
  match Dict.get (lit "size") item with
  | None | Some SNone | Some (SInt 0%Z) | Some (SFloat 0%Z) | Some (SStr []) =>
      mret (lit "0.0")
  | Some (SInt n) => lift (ratio_1f n d)
  | Some (SFloat t) => lift (float_ratio_1f t d)
  | Some (SStr _) =>
      raise (TypeError (lit "unsupported operand type(s) for /: 'str' and 'int'"))
  end.

(** [tool_result["items"]], iterated; a listing has a list there. *)
Definition items_in (v : value) : M (list (Dict.t scalar)) :=
  match v with
  | VItems l => mret l
  | VScalar _ => raise (TypeError (lit "object is not iterable"))
  end.

(** [item["name"].lower().endswith(exts)] *)
Definition name_ends_with (exts : list str) (item : Dict.t scalar) : M bool :=
  name_ ← name_of item;
  mret (existsb (fun ext => Str.ends_with (py_lower name_) ext) exts).

(** The line of a file or folder with its size. *)
Definition sized_line (lead mark unit_ : str) (d : Z) (item : Dict.t scalar) : M str :=
  size ← size_text d item;
  name_ ← shown scalar_str (lit "name") item;
  mret (lead ++ mark ++ lit " " ++ name_ ++ lit " (" ++ size ++ lit " " ++ unit_
        ++ lit ")" ++ nl).

Definition named_line (lead mark : str) (item : Dict.t scalar) : M str :=
  name_ ← shown scalar_str (lit "name") item;
  mret (lead ++ mark ++ lit " " ++ name_ ++ nl).

(** [any(ext in original_request.lower() for ext in words)] *)
Definition mentions (original_request : str) (words : list str) : bool :=
  existsb (fun ext => Str.contains (py_lower original_request) ext) words.

(** [format_directory_listing] *)
Definition format_directory_listing (tool_result : payload) (original_request : str)
  : M str :=
  match Dict.get (lit "items") tool_result with
  | None => mret (cross ++ lit " No items found")
  | Some v =>
      if mentions original_request [lit ".mp4"; lit "video"; lit "movie"] then
        items ← items_in v;
        filtered_items ←
          filterM (name_ends_with [lit ".mp4"; lit ".avi"; lit ".mov"; lit ".mkv"]) items;
        match filtered_items with
        | _ :: _ =>
            body ← lines (sized_line [] camera_mark (lit "MB") (1024 * 1024)) filtered_items;
            mret (video_mark ++ lit " Found " ++ Str.of_nat (length filtered_items)
                  ++ lit " video files:" ++ nl ++ body)
        | [] => mret (cross ++ lit " No video files found on Desktop")
        end
      else if mentions original_request
                [lit ".jpg"; lit ".png"; lit ".jpeg"; lit "image"; lit "photo"] then
        items ← items_in v;
        filtered_items ←
          filterM (name_ends_with [lit ".jpg"; lit ".jpeg"; lit ".png"; lit ".gif";
                                   lit ".bmp"]) items;
        match filtered_items with
        | _ :: _ =>
            body ← lines (sized_line [] image_mark (lit "KB") 1024) filtered_items;
            mret (image_mark ++ lit " Found " ++ Str.of_nat (length filtered_items)
                  ++ lit " image files:" ++ nl ++ body)
        | [] => mret (cross ++ lit " No image files found on Desktop")
        end
      else if Str.contains (py_lower original_request) (lit "folder")
              || Str.contains (py_lower original_request) (lit "director") then
        items ← items_in v;
        folders ← filterM (has_type (lit "directory")) items;
        match folders with
        | _ :: _ =>
            body ← lines (named_line [] folder_mark) (take 20 folders);
            mret (folder_mark ++ lit " Found " ++ Str.of_nat (length folders)
                  ++ lit " folders on Desktop:" ++ nl ++ body
                  ++ (if 20 <? length folders
                      then lit "... and " ++ Str.of_nat (length folders - 20)
                           ++ lit " more folders"
                      else []))
        | [] => mret (cross ++ lit " No folders found on Desktop")
        end
      else
        items ← items_in v;
        folders ← filterM (has_type (lit "directory")) items;
        files ← filterM (has_type (lit "file")) items;
        folder_part ←
          match folders with
          | _ :: _ =>
              body ← lines (named_line (lit "  ") folder_mark) (take 10 folders);
              mret (folder_mark ++ lit " Folders (" ++ Str.of_nat (length folders)
                    ++ lit "):" ++ nl ++ body
                    ++ (if 10 <? length folders
                        then lit "  ... and " ++ Str.of_nat (length folders - 10)
                             ++ lit " more folders" ++ nl
                        else []))
          | [] => mret []
          end;
        file_part ←
          match files with
          | _ :: _ =>
              body ← lines (sized_line (lit "  ") file_mark (lit "KB") 1024) (take 10 files);
              mret (nl ++ file_mark ++ lit " Files (" ++ Str.of_nat (length files)
                    ++ lit "):" ++ nl ++ body
                    ++ (if 10 <? length files
                        then lit "  ... and " ++ Str.of_nat (length files - 10)
                             ++ lit " more files" ++ nl
                        else []))
          | [] => mret []
          end;
        mret (lit " " ++ open_folder_mark ++ lit " Desktop contents ("
              ++ Str.of_nat (length items) ++ lit " total items):" ++ nl ++ nl
              ++ folder_part ++ file_part)
  end.

(** [content[:500] + "..." if len(content) > 500 else content], inside an
    f-string. *)
Definition preview_of (content : value) : M str :=
  match content with
  | VScalar (SStr s) => mret (if 500 <? length s then take 500 s ++ lit "..." else s)
  | VItems l =>
      if 500 <? length l then
        raise (TypeError (lit "can only concatenate list (not " ++ [34%N] ++ lit "str"
                          ++ [34%N] ++ lit ") to list"))
      else mret (items_str l)
  | VScalar SNone => raise (TypeError (lit "object of type 'NoneType' has no len()"))
  | VScalar (SInt _) => raise (TypeError (lit "object of type 'int' has no len()"))
  | VScalar (SFloat _) => raise (TypeError (lit "object of type 'float' has no len()"))
  end.

(** [format_file_content] *)
Definition format_file_content (tool_result : payload) : M str :=
  match Dict.get (lit "content") tool_result with
  | Some content =>
      let file_path := shown_or value_str (lit "path") (lit "file") tool_result in
      let size := shown_or value_str (lit "size") (lit "0") tool_result in
      let is_binary :=
        match Dict.get (lit "type") tool_result with
        | Some (VScalar (SStr file_type)) => Str.eqb file_type (lit "binary")
        | _ => false
        end in
      if is_binary then
        mret (file_mark ++ lit " " ++ file_path ++ lit " is a binary file (" ++ size
              ++ lit " bytes)")
      else
        preview ← preview_of content;
        mret (file_mark ++ lit " Content of " ++ file_path ++ lit " (" ++ size
              ++ lit " bytes):" ++ nl ++ nl ++ preview)
  | None => mret (cross ++ lit " Could not read file content")
  end.

(** [format_file_info] *)
Definition format_file_info (info : payload) : str :=
  info_mark ++ lit " File info for " ++ shown_or value_str (lit "name") (lit "file") info
  ++ lit ":" ++ nl
  ++ pin_mark ++ lit " Path: " ++ shown_or value_str (lit "path") (lit "unknown") info ++ nl
  ++ folder_mark ++ lit " Type: " ++ shown_or value_str (lit "type") (lit "unknown") info
  ++ nl
  ++ ruler_mark ++ lit " Size: " ++ shown_or value_str (lit "size") (lit "0") info
  ++ lit " bytes" ++ nl
  ++ lock_mark ++ lit " Permissions: "
  ++ shown_or value_str (lit "permissions") (lit "unknown") info.

(** [generate_final_response] *)
Definition generate_final_response (tool_name_ : str) (tool_result : payload)
    (original_request : str) : fsys -> str * fsys :=
  try_except
    (if Dict.mem (lit "error") tool_result then
       error ← shown value_str (lit "error") tool_result;
       mret (cross ++ lit " Error: " ++ error)
     else if Str.eqb tool_name_ (lit "list_directory") then
       format_directory_listing tool_result original_request
     else if Str.eqb tool_name_ (lit "read_file") then
       format_file_content tool_result
     else if Str.eqb tool_name_ (lit "write_file") then
       mret (tick ++ lit " Successfully wrote "
             ++ shown_or value_str (lit "size") (lit "0") tool_result
             ++ lit " bytes to " ++ shown_or value_str (lit "path") (lit "file") tool_result)
     else if Str.eqb tool_name_ (lit "create_directory") then
       mret (tick ++ lit " Successfully created directory: "
             ++ shown_or value_str (lit "path") (lit "directory") tool_result)
     else if Str.eqb tool_name_ (lit "delete_file") then
       mret (tick ++ lit " Successfully deleted: "
             ++ shown_or value_str (lit "path") (lit "file") tool_result)
     else if Str.eqb tool_name_ (lit "move_file") then
       mret (tick ++ lit " Successfully moved "
             ++ shown_or value_str (lit "source") (lit "file") tool_result
             ++ lit " to "
             ++ shown_or value_str (lit "destination") (lit "destination") tool_result)
     else if Str.eqb tool_name_ (lit "get_file_info") then
       mret (format_file_info tool_result)
     else
       dumped ← lift (json_dumps tool_result);
       mret (lit "Tool " ++ tool_name_ ++ lit " completed: " ++ dumped))
    (fun e => lit "Tool completed but error formatting response: " ++ exn_str e).

(** The loop of [list_folder_contents] that looks for the folder: the
    first directory whose name in lower case begins with the name asked
    for in lower case. *)
Fixpoint matching_folder_of (folder_name : str) (items : list (Dict.t scalar))
  : M (option str) :=
  match items with
  | [] => mret None
  | item :: items' =>
      is_directory ← has_type (lit "directory") item;
      if (is_directory : bool) then
        name_ ← name_of item;
        if Str.starts_with (py_lower name_) (py_lower folder_name)
        then mret (Some name_)
        else matching_folder_of folder_name items'
      else matching_folder_of folder_name items'
  end.

(** The report of [list_folder_contents] on a folder that has entries. *)
Definition folder_report (matching_folder : str) (items : list (Dict.t scalar))
  : M str :=
  folders ← filterM (has_type (lit "directory")) items;
  files ← filterM (has_type (lit "file")) items;
  folder_part ←
    match folders with
    | _ :: _ =>
        body ← lines (named_line (lit "  ") folder_mark) folders;
        mret (folder_mark ++ lit " Folders (" ++ Str.of_nat (length folders)
              ++ lit "):" ++ nl ++ body)
    | [] => mret []
    end;
  file_part ←
    match files with
    | _ :: _ =>
        body ← lines (sized_line (lit "  ") file_mark (lit "KB") 1024) files;
        mret (nl ++ file_mark ++ lit " Files (" ++ Str.of_nat (length files)
              ++ lit "):" ++ nl ++ body)
    | [] => mret []
    end;
  mret (folder_mark ++ lit " Contents of '" ++ matching_folder ++ lit "' ("
        ++ Str.of_nat (length items) ++ lit " items):" ++ nl ++ nl
        ++ folder_part ++ file_part).

(** [list_folder_contents] *)
Definition list_folder_contents (folder_name : str) : fsys -> str * fsys :=
  try_except
    (list_result ← call (list_directory filesystem (lit "."));
     if Dict.mem (lit "error") list_result then
       error ← shown value_str (lit "error") list_result;
       mret (cross ++ lit " Error listing desktop: " ++ error)
     else
       items ← items_of list_result;
       found ← matching_folder_of folder_name items;
       match found with
       | Some ((_ :: _) as matching_folder) =>
           folder_result ← call (list_directory filesystem matching_folder);
           if Dict.mem (lit "error") folder_result then
             error ← shown value_str (lit "error") folder_result;
             mret (cross ++ lit " Error listing folder '" ++ matching_folder ++ lit "': "
                   ++ error)
           else
             items ← items_of folder_result;
             match items with
             | [] =>
                 mret (folder_mark ++ lit " Folder '" ++ matching_folder
                       ++ lit "' is empty")
             | _ :: _ => folder_report matching_folder items
             end
       | _ => mret (cross ++ lit " No folder found starting with '" ++ folder_name ++ lit "'")
       end)
    (fun e => cross ++ lit " Error listing folder: " ++ exn_str e).

(** [clear_history] *)
Definition clear_history (h : history) : history := [].

(** The agent with its own formatters, around a language model. *)
Definition agent (model : list (str * str) -> str) : External :=
  Build_External model
    (fun tool_name_ tool_result original_request =>
       (generate_final_response tool_name_ tool_result original_request ∅).1)
    list_folder_contents.

End Replies.
End DesktopAgent.

(** * Vocabulary of the further properties *)

(** The proper ancestors of the root of the sandbox are directories, as
    they are whenever the root exists in a tree. *)
Definition anchored (self : MCPFilesystemServer) (fs : fsys) : bool :=
  forallb (OS.is_dir fs) (OS.ancestors (allowed_directory self)).

(** A body that leaves the file system as it found it, whatever it
    returns or raises. *)
Definition keeps_state {A} (m : M A) : Prop := ∀ fs, (m fs).2 = fs.

(** A body that, started where the ancestors of the root are
    directories, changes no entry outside the root. *)
Definition confined (self : MCPFilesystemServer) {A} (m : M A) : Prop :=
  ∀ fs, anchored self fs = true →
        ∀ q, ¬ OS.under (allowed_directory self) q → (m fs).2 !! q = fs !! q.

(** A file system with an entry outside the sandbox [/box]. *)
Definition shared_host : fsys :=
  {[ [] := NDir dir_meta;
     [lit "box"] := NDir dir_meta;
     [lit "box"; lit "a.txt"] := NFile [97]%N file_meta;
     [lit "etc"] := NDir dir_meta;
     [lit "etc"; lit "passwd"] := NFile [114]%N file_meta ]}.

(** What [list_directory] returns for a directory with the entries
    [children]. *)
Definition listing (fs : fsys) (sp : path) (children : list path) : payload :=
  [(lit "path", VScalar (SStr (path_str sp)));
   (lit "items", VItems (map (item_of fs) children));
   (lit "count", VScalar (SInt (Z.of_nat (length children))))].

(** What [read_file] returns for a file that is not valid UTF-8. *)
Definition binary_result (sp : path) (bs : list N) : payload :=
  [(lit "path", VScalar (SStr (path_str sp)));
   (lit "content",
    VScalar (SStr (lit "<Binary file, first 1024 bytes: "
                   ++ Str.of_nat (Nat.min 1024 (length bs)) ++ lit " bytes>")));
   (lit "size", VScalar (SInt (Z.of_nat (length bs))));
   (lit "type", VScalar (SStr (lit "binary")))].

(** What [create_directory] and [move_file] return on success. *)
Definition created_result (sp : path) : payload :=
  [(lit "path", VScalar (SStr (path_str sp)));
   (lit "message", VScalar (SStr (lit "Directory created successfully")))].

Definition moved_result (s d : path) : payload :=
  [(lit "source", VScalar (SStr (path_str s)));
   (lit "destination", VScalar (SStr (path_str d)));
   (lit "message", VScalar (SStr (lit "File moved successfully")))].

(** The entry at [p] is absent or a directory. *)
Definition free_or_dir (fs : fsys) (p : path) : bool :=
  match fs !! p with
  | None | Some (NDir _) => true
  | Some _ => false
  end.

(** Where [shutil.move] puts [s] when told to move it to [d]: into [d]
    when that is a directory, at [d] otherwise. *)
Definition landing (fs : fsys) (s d : path) : path :=
  if OS.is_dir fs d then d ++ [name s] else d.

(** The three octal digits of the permission bits of a mode. *)
Definition octal3 (mode : N) : str :=
  [48 + mode / 64 mod 8; 48 + mode / 8 mod 8; 48 + mode mod 8]%N.

(** What [get_file_info] returns for the node [n] at [sp]. *)
Definition info_result (sp : path) (n : node) : payload :=
  let st := OS.stat_node n in
  [(lit "path", VScalar (SStr (path_str sp)));
   (lit "name", VScalar (SStr (name sp)));
   (lit "type", VScalar (SStr (match n with
                               | NDir _ => lit "directory"
                               | _ => lit "file"
                               end)));
   (lit "size", VScalar (SInt (Z.of_N (OS.r_size st))));
   (lit "created", VScalar (SFloat (OS.r_ctime st)));
   (lit "modified", VScalar (SFloat (OS.r_mtime st)));
   (lit "permissions", VScalar (SStr (octal3 (OS.r_mode st))))].

(** The sandbox [/box] with one file whose bytes are not UTF-8. *)
Definition raw_box : fsys :=
  {[ [] := NDir dir_meta;
     [lit "box"] := NDir dir_meta;
     [lit "box"; lit "raw"] := NFile [255; 254; 0]%N file_meta ]}.

(** The tool calls of a session, name and raw arguments, executed one
    after the other: the file system at the end. *)
Definition run_calls `{Env} (self : MCPFilesystemServer) (calls : list (str * str))
    (fs : fsys) : fsys :=
  foldl (fun fs c => (execute_tool self c.1 c.2 fs).2) fs calls.

(** The error of [shutil.move] for a directory moved below itself. *)
Definition into_itself (s d : path) : str :=
  lit "Cannot move a directory '" ++ path_str s ++ lit "' into itself '"
  ++ path_str d ++ lit "'.".

(** *** Tool calls *)

(** The parentheses around the arguments of a tool call. *)
Definition lparen : N := 40.
Definition rparen : N := 41.

(** The number of commas in a string. *)
Definition commas (s : str) : nat := length (List.filter (N.eqb comma) s).

(** [w] between two quotes [q]. *)
Definition quoted (q : N) (w : str) : str := q :: w ++ [q].

(** What [parse_tool_arguments] makes of one part: the part stripped,
    without its quotes if it begins and ends with the same kind. *)
Definition unquote (part : str) : str :=
  let part := Str.strip part in
  if Str.starts_with part [34%N] && Str.ends_with part [34%N]
     || Str.starts_with part [39%N] && Str.ends_with part [39%N]
  then slice_1_m1 part else part.

(** The error of calling [move_file] with one argument. *)
Definition missing_destination : str :=
  lit "MCPFilesystemServer.move_file() missing 1 required positional argument: 'destination'".

(** A pattern without a group of its own. *)
Fixpoint no_groups (r : Re.regex) : bool :=
  match r with
  | Re.Group _ _ => false
  | Re.Seq r1 r2 => no_groups r1 && no_groups r2
  | Re.Opt r1 | Re.Star _ r1 => no_groups r1
  | _ => true
  end.

(** *** Replies *)

(** The model of [Repr] used for the concrete runs: a quotient of
    non-negative integers with one decimal, rounded half to even; floats
    are shown as integers, lists and JSON text are not spelled out. *)
Definition one_decimal (n d : Z) : str :=
  let q := (10 * n / d)%Z in
  let r := (10 * n mod d)%Z in
  let q := (if (d <? 2 * r) || ((d =? 2 * r) && Z.odd q) then q + 1 else q)%Z in
  DesktopAgent.Z_str (q / 10) ++ lit "." ++ DesktopAgent.Z_str (q mod 10).

Definition plain_repr : Repr :=
  {| ratio_1f := fun n d => inr (one_decimal n d);
     float_ratio_1f := fun n d => inr (one_decimal n d);
     float_str := DesktopAgent.Z_str;
     items_str := fun _ => lit "[...]";
     json_dumps := fun _ => inr (lit "{...}") |}.

(** The directory that [list_folder_contents] lists for a name: the
    first one, in the order in which the root is listed, whose name in
    lower case begins with the name asked for in lower case. *)
Definition chosen_folder `{Env} (self : MCPFilesystemServer) (fs : fsys)
    (folder_name : str) : option path :=
  List.find (fun q => OS.is_dir fs q
                      && Str.starts_with (py_lower (name q)) (py_lower folder_name))
            (OS.iterdir fs (allowed_directory self)).

(** The first line of the reply for a folder with [n] entries. *)
Definition contents_header (folder : str) (n : nat) : str :=
  DesktopAgent.folder_mark ++ lit " Contents of '" ++ folder ++ lit "' ("
  ++ Str.of_nat n ++ lit " items):" ++ DesktopAgent.nl ++ DesktopAgent.nl.

(** The reply of the agent to a text that was read. *)
Definition text_reply (sp : path) (content : str) : str :=
  DesktopAgent.file_mark ++ lit " Content of " ++ path_str sp ++ lit " ("
  ++ Str.of_nat (length content) ++ lit " bytes):" ++ DesktopAgent.nl ++ DesktopAgent.nl
  ++ (if 500 <? length content then take 500 content ++ lit "..." else content).

Definition binary_reply (sp : path) (bs : list N) : str :=
  DesktopAgent.file_mark ++ lit " " ++ path_str sp ++ lit " is a binary file ("
  ++ Str.of_nat (length bs) ++ lit " bytes)".

(** A language model that gives one answer whatever it is asked. *)
Definition answering (response : str) : list (str * str) -> str := fun _ => response.

(** Whether [process_user_input] answers a request itself, by one of the
    macros or by the listing of a folder, before the language model is
    asked. *)
Definition answered_directly `{Env} (user_input : str) : bool :=
  let lower := py_lower user_input in
  Str.contains lower (lit "move") && Str.contains lower (lit "image")
  && bool_decide (is_Some (match Re.search to_folder lower with
                           | Some g => Re.group 1 g
                           | None => None
                           end))
  || Str.contains lower (lit "delete") && Str.contains lower (lit "image")
  || Str.contains lower (lit "delete all files")
  || Str.contains lower (lit "clear all files")
  || Str.contains lower (lit "list")
     && (Str.contains lower (lit "in") || Str.contains lower (lit "folder"))
     && match extract_folder_name user_input with
        | Some (_ :: _) => true
        | _ => false
        end.

(** * Symbolic links *)

(** The operations that the delete-all macro goes through, over a file
    system that has symbolic links.  The entries are as before.  A link
    sits at a name that holds no entry, and what is kept of it is the
    location that its target names; a relative target is taken from the
    directory of the link.  The model covers the links whose target is
    reached without passing another link: a chain of links and a loop
    are outside it, and so is a second name for one file, a hard link. *)

Module Links.

Record state := State { entries : fsys; links : gmap path path }.

(** A method body over this file system. *)
Definition LM (A : Type) : Type := state -> (exn + A) * state.

Definition ret {A} (a : A) : LM A := fun st => (inr a, st).

Definition bind {A B} (m : LM A) (k : A -> LM B) : LM B := fun st =>
  match m st with
  | (inr a, st') => k a st'
  | (inl e, st') => (inl e, st')
  end.

Definition raise {A} (e : exn) : LM A := fun st => (inl e, st).
Definition get_state : LM state := fun st => (inr st, st).
Definition lift {A} (r : exn + A) : LM A := fun st => (r, st).

(** A body that knows nothing of links runs on the entries. *)
Definition on_entries {A} (m : M A) : LM A := fun st =>
  let (r, fs') := m (entries st) in (r, State fs' (links st)).

Definition call {A} (f : state -> A * state) : LM A := fun st =>
  let (a, st') := f st in (inr a, st').

Definition try_except {A} (body : LM A) (handler : exn -> A) (st : state) : A * state :=
  match body st with
  | (inr a, st') => (a, st')
  | (inl e, st') => (handler e, st')
  end.

(** Where the system arrives for a name in a directory that is reached
    without links: at the target if the name is a link. *)
Definition follow (st : state) (p : path) : path :=
  match links st !! p with
  | Some target => target
  | None => p
  end.

Section Server.
Context `{Env}.
Variable self : MCPFilesystemServer.

(** The location of what [posixpath._joinrealpath] has walked so far. *)
Definition walked (abs : bool) (acc : path) : path :=
  if abs then acc else resolve_from os_getcwd acc.

(** [posixpath._joinrealpath]: as without links, and where [os.lstat]
    finds a link the walk goes on from its target, which is absolute. *)
Fixpoint joinrealpath (st : state) (abs : bool) (acc : path) (cs : path)
  : exn + (bool * path) :=
  match cs with
  | [] => inr (abs, acc)
  | c :: cs' =>
      if decide (c = pardir) then joinrealpath st abs (walk_up abs acc) cs'
      else match os_refuses (walked_text abs (acc ++ [c])) with
           | Some e => inl e
           | None =>
               match links st !! walked abs (acc ++ [c]) with
               | Some target => joinrealpath st true target cs'
               | None => joinrealpath st abs (acc ++ [c]) cs'
               end
           end
  end.

(** [p.resolve()] *)
Definition resolve (st : state) (p : PurePath) : exn + path :=
  match joinrealpath st (is_abs p) [] (parts p) with
  | inl e => inl e
  | inr (abs, q) => inr (walked abs q)
  end.

Definition _is_path_allowed (st : state) (path_ : str) : bool :=
  match resolve st (Path path_) with
  | inr resolved_path => is_relative_to resolved_path (allowed_directory self)
  | inl _ => false
  end.

Definition _get_safe_path (path_ : str) : LM path := fun st =>
  (match (if os_path_isabs path_ then resolve st (Path path_)
          else resolve st (joinpath (of_abs (allowed_directory self)) path_)) with
   | inl e => inl e
   | inr safe_path =>
       if negb (_is_path_allowed st (path_str safe_path)) then
         inl (PermissionError (lit "Access denied to path: " ++ path_))
       else inr safe_path
   end, st).

(** [p.exists()], [p.is_dir()], [p.is_file()] and [p.stat()] follow a
    link. *)
Definition exists_ (st : state) (p : path) : bool := OS.exists_ (entries st) (follow st p).
Definition is_dir (st : state) (p : path) : bool := OS.is_dir (entries st) (follow st p).
Definition is_file (st : state) (p : path) : bool := OS.is_file (entries st) (follow st p).

Definition stat (p : path) : LM OS.stat_result := fun st =>
  match entries st !! follow st p with
  | Some n => (inr (OS.stat_node n), st)
  | None => (inl (OS.ENOENT p), st)
  end.

(** [p.iterdir()]: the entries and the links directly below [p]; in
    this model the entries are listed first. *)
Definition iterdir (st : state) (p : path) : list path :=
  filter (fun q => q <> [] /\ parent q = p)
         (map fst (map_to_list (entries st)) ++ map fst (map_to_list (links st))).

(** [p.unlink()] removes a link itself. *)
Definition unlink (p : path) : LM unit := fun st =>
  match links st !! p with
  | Some _ => (inr tt, State (entries st) (delete p (links st)))
  | None => on_entries (OS.unlink p) st
  end.

(** [shutil.rmtree(p)] refuses a link, with an [OSError] that has the
    text alone, and removes the links below a directory without
    following them. *)
Definition rmtree (p : path) : LM unit := fun st =>
  match links st !! p with
  | Some _ =>
      (inl (ShutilError (lit "Cannot call rmtree on a symbolic link")), st)
  | None =>
      match OS.rmtree p (entries st) with
      | (inr _, fs') =>
          (inr tt, State fs' (filter (fun kv => ~ OS.under p (fst kv)) (links st)))
      | (inl e, fs') => (inl e, State fs' (links st))
      end
  end.

Fixpoint mapM {A B} (f : A -> LM B) (l : list A) : LM (list B) :=
  match l with
  | [] => ret []
  | a :: l' => bind (f a) (fun b => bind (mapM f l') (fun bs => ret (b :: bs)))
  end.

Definition item_info (item : path) : LM (Dict.t scalar) :=
  bind get_state (fun st =>
  bind (stat item) (fun s =>
  ret [(lit "name", SStr (name item));
       (lit "type", SStr (if is_dir st item then lit "directory" else lit "file"));
       (lit "size", if is_file st item then SInt (Z.of_N (OS.r_size s)) else SNone);
       (lit "modified", SFloat (OS.r_mtime s))])).

Definition list_directory (path_ : str) : state -> payload * state :=
  try_except
    (bind (_get_safe_path path_) (fun safe_path =>
     bind get_state (fun st =>
     if negb (exists_ st safe_path) then
       ret (error_payload (lit "Directory does not exist: " ++ path_))
     else if negb (is_dir st safe_path) then
       ret (error_payload (lit "Path is not a directory: " ++ path_))
     else
       bind (mapM item_info (iterdir st safe_path)) (fun items =>
       ret [(lit "path", VScalar (SStr (path_str safe_path)));
            (lit "items", VItems items);
            (lit "count", VScalar (SInt (Z.of_nat (length items))))]))))
    on_exception.

Definition delete_file (path_ : str) : state -> payload * state :=
  try_except
    (bind (_get_safe_path path_) (fun safe_path =>
     bind get_state (fun st =>
     if negb (exists_ st safe_path) then
       ret (error_payload (lit "Path does not exist: " ++ path_))
     else if is_file st safe_path then
       bind (unlink safe_path) (fun _ =>
       ret (deleted safe_path (lit "File deleted successfully")))
     else if is_dir st safe_path then
       bind (rmtree safe_path) (fun _ =>
       ret (deleted safe_path (lit "Directory deleted successfully")))
     else ret (error_payload (lit "Unknown path type: " ++ path_)))))
    on_exception.

(** The loop of [delete_all_files_in_current_folder]. *)
Fixpoint delete_all_loop (files : list str) (deleted_count : nat) (errors : list str)
  : LM (nat * list str) :=
  match files with
  | [] => ret (deleted_count, errors)
  | file_name :: files' =>
      bind (call (delete_file file_name)) (fun delete_result =>
      if Dict.mem (lit "error") delete_result then
        delete_all_loop files' deleted_count
          (errors ++ [cross ++ lit " Error deleting " ++ file_name ++ lit ": "
                      ++ error_of delete_result])
      else delete_all_loop files' (S deleted_count) errors)
  end.

Definition delete_all_files_in_current_folder : state -> str * state :=
  try_except
    (bind (call (list_directory (lit "."))) (fun list_result =>
     if Dict.mem (lit "error") list_result then
       ret (cross ++ lit " Error listing files to delete: " ++ error_of list_result)
     else
       bind (on_entries (items_of list_result)) (fun items =>
       bind (on_entries (files_of items)) (fun files_to_delete =>
       match files_to_delete with
       | [] => ret (tick ++ lit " No files found in the current folder to delete.")
       | _ :: _ =>
           bind (delete_all_loop files_to_delete 0 []) (fun r =>
           ret (delete_all_report (fst r) (snd r)))
       end))))
    (fun e => cross ++ lit " An unexpected error occurred while deleting files: "
              ++ exn_str e).

End Server.

End Links.

(** A sandbox with two files, a link [c.txt] to the file [d.txt] of the
    folder [sub], and that folder: what a listing shows as three files
    and one folder. *)
Definition linked_box : Links.state :=
  Links.State
    {[ [] := NDir dir_meta;
       [lit "box"] := NDir dir_meta;
       [lit "box"; lit "a.txt"] := NFile [97]%N file_meta;
       [lit "box"; lit "b.txt"] := NFile [98]%N file_meta;
       [lit "box"; lit "sub"] := NDir dir_meta;
       [lit "box"; lit "sub"; lit "d.txt"] := NFile [100]%N file_meta ]}
    {[ [lit "box"; lit "c.txt"] := [lit "box"; lit "sub"; lit "d.txt"] ]}.

(** A file system without links. *)
Definition no_links (fs : fsys) : Links.state := Links.State fs ∅.

(** A body over the entries and a body over the entries and the links
    that do the same where there is no link. *)
Definition agree {A} (m : M A) (lm : Links.LM A) : Prop :=
  forall fs, lm (no_links fs) = let (r, fs') := m fs in (r, no_links fs').

(** * Properties *)


(** ** The path guard *)

Section PathGuard.
Context `{Env}.


Lemma split_no_sep (c : str) : slash ∉ c → Str.split slash c = [c].
Proof.
  induction c as [|x c IH]; [done|]. intros Hc.
  apply not_elem_of_cons in Hc as [Hx Hc]. simpl.
  destruct (N.eqb_spec x slash) as [->|_]; [done|]. by rewrite IH.
Qed.

Lemma split_app_sep (c r : str) :
  slash ∉ c → Str.split slash (c ++ slash :: r) = c :: Str.split slash r.
Proof.
  induction c as [|x c IH]; intros Hc; simpl.
  - done.
  - apply not_elem_of_cons in Hc as [Hx Hc].
    destruct (N.eqb_spec x slash) as [->|_]; [done|]. by rewrite IH.
Qed.


Lemma split_components (s c : str) : c ∈ Str.split slash s → slash ∉ c.
Proof.
  revert c. induction s as [|x s IH]; intros c; simpl.
  - intros ->%list_elem_of_singleton. apply not_elem_of_nil.
  - destruct (N.eqb_spec x slash) as [->|Hx].
    + intros [->|Hc]%elem_of_cons; [apply not_elem_of_nil | by apply IH].
    + destruct (Str.split slash s) as [|w ws] eqn:E.
      * intros ->%list_elem_of_singleton.
        apply not_elem_of_cons; split; [done | apply not_elem_of_nil].
      * intros [->|Hc]%elem_of_cons.
        -- apply not_elem_of_cons; split; [done|]. apply IH. left.
        -- apply IH. by right.
Qed.

Lemma split_path_str (p : path) :
  p ≠ [] → Forall (fun c => slash ∉ c) p →
  Str.split slash (concat (map (fun c => slash :: c) p)) = [] :: p.
Proof.
  induction p as [|c p IH]; [done|]. intros _ Hp.
  apply Forall_cons in Hp as [Hc Hp]. simpl. f_equal.
  destruct p as [|c' p'].
  - simpl. rewrite app_nil_r. by apply split_no_sep.
  - specialize (IH ltac:(done) Hp). simpl in IH.
    simpl. rewrite split_app_sep by done. congruence.
Qed.

Lemma parse_path_str (p : path) : Forall plain p → parse_parts (path_str p) = p.
Proof.
  intros Hp. unfold parse_parts, path_str. destruct p as [|c p]; [done|].
  rewrite split_path_str; [|done|].
  - rewrite filter_cons_False by (intros [? _]; done).
    induction Hp as [|x l (Hx & Hd & _) _ IH]; [done|].
    rewrite filter_cons_True by done. by rewrite IH.
  - eapply Forall_impl; [exact Hp|]. by intros ? (_ & _ & _ & ? & _).
Qed.

Lemma resolve_from_plain (cs base : path) :
  Forall plain cs → resolve_from base cs = base ++ cs.
Proof.
  unfold resolve_from. revert base.
  induction cs as [|c cs IH]; intros base Hcs; simpl.
  - by rewrite app_nil_r.
  - apply Forall_cons in Hcs as [(_ & _ & Hc & _) Hcs].
    rewrite IH by done. unfold resolve_step.
    destruct (decide (c = pardir)); [done|]. by rewrite <- app_assoc.
Qed.

(** Resolution keeps a path made of real names so, when the components
    that come in are real names or [..]. *)
Lemma resolve_from_keeps_plain (cs base : path) :
  Forall plain base → Forall (fun c => plain c ∨ c = pardir) cs →
  Forall plain (resolve_from base cs).
Proof.
  unfold resolve_from. revert base.
  induction cs as [|c cs IH]; intros base Hb Hcs; [done|]. simpl.
  apply Forall_cons in Hcs as [Hc Hcs]. apply IH; [|done].
  unfold resolve_step. destruct (decide (c = pardir)) as [->|Hne].
  - clear -Hb. induction Hb as [|x l Hx Hl IH]; [constructor|].
    destruct l; [constructor|]. simpl in *. by constructor.
  - destruct Hc as [Hc|Hc]; [|done]. apply Forall_app. split; [done|].
    by constructor.
Qed.

(** Acceptance is a matter of the characters one by one. *)
Lemma fs_bad_run_None (s : str) (i : nat) :
  fs_bad_run s i = None ↔ forallb fs_encodable s = true.
Proof.
  revert i. induction s as [|c s IH]; intros i; [done|]. simpl.
  destruct (fs_encodable c); [apply IH | done].
Qed.

Lemma os_refuses_None (s : str) : os_refuses s = None ↔ os_accepts s = true.
Proof.
  unfold os_refuses, os_accepts. rewrite andb_true_iff, negb_true_iff.
  destruct (fs_bad_run s 0) as [[[start stop] c]|] eqn:E.
  - split; [done|]. intros [Hf _]. apply (fs_bad_run_None s 0) in Hf. congruence.
  - apply fs_bad_run_None in E. rewrite E.
    destruct (existsb (N.eqb 0) s); [split; [done | by intros [_ ?]] | done].
Qed.

Lemma os_refuses_refusal (s : str) (e : exn) : os_refuses s = Some e → refusal e.
Proof.
  unfold os_refuses, refusal.
  destruct (fs_bad_run s 0) as [[[start stop] c]|].
  - intros [= <-]. right. by exists start, stop, c.
  - destruct (existsb (N.eqb 0) s); [|done]. intros [= <-]. by left.
Qed.

Lemma os_accepts_app (a b : str) : os_accepts (a ++ b) = os_accepts a && os_accepts b.
Proof.
  unfold os_accepts. rewrite forallb_app, existsb_app.
  destruct (forallb fs_encodable a), (forallb fs_encodable b),
    (existsb (N.eqb 0) a), (existsb (N.eqb 0) b); done.
Qed.

Lemma os_accepts_path_str (p : path) : os_accepts (path_str p) = forallb os_accepts p.
Proof.
  destruct p as [|c p]; [done|]. unfold path_str.
  generalize (c :: p). clear. intros l. induction l as [|x l IH]; [done|].
  cbn [map concat forallb]. change (slash :: x) with ([slash] ++ x).
  by rewrite <- app_assoc, !os_accepts_app, IH.
Qed.

Lemma forallb_removelast {A} (f : A → bool) (l : list A) :
  forallb f l = true → forallb f (removelast l) = true.
Proof.
  induction l as [|x l IH]; [done|]. cbn [forallb removelast].
  intros [Hx Hl]%andb_true_iff. destruct l; [done|].
  cbn [forallb]. rewrite Hx. by apply IH.
Qed.

(** The walk of an absolute path succeeds exactly when every component
    is accepted, and what it returns is then the lexical resolution. *)
Lemma walk_accepted (cs acc : path) :
  forallb os_accepts acc = true → forallb os_accepts cs = true →
  joinrealpath true acc cs = inr (resolve_from acc cs).
Proof.
  unfold resolve_from. revert acc.
  induction cs as [|c cs IH]; intros acc Hacc Hcs; [done|].
  apply andb_true_iff in Hcs as [Hc Hcs]. cbn [joinrealpath fold_left].
  unfold resolve_step, walk_up. destruct (decide (c = pardir)).
  - apply IH; [by apply forallb_removelast | done].
  - assert (os_refuses (walked_text true (acc ++ [c])) = None) as ->.
    { apply os_refuses_None. unfold walked_text.
      rewrite os_accepts_path_str, forallb_app, Hacc. cbn. by rewrite Hc. }
    apply IH; [|done]. rewrite forallb_app, Hacc. cbn. by rewrite Hc.
Qed.

Lemma walk_refused (cs acc : path) :
  forallb os_accepts cs = false →
  ∃ e, joinrealpath true acc cs = inl e ∧ refusal e.
Proof.
  revert acc. induction cs as [|c cs IH]; intros acc Hcs; [done|].
  cbn [joinrealpath]. cbn [forallb] in Hcs. destruct (decide (c = pardir)) as [->|Hne].
  - apply IH. by rewrite <- Hcs.
  - destruct (os_refuses (walked_text true (acc ++ [c]))) as [e|] eqn:E.
    + exists e. split; [done|]. by eapply os_refuses_refusal.
    + apply IH. apply os_refuses_None in E. unfold walked_text in E.
      rewrite os_accepts_path_str, forallb_app in E.
      apply andb_true_iff in E as [_ E]. cbn in E. rewrite andb_true_r in E.
      by rewrite E in Hcs.
Qed.

Lemma parse_parts_shape (s : str) :
  forallb os_accepts (parse_parts s) = true →
  Forall (fun c => plain c ∨ c = pardir) (parse_parts s).
Proof.
  intros Hacc. apply Forall_forall. intros c Hc.
  assert (os_accepts c = true) as Hok.
  { rewrite forallb_forall in Hacc. by apply Hacc, list_elem_of_In. }
  apply list_elem_of_filter in Hc as [[Hne Hcur] Hin].
  destruct (decide (c = pardir)); [by right|]. left.
  repeat split; try done. by eapply split_components.
Qed.

Lemma is_abs_path_str (p : path) : os_path_isabs (path_str p) = true.
Proof. destruct p as [|c p]; simpl; by rewrite ?N.eqb_refl. Qed.

Lemma is_relative_to_prefix (p root : path) :
  is_relative_to p root = true ↔ root `prefix_of` p.
Proof.
  revert p. induction root as [|r root IH]; intros p.
  - split; [intros _; apply prefix_nil | by destruct p].
  - destruct p as [|c p]; simpl.
    + split; [done | intros []%prefix_nil_not].
    + rewrite andb_true_iff, IH. unfold Str.eqb. rewrite bool_decide_eq_true. split.
      * intros [-> Hp]. by apply prefix_cons.
      * intros Hp. split; [symmetry; by eapply prefix_cons_inv_1
                          | by eapply prefix_cons_inv_2].
Qed.

Lemma plain_accepted (p : path) : Forall plain p → forallb os_accepts p = true.
Proof.
  intros Hp. apply forallb_forall. intros c Hc%list_elem_of_In.
  rewrite Forall_forall in Hp. by destruct (Hp c Hc) as (_ & _ & _ & _ & ?).
Qed.

(** What a string resolves to when it is taken as absolute is made of
    real names. *)
Lemma resolve_parse_plain (s : str) (base : path) :
  forallb os_accepts (parse_parts s) = true →
  Forall plain base → Forall plain (resolve_from base (parse_parts s)).
Proof.
  intros Hacc Hb. apply resolve_from_keeps_plain; [done | by apply parse_parts_shape].
Qed.

(** [resolve] of an absolute string, by cases on its components. *)
Lemma resolve_abs (s : str) :
  os_path_isabs s = true →
  if forallb os_accepts (parse_parts s)
  then resolve (Path s) = inr (resolve_from [] (parse_parts s))
  else ∃ e, resolve (Path s) = inl e ∧ refusal e.
Proof.
  intros Habs. unfold resolve, Path. cbn [is_abs parts]. rewrite Habs.
  destruct (forallb os_accepts (parse_parts s)) eqn:E.
  - by rewrite walk_accepted.
  - destruct (walk_refused _ [] E) as (e & -> & He). by exists e.
Qed.

(** Printing a resolved path and resolving the text again gives the path. *)
Lemma resolve_path_str (p : path) :
  Forall plain p → resolve (Path (path_str p)) = inr p.
Proof.
  intros Hp. pose proof (resolve_abs (path_str p) (is_abs_path_str p)) as Hr.
  rewrite parse_path_str in Hr by done. rewrite plain_accepted in Hr by done.
  by rewrite resolve_from_plain in Hr.
Qed.

Lemma prefix_Forall {A} (P : A → Prop) (l1 l2 : list A) :
  l1 `prefix_of` l2 → Forall P l2 → Forall P l1.
Proof. intros [k ->] Hl. by apply Forall_app in Hl as [? _]. Qed.

Lemma resolved_location_parts (root : path) (p : str) :
  resolved_location root p = resolve_from [] (guard_parts root p).
Proof. unfold resolved_location, guard_parts. by destruct (os_path_isabs p). Qed.

(** The guard, by cases on what the walk gives. *)
Lemma get_safe_path_unfold (self : MCPFilesystemServer) (p : str) :
  _get_safe_path self p =
  match joinrealpath true [] (guard_parts (allowed_directory self) p) with
  | inl e => inl e
  | inr sp =>
      if _is_path_allowed self (path_str sp) then inr sp
      else inl (PermissionError (lit "Access denied to path: " ++ p))
  end.
Proof.
  unfold _get_safe_path, guard_parts, resolve, joinpath, Path, of_abs.
  destruct (os_path_isabs p) eqn:E; cbn [is_abs parts]; rewrite ?E; cbn [is_abs parts];
    destruct (joinrealpath true [] _); try done;
    by destruct (_is_path_allowed self _).
Qed.

Lemma resolved_location_plain (root : path) (p : str) :
  Forall plain root → forallb os_accepts (parse_parts p) = true →
  Forall plain (resolved_location root p).
Proof.
  intros Hr Hacc. unfold resolved_location. destruct (os_path_isabs p).
  - by apply resolve_parse_plain.
  - unfold resolve_from. rewrite fold_left_app.
    apply resolve_from_keeps_plain; [|by apply parse_parts_shape].
    fold (resolve_from [] root). by rewrite resolve_from_plain.
Qed.

(** The guard answers for the location itself, whatever the root is: a
    string that resolves is admitted or denied, and one that does not
    leaves with what [resolve] raised. *)
Lemma get_safe_path_spec (self : MCPFilesystemServer) (p : str) :
  let root := allowed_directory self in
  (∃ below, _get_safe_path self p = inr (root ++ below)
            ∧ resolved_location root p = root ++ below
            ∧ Forall plain (root ++ below)
            ∧ resolves self p = true)
  ∨ (_get_safe_path self p = inl (PermissionError (lit "Access denied to path: " ++ p))
     ∧ resolves self p = true)
  ∨ (∃ e, _get_safe_path self p = inl e ∧ refusal e ∧ resolves self p = false).
Proof.
  intros root. rewrite get_safe_path_unfold. fold root. unfold resolves. fold root.
  destruct (forallb os_accepts (guard_parts root p)) eqn:Hacc.
  - rewrite walk_accepted by done. rewrite <- resolved_location_parts.
    set (sp := resolved_location root p).
    destruct (_is_path_allowed self (path_str sp)) eqn:E; [left | by right; left].
    unfold _is_path_allowed in E. fold root in E.
    pose proof (resolve_abs (path_str sp) (is_abs_path_str sp)) as Hr.
    destruct (forallb os_accepts (parse_parts (path_str sp))) eqn:Hacc2;
      [|by destruct Hr as (e & Hr & _); rewrite Hr in E].
    rewrite Hr in E. apply is_relative_to_prefix in E.
    assert (Forall plain root) as Hroot.
    { eapply prefix_Forall; [exact E|]. by apply resolve_parse_plain. }
    assert (Forall plain sp) as Hsp.
    { apply resolved_location_plain; [done|]. unfold guard_parts in Hacc.
      destruct (os_path_isabs p); [done|]. rewrite forallb_app in Hacc.
      by apply andb_true_iff in Hacc as [_ ?]. }
    rewrite parse_path_str, resolve_from_plain in E by done. destruct E as [below E].
    exists below. by rewrite <- E.
  - right; right. destruct (walk_refused _ [] Hacc) as (e & -> & He). by exists e.
Qed.

Lemma resolves_parts (self : MCPFilesystemServer) (p : str) :
  resolves self p = true → forallb os_accepts (parse_parts p) = true.
Proof.
  unfold resolves, guard_parts. destruct (os_path_isabs p); [done|].
  rewrite forallb_app. by intros [_ ?]%andb_true_iff.
Qed.





(** Below a root of real names the guard decides by the location. *)
Lemma get_safe_path_decides (self : MCPFilesystemServer) (p : str) :
  Forall plain (allowed_directory self) → resolves self p = true →
  _get_safe_path self p
  = if is_relative_to (resolved_location (allowed_directory self) p)
                      (allowed_directory self)
    then inr (resolved_location (allowed_directory self) p)
    else inl (PermissionError (lit "Access denied to path: " ++ p)).
Proof.
  intros Hroot Hres. rewrite get_safe_path_unfold.
  rewrite walk_accepted by done. rewrite <- resolved_location_parts.
  unfold _is_path_allowed. rewrite resolve_path_str; [done|].
  apply resolved_location_plain; [done | by eapply resolves_parts].
Qed.

End PathGuard.



(** ** Results of the file operations *)

Section Results.
Context `{Env}.
Variable self : MCPFilesystemServer.




End Results.


(** ** The shape of the results *)

Section Shapes.
Context `{Env}.

Lemma returns_ret {A} (P : A → Prop) (a : A) : P a → returns P (mret a).
Proof. intros Ha fs a' fs' [= <- _]. done. Qed.

Lemma returns_raise {A} (P : A → Prop) (e : exn) : returns P (raise e).
Proof. by intros fs a fs'. Qed.

Lemma returns_bind {A B} (P : B → Prop) (m : M A) (k : A → M B) :
  (∀ a, returns P (k a)) → returns P (m ≫= k).
Proof.
  intros Hk fs b fs'. unfold mbind, M_bind.
  destruct (m fs) as [[e|a] fs1]; [done|]. apply Hk.
Qed.

Lemma returns_except_decode {A} (P : A → Prop) (body handler : M A) :
  returns P body → returns P handler → returns P (except_decode body handler).
Proof.
  intros Hb Hh fs a fs'. unfold except_decode.
  destruct (body fs) as [[e|a'] fs1] eqn:E.
  - destruct e; try done. apply Hh.
  - intros [= <- <-]. by eapply Hb.
Qed.

Lemma try_except_returns {A} (P : A → Prop) (body : M A) (handler : exn → A) fs :
  returns P body → (∀ e, P (handler e)) → P (try_except body handler fs).1.
Proof.
  intros Hb Hh. unfold try_except.
  destruct (body fs) as [[e|a] fs1] eqn:E; simpl; [apply Hh | by eapply Hb].
Qed.

Lemma error_payload_shape keys msg : one_shape keys (error_payload msg).
Proof.
  left. split; [by exists msg|]. intros [_ Hmem]. by vm_compute in Hmem.
Qed.

Lemma success_shape (keys : list string) (r : payload) :
  map fst r = map lit keys → Dict.mem (lit "error") r = false → one_shape keys r.
Proof.
  intros Hk Hm. right. split; [done|]. intros [msg ->]. by vm_compute in Hm.
Qed.

End Shapes.

Ltac shape_step :=
  lazymatch goal with
  | |- returns _ (mret (error_payload _)) => apply returns_ret, error_payload_shape
  | |- returns _ (mret _) =>
      apply returns_ret, success_shape; [reflexivity | vm_compute; reflexivity]
  | |- returns _ (raise _) => apply returns_raise
  | |- returns _ (_ ≫= _) => apply returns_bind; intros ?
  | |- returns _ (except_decode _ _) => apply returns_except_decode
  | |- returns _ (if ?b then _ else _) => destruct b
  | |- returns _ (let _ := _ in _) => cbv zeta
  end.

Ltac shape := apply try_except_returns;
  [repeat shape_step | intros ?; apply error_payload_shape].

(** C3.  On every input each of the seven operations returns one result,
    and the result has exactly one of the two shapes: the error payload,
    or the success payload of the operation with no key [error].  An
    operation is a total function of its arguments and the file system:
    what the body raises is turned into the error payload by the
    handler. *)
Theorem file_ops_one_shape `{Env} (self : MCPFilesystemServer)
    (path_ content source destination : str) (fs : fsys) :
  one_shape ["path"; "items"; "count"]%string (list_directory self path_ fs).1
  ∧ one_shape ["path"; "content"; "size"; "type"]%string (read_file self path_ fs).1
  ∧ one_shape ["path"; "size"; "message"]%string (write_file self path_ content fs).1
  ∧ one_shape ["path"; "message"]%string (create_directory self path_ fs).1
  ∧ one_shape ["path"; "message"]%string (delete_file self path_ fs).1
  ∧ one_shape ["source"; "destination"; "message"]%string
      (move_file self source destination fs).1
  ∧ one_shape ["path"; "name"; "type"; "size"; "created"; "modified"; "permissions"]%string
      (get_file_info self path_ fs).1.
Proof.
  repeat split.
  - unfold list_directory. shape.
  - unfold read_file. shape.
  - unfold write_file. shape.
  - unfold create_directory. shape.
  - unfold delete_file. shape.
  - unfold move_file. shape.
  - unfold get_file_info. shape.
Qed.

(** ** UTF-8 and text mode *)

Ltac bool_cases :=
  repeat match goal with
  | |- context [N.ltb ?a ?b] => destruct (N.ltb_spec a b); try (exfalso; lia)
  | |- context [N.leb ?a ?b] => destruct (N.leb_spec a b); try (exfalso; lia)
  | |- context [N.eqb ?a ?b] => destruct (N.eqb_spec a b); try (exfalso; lia)
  | |- _ => progress simpl andb
  | |- _ => progress simpl negb
  | |- _ => progress simpl orb
  end.

(** The digits of [c] in base 64. *)
Lemma base64_digits (c : N) :
  ∃ d0 d1 d2 d3 : N,
    (d0 < 64 ∧ d1 < 64 ∧ d2 < 64 ∧ c = d0 + 64 * d1 + 4096 * d2 + 262144 * d3
    ∧ c mod 64 = d0 ∧ c / 64 = d1 + 64 * d2 + 4096 * d3 ∧ (c / 64) mod 64 = d1
    ∧ c / 4096 = d2 + 64 * d3 ∧ (c / 4096) mod 64 = d2 ∧ c / 262144 = d3)%N.
Proof.
  exists (c mod 64)%N, ((c / 64) mod 64)%N, ((c / 4096) mod 64)%N, (c / 262144)%N.
  replace (c / 4096)%N with (c / 64 / 64)%N by (by rewrite N.Div0.div_div).
  replace (c / 262144)%N with (c / 64 / 64 / 64)%N by (by rewrite !N.Div0.div_div).
  pose proof (N.div_mod c 64 ltac:(done)) as E0.
  pose proof (N.div_mod (c / 64) 64 ltac:(done)) as E1.
  pose proof (N.div_mod (c / 64 / 64) 64 ltac:(done)) as E2.
  pose proof (N.mod_lt c 64 ltac:(done)).
  pose proof (N.mod_lt (c / 64) 64 ltac:(done)).
  pose proof (N.mod_lt (c / 64 / 64) 64 ltac:(done)).
  repeat split; try done; lia.
Qed.

Lemma decode_encode_char (c : N) (rest : list N) :
  Utf8.encodable c = true →
  Utf8.decode_char (Utf8.encode_char c ++ rest) = Some (c, rest).
Proof.
  unfold Utf8.encodable, Utf8.is_surrogate. intros Hc.
  apply andb_true_iff in Hc as [Hlt Hs]. apply N.ltb_lt in Hlt.
  apply negb_true_iff, andb_false_iff in Hs.
  assert (c < 55296 ∨ 57343 < c)%N as Hsur.
  { destruct Hs as [Hs|Hs]; [apply N.leb_gt in Hs | apply N.leb_gt in Hs]; lia. }
  clear Hs. unfold Utf8.encode_char.
  destruct (base64_digits c) as (d0 & d1 & d2 & d3 & H0 & H1 & H2 & Hc & -> & E1 & -> & E2 & -> & ->).
  rewrite ?E1, ?E2. clear E1 E2.
  destruct (N.ltb_spec c 128); [|destruct (N.ltb_spec c 2048); [|destruct (N.ltb_spec c 65536)]];
    simpl app; unfold Utf8.decode_char, Utf8.cont; bool_cases; f_equal; f_equal; lia.
Qed.

Lemma encode_char_length (c : N) : 0 < length (Utf8.encode_char c).
Proof. unfold Utf8.encode_char. repeat case_match; simpl; lia. Qed.

Lemma decode_fuel_step (fuel : nat) (bs : list N) :
  0 < length bs →
  Utf8.decode_fuel (S fuel) bs =
  match Utf8.decode_char bs with
  | Some (c, rest) =>
      match Utf8.decode_fuel fuel rest with
      | Some s => Some (c :: s)
      | None => None
      end
  | None => None
  end.
Proof. destruct bs; [simpl; lia | done]. Qed.

Lemma decode_encode (s : str) (bs : list N) (fuel : nat) :
  Utf8.encode s = Some bs → length bs ≤ fuel → Utf8.decode_fuel fuel bs = Some s.
Proof.
  revert bs fuel. induction s as [|c s IH]; intros bs fuel; simpl.
  - intros [= <-] _. by destruct fuel.
  - destruct (Utf8.encodable c) eqn:Hc; [|done].
    destruct (Utf8.encode s) as [bs'|] eqn:Hs; [|done]. intros [= <-] Hlen.
    pose proof (encode_char_length c) as Hpos. rewrite length_app in Hlen.
    destruct fuel as [|fuel]; [lia|].
    rewrite decode_fuel_step by (rewrite length_app; lia).
    rewrite decode_encode_char by done.
    rewrite (IH bs' fuel) by (done || lia). done.
Qed.

Lemma universal_newlines_id (s : str) :
  13%N ∉ s → Utf8.universal_newlines s = s.
Proof.
  induction s as [|c s IH]; [done|]. intros [Hc Hs]%not_elem_of_cons.
  specialize (IH Hs). simpl.
  destruct c as [|p]; [by rewrite IH|].
  do 4 (destruct p as [p|p|]; try by rewrite IH).
Qed.

(** ** Writing and reading a file *)

Section WriteRead.
Context `{Env}.

Lemma ancestors_snoc (p : path) (c : str) :
  OS.ancestors (p ++ [c]) = OS.ancestors p ++ [p].
Proof.
  unfold OS.ancestors. rewrite length_app. simpl.
  rewrite Nat.add_1_r, seq_S, map_app. simpl. f_equal.
  - apply map_ext_in. intros i Hi%in_seq. by rewrite take_app_le by lia.
  - by rewrite take_app_length.
Qed.

Lemma ancestors_shorter (p q : path) : q ∈ OS.ancestors p → length q < length p.
Proof.
  unfold OS.ancestors. intros (i & -> & Hi%elem_of_seq)%list_elem_of_fmap.
  rewrite length_take. lia.
Qed.

Lemma parent_snoc (p : path) (c : str) : parent (p ++ [c]) = p.
Proof. apply removelast_last. Qed.

Lemma path_snoc (p : path) : p ≠ [] → p = parent p ++ [name p].
Proof. intros Hp. by apply app_removelast_last. Qed.

Lemma blocked_false (fs : fsys) (p : path) :
  OS.blocked fs p = false ↔
  ∀ q, q ∈ OS.ancestors p → fs !! q = None ∨ OS.is_dir fs q = true.
Proof.
  unfold OS.blocked. rewrite <- not_true_iff_false, existsb_exists. split.
  - intros Hno q Hq. unfold OS.exists_, OS.is_dir in *.
    destruct (fs !! q) as [n|] eqn:E; [|by left]. right.
    destruct n; try done; destruct Hno; exists q;
      (split; [by apply list_elem_of_In | by rewrite E]).
  - intros Hall (q & Hq%list_elem_of_In & Hb). apply andb_true_iff in Hb as [He Hd].
    destruct (Hall q Hq) as [E|E].
    + unfold OS.exists_ in He. by rewrite E in He.
    + by rewrite E in Hd.
Qed.

Lemma foldl_make_dir_lookup (l : list path) (fs : fsys) (q : path) :
  foldl OS.make_dir fs l !! q =
  match fs !! q with
  | Some n => Some n
  | None => if decide (q ∈ l) then Some (NDir new_dir_meta) else None
  end.
Proof.
  revert fs. induction l as [|x l IH]; intros fs; simpl.
  - by destruct (fs !! q).
  - rewrite IH. unfold OS.make_dir.
    destruct (decide (q = x)) as [->|Hne].
    + destruct (fs !! x) as [n|] eqn:Ex; rewrite ?lookup_insert_eq, ?Ex; [done|].
      by rewrite decide_True by set_solver.
    + assert ((match fs !! x with
               | Some _ => fs
               | None => <[x:=NDir new_dir_meta]> fs
               end) !! q = fs !! q) as ->.
      { destruct (fs !! x); [done|]. by rewrite lookup_insert_ne. }
      destruct (fs !! q); [done|].
      destruct (decide (q ∈ l)).
      * by rewrite decide_True by set_solver.
      * by rewrite decide_False by set_solver.
Qed.

Lemma is_plain_spec (c : str) : is_plain c = true → plain c.
Proof.
  unfold is_plain, plain, Str.eqb. rewrite !andb_true_iff, !negb_true_iff.
  rewrite !bool_decide_eq_false. intros [[[[? ?] ?] Hs] ?]. repeat split; try done.
  intros Hin. apply not_true_iff_false in Hs. apply Hs, existsb_exists.
  exists slash. split; [by apply list_elem_of_In | apply N.eqb_refl].
Qed.

Lemma tree_spec (fs : fsys) :
  tree fs = true →
  OS.is_dir fs [] = true
  ∧ ∀ q n, fs !! q = Some n → OS.is_dir fs (parent q) = true ∧ Forall plain q.
Proof.
  unfold tree. rewrite andb_true_iff, forallb_forall. intros [Hroot Hall].
  split; [done|]. intros q n Hq.
  assert (In q (map fst (map_to_list fs))) as Hin.
  { apply list_elem_of_In, list_elem_of_fmap. exists (q, n).
    split; [done | by apply elem_of_map_to_list]. }
  apply Hall, andb_true_iff in Hin as [Hpar Hpl]. split; [done|].
  rewrite forallb_forall in Hpl. apply Forall_forall. intros c Hc.
  by apply is_plain_spec, Hpl, list_elem_of_In.
Qed.

Lemma is_dir_exists (fs : fsys) (q : path) :
  OS.is_dir fs q = true → ∃ m, fs !! q = Some (NDir m).
Proof. unfold OS.is_dir. destruct (fs !! q) as [[]|]; try done. eauto. Qed.

(** In a tree the ancestors of an entry are directories. *)
Lemma tree_ancestors (fs : fsys) (q : path) (n : node) :
  tree fs = true → fs !! q = Some n →
  ∀ a, a ∈ OS.ancestors q → OS.is_dir fs a = true.
Proof.
  intros [_ Htree]%tree_spec. revert n.
  induction q as [|c q IH] using rev_ind; intros n Hq a Ha.
  - by apply elem_of_nil in Ha.
  - rewrite ancestors_snoc in Ha. destruct (Htree _ _ Hq) as [Hpar _].
    rewrite parent_snoc in Hpar.
    apply elem_of_app in Ha as [Ha| ->%list_elem_of_singleton]; [|done].
    destruct (is_dir_exists _ _ Hpar) as [m Hm]. by eapply IH.
Qed.

Lemma mkdir_parents_ok (fs : fsys) (p : path) :
  tree fs = true → OS.blocked fs p = false →
  (fs !! p = None ∨ OS.is_dir fs p = true) →
  ∃ fs', OS.mkdir_parents p fs = (inr tt, fs')
         ∧ ∀ q, fs' !! q = with_dirs fs (OS.ancestors p ++ [p]) q.
Proof.
  intros Htree Hb Hp. unfold OS.mkdir_parents. rewrite Hb.
  destruct Hp as [Hp|Hp].
  - rewrite Hp. eexists. split; [done|]. intros q. apply foldl_make_dir_lookup.
  - destruct (is_dir_exists _ _ Hp) as [m Hm]. rewrite Hm.
    exists fs. split; [done|]. intros q. unfold with_dirs.
    destruct (fs !! q) eqn:Eq; [done|]. rewrite decide_False; [done|].
    intros [Hq| ->%list_elem_of_singleton]%elem_of_app; [|congruence].
    apply (tree_ancestors _ _ _ Htree Hm) in Hq.
    apply is_dir_exists in Hq as [? ?]. congruence.
Qed.

Variable self : MCPFilesystemServer.

Lemma not_ancestor_self (p : path) : p ∉ OS.ancestors p.
Proof. intros Hp%ancestors_shorter. lia. Qed.

(** [write_file] on a path of the sandbox whose way is clear. *)
Lemma write_file_ok (p content : str) (bs : list N) (sp : path) (fs : fsys) :
  tree fs = true →
  _get_safe_path self p = inr sp →
  OS.blocked fs sp = false →
  writable fs sp = true →
  Utf8.encode content = Some bs →
  ∃ m, write_file self p content fs =
       (written_result sp content,
        <[sp := NFile bs m]> (foldl OS.make_dir fs (OS.ancestors sp)))
       ∧ ∀ q, q ∈ OS.ancestors sp →
              OS.is_dir (foldl OS.make_dir fs (OS.ancestors sp)) q = true.
Proof.
  intros Htree Hsp Hb Hw Henc.
  destruct (tree_spec _ Htree) as [Hroot _].
  assert (sp ≠ []) as Hne.
  { intros ->. unfold writable in Hw. apply is_dir_exists in Hroot as [m Hm].
    by rewrite Hm in Hw. }
  pose proof (path_snoc _ Hne) as Esp.
  assert (OS.ancestors sp = OS.ancestors (parent sp) ++ [parent sp]) as Eanc.
  { rewrite Esp at 1. apply ancestors_snoc. }
  pose proof (proj1 (blocked_false fs sp) Hb) as Hclear.
  destruct (mkdir_parents_ok fs (parent sp) Htree) as (fsA & Hmk & HfsA).
  { apply blocked_false. intros q Hq. apply Hclear. rewrite Eanc. set_solver. }
  { apply Hclear. rewrite Eanc. set_solver. }
  rewrite <- Eanc in HfsA.
  assert (∀ q, q ∈ OS.ancestors sp → OS.is_dir fsA q = true) as Hdirs.
  { intros q Hq. unfold OS.is_dir. rewrite HfsA. unfold with_dirs.
    destruct (Hclear q Hq) as [E|E].
    - rewrite E. by rewrite decide_True.
    - apply is_dir_exists in E as [m ->]. done. }
  assert (fsA !! sp = fs !! sp) as EspA.
  { rewrite HfsA. unfold with_dirs. destruct (fs !! sp); [done|].
    by rewrite decide_False by apply not_ancestor_self. }
  assert (fsA = foldl OS.make_dir fs (OS.ancestors sp)) as ->.
  { apply map_eq. intros q. rewrite HfsA. symmetry. apply foldl_make_dir_lookup. }
  set (fsA := foldl OS.make_dir fs (OS.ancestors sp)) in *.
  assert (OS.blocked fsA sp = false) as HbA.
  { apply blocked_false. intros q Hq. right. by apply Hdirs. }
  assert (OS.is_dir fsA (parent sp) = true) as HparA.
  { apply Hdirs. rewrite Eanc. set_solver. }
  unfold write_file, try_except, mbind, M_bind, lift. rewrite Hsp, Hmk.
  unfold OS.write_text, mbind, M_bind, OS.open_w. rewrite HbA, HparA. simpl.
  rewrite EspA, Henc. unfold writable in Hw.
  destruct (fs !! sp) as [[data m| |]|] eqn:E; try done.
  - eexists. unfold modify, OS.set_data, mret, M_ret. simpl.
    rewrite lookup_insert_eq, insert_insert_eq. split; [reflexivity | done].
  - eexists. unfold modify, OS.set_data, mret, M_ret. simpl.
    rewrite lookup_insert_eq, insert_insert_eq. split; [reflexivity | done].
Qed.

(** [read_file] on a regular file of the sandbox. *)
Lemma read_file_ok (p : str) (sp : path) (fs : fsys) (bs : list N) (m : meta)
    (content : str) :
  _get_safe_path self p = inr sp →
  OS.blocked fs sp = false →
  fs !! sp = Some (NFile bs m) →
  Utf8.decode bs = Some content →
  read_file self p fs = (text_result sp (Utf8.universal_newlines content), fs).
Proof.
  intros Hsp Hb Hf Hdec.
  unfold read_file, try_except, mbind, M_bind, lift, get_fs. rewrite Hsp.
  unfold OS.exists_, OS.is_file. rewrite Hf. simpl.
  unfold except_decode, OS.read_text, mbind, M_bind, OS.read_bytes.
  rewrite Hb, Hf, Hdec. done.
Qed.

End WriteRead.

(** C6, as amended.  For a path that resolves inside the sandbox, in a
    file system that is a tree, when no ancestor of the target is an entry
    other than a directory, the target is absent or a regular file, and
    the content can be encoded and has no carriage return: [write_file]
    succeeds, every intermediate directory exists afterwards, and
    [read_file] of the same path then returns exactly the content. *)
Theorem write_then_read_round_trip `{Env} (self : MCPFilesystemServer)
    (p content : str) (sp : path) (fs : fsys) :
  tree fs = true →
  _get_safe_path self p = inr sp →
  OS.blocked fs sp = false →
  writable fs sp = true →
  plain_text content = true →
  let (w, fs1) := write_file self p content fs in
  w = written_result sp content
  ∧ Forall (fun q => OS.is_dir fs1 q = true) (OS.ancestors sp)
  ∧ read_file self p fs1 = (text_result sp content, fs1).
Proof.
  intros Htree Hsp Hb Hw Htext.
  apply andb_true_iff in Htext as [Henc Hcr].
  assert (∃ bs, Utf8.encode content = Some bs) as [bs Hbs].
  { clear -Henc. induction content as [|c s IH]; [by eexists|]. simpl in *.
    apply andb_true_iff in Henc as [-> Hs]. destruct (IH Hs) as [bs ->]. by eexists. }
  assert (13%N ∉ content) as Hno.
  { intros Hin. apply negb_true_iff, not_true_iff_false in Hcr. apply Hcr.
    apply existsb_exists. exists 13%N. by split; [apply list_elem_of_In|]. }
  destruct (write_file_ok self p content bs sp fs Htree Hsp Hb Hw Hbs) as (m & -> & Hdirs).
  set (fsA := foldl OS.make_dir fs (OS.ancestors sp)) in *.
  assert (∀ q, q ∈ OS.ancestors sp → OS.is_dir (<[sp:=NFile bs m]> fsA) q = true) as Hdirs1.
  { intros q Hq. unfold OS.is_dir. rewrite lookup_insert_ne.
    - by apply Hdirs.
    - intros ->. by apply not_ancestor_self in Hq. }
  split; [done|]. split; [by apply Forall_forall|].
  replace (text_result sp content)
    with (text_result sp (Utf8.universal_newlines content))
    by (by rewrite universal_newlines_id).
  eapply read_file_ok; [done| |apply lookup_insert_eq|].
  - apply blocked_false. intros q Hq. right. by apply Hdirs1.
  - by apply decode_encode.
Qed.


Lemma write_then_read_round_trip_witness :
  let p := lit "a/b/c.txt" in
  let sp := [lit "box"; lit "a"; lit "b"; lit "c.txt"] in
  let content := lit "hi" in
  let (w, fs1) := write_file (H:=posix_env) box p content empty_box in
  w = written_result sp content
  ∧ Forall (fun q => OS.is_dir fs1 q = true) (OS.ancestors sp)
  ∧ read_file (H:=posix_env) box p fs1 = (text_result sp content, fs1).
Proof.
  exact (write_then_read_round_trip (H:=posix_env) box (lit "a/b/c.txt") (lit "hi")
           [lit "box"; lit "a"; lit "b"; lit "c.txt"] empty_box
           eq_refl eq_refl eq_refl eq_refl eq_refl).
Defined.

(** C6, as the claim has it: a carriage return in the content does not
    come back.  [write_file] stores it, and [read_file], which reads in
    text mode, returns a line feed in its place. *)
Lemma write_then_read_carriage_return :
  let p := lit "a/b/c.txt" in
  let sp := [lit "box"; lit "a"; lit "b"; lit "c.txt"] in
  let content := [104; 105; 13]%N in
  let (w, fs1) := write_file (H:=posix_env) box p content empty_box in
  w = written_result sp content
  ∧ (read_file (H:=posix_env) box p fs1).1 = text_result sp [104; 105; 10]%N
  ∧ (read_file (H:=posix_env) box p fs1).1 ≠ text_result sp content.
Proof. vm_compute. repeat split. discriminate. Qed.

(** C7.  The [size] that [write_file] reports is the number of characters
    of the content, [len(content)], not the number of bytes written: for
    the one character U+00E9 the file receives two bytes and the payload
    says 1. *)
Theorem write_file_size_counts_characters :
  let (w, fs1) := write_file (H:=posix_env) box (lit "a.txt") [233%N] empty_box in
  w = written_result [lit "box"; lit "a.txt"] [233%N]
  ∧ Dict.get (lit "size") w = Some (VScalar (SInt 1))
  ∧ fs1 !! [lit "box"; lit "a.txt"] = Some (NFile [195; 169]%N file_meta).
Proof. vm_compute. done. Qed.

(** ** The pattern for the arguments of [write_file] *)

Section ReFacts.
Context {R : Type}.
Implicit Types (k : nat → str → Re.groups → option R).

Lemma run_star_nil greedy r k pos g :
  Re.run (Re.Star greedy r) k pos [] g = k pos [] g.
Proof. simpl. destruct greedy; [done|]. by destruct (k pos [] g). Qed.

Lemma run_star_chr_greedy p k pos c s g :
  Re.run (Re.Star true (Re.Chr p)) k pos (c :: s) g =
  if p c then
    match Re.run (Re.Star true (Re.Chr p)) k (S pos) s g with
    | Some x => Some x
    | None => k pos (c :: s) g
    end
  else k pos (c :: s) g.
Proof.
  simpl. destruct (p c); [|done].
  assert ((length s <? S (length s)) = true) as -> by (apply Nat.ltb_lt; lia).
  done.
Qed.

Lemma run_star_chr_lazy p k pos c s g :
  Re.run (Re.Star false (Re.Chr p)) k pos (c :: s) g =
  match k pos (c :: s) g with
  | Some x => Some x
  | None =>
      if p c then Re.run (Re.Star false (Re.Chr p)) k (S pos) s g else None
  end.
Proof.
  simpl. destruct (k pos (c :: s) g); [done|]. destruct (p c); [|done].
  assert ((length s <? S (length s)) = true) as -> by (apply Nat.ltb_lt; lia).
  done.
Qed.

(** A group around a star of one class is a scan that carries the text
    of the group. *)
Lemma star_scan (greedy : bool) n p k g (s0 : str) (pos0 : nat) (w s : str) :
  s0 = w ++ s →
  Re.run (Re.Star greedy (Re.Chr p))
    (fun pos' s' g' => k pos' s' ((n, take (pos' - pos0) s0) :: g'))
    (pos0 + length w) s g
  = (if greedy then greedy_from else lazy_from) p
      (fun w pos s => k pos s ((n, w) :: g)) w (pos0 + length w) s.
Proof.
  intros ->. revert w. induction s as [|c s IH]; intros w.
  - rewrite run_star_nil.
    replace (pos0 + length w - pos0) with (length w) by lia.
    rewrite take_app_length. destruct greedy; simpl; [done|].
    by destruct (k _ _ _).
  - specialize (IH (w ++ [c])). rewrite <- app_assoc in IH. simpl in IH.
    rewrite length_app in IH. simpl in IH. rewrite Nat.add_assoc, Nat.add_1_r in IH.
    replace (pos0 + length w - pos0) with (length w) in * by lia.
    destruct greedy.
    + rewrite run_star_chr_greedy. simpl. rewrite IH.
      replace (pos0 + length w - pos0) with (length w) by lia.
      by rewrite take_app_length.
    + rewrite run_star_chr_lazy. simpl. rewrite IH.
      replace (pos0 + length w - pos0) with (length w) by lia.
      by rewrite take_app_length.
Qed.

Lemma group_star (greedy : bool) n p k g (s : str) (pos : nat) :
  Re.run (Re.Group n (Re.Star greedy (Re.Chr p))) k pos s g
  = (if greedy then greedy_from else lazy_from) p
      (fun w pos s => k pos s ((n, w) :: g)) [] pos s.
Proof.
  pose proof (star_scan greedy n p k g s pos [] s eq_refl) as E.
  simpl in E. rewrite Nat.add_0_r in E. exact E.
Qed.

(** Optional spaces: when the continuation succeeds after all of them,
    that is the result. *)
Lemma spaces_then k pos s g x :
  (∀ pos', k pos' (Str.lstrip s) g = Some x) →
  Re.run Re.spaces k pos s g = Some x.
Proof.
  unfold Re.spaces, Re.space. revert pos.
  induction s as [|c s IH]; intros pos Hk.
  - rewrite run_star_nil. apply Hk.
  - rewrite run_star_chr_greedy. simpl in Hk. destruct (Str.isspace c).
    + by rewrite IH.
    + apply Hk.
Qed.

(** Optional spaces: when the continuation fails wherever it is tried,
    so does the whole. *)
Lemma spaces_never k pos s g :
  (∀ pos' s', s' `suffix_of` s → k pos' s' g = None) →
  Re.run Re.spaces k pos s g = None.
Proof.
  unfold Re.spaces, Re.space. revert pos.
  induction s as [|c s IH]; intros pos Hk.
  - rewrite run_star_nil. by apply Hk.
  - rewrite run_star_chr_greedy. destruct (Str.isspace c).
    + rewrite IH; [by apply Hk|]. intros pos' s' Hs. apply Hk. by apply suffix_cons_r.
    + by apply Hk.
Qed.

Lemma run_seq r1 r2 k pos s g :
  Re.run (r1 ;; r2)%re k pos s g = Re.run r1 (Re.run r2 k) pos s g.
Proof. done. Qed.

Lemma run_chr p k pos s g :
  Re.run (Re.Chr p) k pos s g =
  match s with
  | c :: s' => if p c then k (S pos) s' g else None
  | [] => None
  end.
Proof. done. Qed.

Lemma run_opt r k pos s g :
  Re.run (Re.Opt r) k pos s g =
  match Re.run r k pos s g with
  | Some x => Some x
  | None => k pos s g
  end.
Proof. done. Qed.

Lemma run_group n r k pos s g :
  Re.run (Re.Group n r) k pos s g =
  Re.run r (fun pos' s' g' => k pos' s' ((n, take (pos' - pos) s) :: g')) pos s g.
Proof. done. Qed.

Lemma run_backref n k pos s g w :
  Re.group n g = Some w →
  Re.run (Re.Backref n) k pos s g =
  if Str.starts_with s w then k (pos + length w) (drop (length w) s) g else None.
Proof. intros E. simpl. by rewrite E. Qed.

Lemma starts_with_nil (s : str) : Str.starts_with s [] = true.
Proof. by destruct s. Qed.

Lemma starts_with_one (s : str) (q : N) :
  Str.starts_with s [q] = match s with c :: _ => N.eqb c q | [] => false end.
Proof. destruct s as [|c s]; [done|]. simpl. rewrite starts_with_nil. apply andb_true_r. Qed.

Lemma comma_not_space (c : N) : Str.isspace c = true → N.eqb comma c = false.
Proof. destruct (N.eqb_spec comma c) as [<-|]; [by vm_compute | done]. Qed.

(** Optional spaces and a comma. *)
Lemma spaces_comma r k pos s g :
  match after_comma s with
  | Some rest =>
      ∃ pos', Re.run (Re.spaces ;; Re.Chr (N.eqb comma) ;; r)%re k pos s g
              = Re.run r k pos' rest g
  | None => Re.run (Re.spaces ;; Re.Chr (N.eqb comma) ;; r)%re k pos s g = None
  end.
Proof.
  rewrite !run_seq. unfold Re.spaces, Re.space. revert pos.
  induction s as [|c s IH]; intros pos.
  - by rewrite run_star_nil.
  - rewrite run_star_chr_greedy. cbn [after_comma].
    destruct (Str.isspace c) eqn:Ec.
    + specialize (IH (S pos)). destruct (after_comma s) as [rest|] eqn:E.
      * destruct IH as [pos' ->]. exists pos'.
        destruct (Re.run r k pos' rest g) eqn:Er; [done|].
        cbn [Re.run]. by rewrite comma_not_space.
      * rewrite IH. cbn [Re.run]. by rewrite comma_not_space.
    + cbn [Re.run]. destruct (N.eqb comma c); [by eexists | done].
Qed.

End ReFacts.

Section WriteArgs.

(** Optional spaces and the end of the subject. *)
Lemma spaces_end pos s g :
  Re.run (Re.spaces ;; Re.Eol)%re Re.accept pos s g =
  if forallb Str.isspace s then Some g else None.
Proof.
  rewrite run_seq. unfold Re.spaces, Re.space. revert pos.
  induction s as [|c s IH]; intros pos.
  - by rewrite run_star_nil.
  - rewrite run_star_chr_greedy, IH. cbn [forallb].
    destruct (Str.isspace c) eqn:Ec; simpl.
    + destruct (forallb Str.isspace s) eqn:Es; [done|].
      destruct s as [|c' s']; [done|]. done.
    + destruct s as [|c' s']; [|done].
      destruct (N.eqb_spec c 10) as [->|]; [by vm_compute in Ec | done].
Qed.

Lemma closing_quoted q w g pos s :
  Re.run closing Re.accept pos s ((4, w) :: (3, [q]) :: g) =
  match s with
  | c :: s' =>
      if N.eqb c q && forallb Str.isspace s'
      then Some ((4, w) :: (3, [q]) :: g) else None
  | [] => None
  end.
Proof.
  unfold closing. rewrite run_seq, (run_backref 3 _ _ _ _ [q]) by done.
  rewrite starts_with_one. destruct s as [|c s']; [done|].
  destruct (N.eqb c q); [|done]. simpl andb. cbn [length drop].
  by rewrite spaces_end.
Qed.

Lemma closing_bare w g pos s :
  Re.run closing Re.accept pos s ((4, w) :: (3, []) :: g) =
  if forallb Str.isspace s then Some ((4, w) :: (3, []) :: g) else None.
Proof.
  unfold closing. rewrite run_seq, (run_backref 3 _ _ _ _ []) by done.
  rewrite starts_with_nil. cbn [length drop]. by rewrite spaces_end.
Qed.

Lemma greedy_close_last q g s w pos :
  greedy_from (fun _ => true)
    (fun w pos s => Re.run closing Re.accept pos s ((4, w) :: (3, [q]) :: g)) w pos s
  = match close_last q s with
    | Some w' => Some ((4, w ++ w') :: (3, [q]) :: g)
    | None => None
    end.
Proof.
  revert w pos. induction s as [|c s IH]; intros w pos; cbn [greedy_from close_last].
  - by rewrite closing_quoted.
  - rewrite IH. destruct (close_last q s) as [w'|].
    + by rewrite <- app_assoc.
    + rewrite closing_quoted. destruct (N.eqb c q && forallb Str.isspace s); [|done].
      by rewrite app_nil_r.
Qed.

Lemma greedy_bare g s w pos :
  greedy_from (fun _ => true)
    (fun w pos s => Re.run closing Re.accept pos s ((4, w) :: (3, []) :: g)) w pos s
  = Some ((4, w ++ s) :: (3, []) :: g).
Proof.
  revert w pos. induction s as [|c s IH]; intros w pos; cbn [greedy_from].
  - rewrite closing_bare. by rewrite app_nil_r.
  - rewrite IH. by rewrite <- app_assoc.
Qed.

(** What is after the comma always matches, and groups 3 and 4 are the
    ones that [content_groups] computes. *)
Lemma after_sep_groups pos rest g :
  Re.run after_sep Re.accept pos rest g =
  Some ((4, (content_groups rest).2) :: (3, (content_groups rest).1) :: g).
Proof.
  unfold after_sep, Re.dot_all. rewrite run_seq. apply spaces_then. intros pos'.
  unfold content_groups. rewrite run_seq.
  destruct (Str.lstrip rest) as [|q c'] eqn:E.
  - rewrite run_group, run_opt. unfold Re.quote. rewrite run_chr.
    rewrite Nat.sub_diag. cbn [take].
    rewrite run_seq, (group_star true 4). by rewrite greedy_bare.
  - rewrite run_group, run_opt. unfold Re.quote. rewrite run_chr.
    rewrite Nat.sub_diag. cbn [take].
    destruct (Re.is_quote q) eqn:Eq.
    + replace (S pos' - pos') with 1 by lia. cbn [take].
      rewrite run_seq, (group_star true 4), greedy_close_last.
      destruct (close_last q c') as [w|]; [done|].
      rewrite run_seq, (group_star true 4), greedy_bare. done.
    + rewrite run_seq, (group_star true 4), greedy_bare. done.
Qed.

Lemma separator_quoted q w g pos s :
  Re.run separator Re.accept pos s ((2, w) :: (1, [q]) :: g) =
  match s with
  | c :: s' =>
      match (if N.eqb c q then after_comma s' else None) with
      | Some rest =>
          Some ((4, (content_groups rest).2) :: (3, (content_groups rest).1)
                :: (2, w) :: (1, [q]) :: g)
      | None => None
      end
  | [] => None
  end.
Proof.
  unfold separator. rewrite run_seq, (run_backref 1 _ _ _ _ [q]) by done.
  rewrite starts_with_one. destruct s as [|c s']; [done|].
  destruct (N.eqb c q); [|done]. cbn [length drop]. rewrite drop_0.
  pose proof (spaces_comma after_sep Re.accept (pos + 1) s'
                ((2, w) :: (1, [q]) :: g)) as Hsc.
  destruct (after_comma s') as [rest|].
  - destruct Hsc as [pos' ->]. apply after_sep_groups.
  - done.
Qed.

Lemma separator_bare w g pos s :
  Re.run separator Re.accept pos s ((2, w) :: (1, []) :: g) =
  match after_comma s with
  | Some rest =>
      Some ((4, (content_groups rest).2) :: (3, (content_groups rest).1)
            :: (2, w) :: (1, []) :: g)
  | None => None
  end.
Proof.
  unfold separator. rewrite run_seq, (run_backref 1 _ _ _ _ []) by done.
  rewrite starts_with_nil. cbn [length]. rewrite drop_0.
  pose proof (spaces_comma after_sep Re.accept (pos + 0) s
                ((2, w) :: (1, []) :: g)) as Hsc.
  destruct (after_comma s) as [rest|].
  - destruct Hsc as [pos' ->]. apply after_sep_groups.
  - done.
Qed.

Lemma lazy_close_quote q g s w pos :
  lazy_from (fun _ => true)
    (fun w pos s => Re.run separator Re.accept pos s ((2, w) :: (1, [q]) :: g)) w pos s
  = match close_quote q s with
    | Some (w', rest) =>
        Some ((4, (content_groups rest).2) :: (3, (content_groups rest).1)
              :: (2, w ++ w') :: (1, [q]) :: g)
    | None => None
    end.
Proof.
  revert w pos. induction s as [|c s IH]; intros w pos; cbn [lazy_from close_quote].
  - by rewrite separator_quoted.
  - rewrite separator_quoted.
    destruct (if N.eqb c q then after_comma s else None) as [rest|].
    + by rewrite app_nil_r.
    + rewrite IH. destruct (close_quote q s) as [[w' rest]|]; [|done].
      by rewrite <- app_assoc.
Qed.

Lemma cut_comma_cons (c : N) (s : str) :
  cut_comma (c :: s) =
  match after_comma (c :: s) with
  | Some rest => Some ([], rest)
  | None =>
      match cut_comma s with
      | Some (w, rest) => Some (c :: w, rest)
      | None => None
      end
  end.
Proof. done. Qed.

Lemma lazy_cut_comma g s w pos :
  lazy_from (fun _ => true)
    (fun w pos s => Re.run separator Re.accept pos s ((2, w) :: (1, []) :: g)) w pos s
  = match cut_comma s with
    | Some (w', rest) =>
        Some ((4, (content_groups rest).2) :: (3, (content_groups rest).1)
              :: (2, w ++ w') :: (1, []) :: g)
    | None => None
    end.
Proof.
  revert w pos. induction s as [|c s IH]; intros w pos.
  - cbn [lazy_from cut_comma after_comma]. rewrite separator_bare. done.
  - cbn [lazy_from]. rewrite separator_bare.
    rewrite cut_comma_cons.
    destruct (after_comma (c :: s)) as [rest|].
    + by rewrite app_nil_r.
    + rewrite IH. destruct (cut_comma s) as [[w' rest]|]; [|done].
      by rewrite <- app_assoc.
Qed.

(** The pattern after the leading spaces, tried at [b]. *)
Lemma after_spaces_groups pos b :
  Re.run after_spaces Re.accept pos b [] =
  match path_groups_at b with
  | Some (q1, g2, rest) => Some (matched q1 g2 rest)
  | None => None
  end.
Proof.
  unfold after_spaces, path_groups_at, matched, Re.dot_all, Re.quote.
  rewrite run_seq, run_group, run_opt, run_chr.
  rewrite Nat.sub_diag. cbn [take].
  destruct b as [|q b'].
  - rewrite run_seq, (group_star false 2), lazy_cut_comma. done.
  - destruct (Re.is_quote q).
    + replace (S pos - pos) with 1 by lia. cbn [take].
      rewrite run_seq, (group_star false 2), lazy_close_quote.
      destruct (close_quote q b') as [[w rest]|]; [done|].
      rewrite run_seq, (group_star false 2), lazy_cut_comma.
      by destruct (cut_comma (q :: b')) as [[w rest]|].
    + rewrite run_seq, (group_star false 2), lazy_cut_comma.
      by destruct (cut_comma (q :: b')) as [[w rest]|].
Qed.

Lemma after_comma_spec (s rest : str) :
  after_comma s = Some rest ↔
  ∃ w, s = w ++ comma :: rest ∧ forallb Str.isspace w = true.
Proof.
  split.
  - revert rest. induction s as [|c s IH]; intros rest; [done|]. cbn [after_comma].
    destruct (Str.isspace c) eqn:Ec.
    + intros (w & -> & Hw)%IH. exists (c :: w). simpl. by rewrite Ec.
    + destruct (N.eqb_spec comma c) as [<-|]; [|done]. intros [= ->]. by exists [].
  - intros (w & -> & Hw). induction w as [|c w IH].
    + done.
    + simpl in Hw. apply andb_true_iff in Hw as [Hc Hw].
      simpl app. cbn [after_comma]. rewrite Hc. by apply IH.
Qed.

Lemma no_comma_after (s : str) : comma ∉ s → after_comma s = None.
Proof.
  intros Hs. destruct (after_comma s) as [rest|] eqn:E; [|done].
  apply after_comma_spec in E as (w & -> & _). set_solver.
Qed.

Lemma no_comma_close (q : N) (s : str) : comma ∉ s → close_quote q s = None.
Proof.
  induction s as [|c s IH]; [done|]. intros [Hc Hs]%not_elem_of_cons. simpl.
  rewrite no_comma_after, IH by done. by destruct (N.eqb c q).
Qed.

Lemma no_comma_cut (s : str) : comma ∉ s ↔ cut_comma s = None.
Proof.
  split.
  - induction s as [|c s IH]; [done|]. intros Hcs.
    pose proof Hcs as [Hc Hs]%not_elem_of_cons. rewrite cut_comma_cons.
    rewrite (no_comma_after (c :: s)) by done. by rewrite IH.
  - induction s as [|c s IH]; [intros _; apply not_elem_of_nil|].
    rewrite cut_comma_cons.
    destruct (after_comma (c :: s)) eqn:E; [done|].
    destruct (cut_comma s) as [[w rest]|] eqn:Ec; [done|]. intros _.
    apply not_elem_of_cons. split; [|by apply IH].
    intros <-. by change (after_comma (comma :: s)) with (Some s) in E.
Qed.

Lemma no_comma_groups (b : str) : comma ∉ b → path_groups_at b = None.
Proof.
  intros Hb. unfold path_groups_at.
  rewrite (proj1 (no_comma_cut b)) by done.
  destruct b as [|q b']; [done|]. apply not_elem_of_cons in Hb as [_ Hb].
  rewrite no_comma_close by done. by destruct (Re.is_quote q).
Qed.

Lemma comma_lstrip (s : str) : comma ∈ s ↔ comma ∈ Str.lstrip s.
Proof.
  induction s as [|c s IH]; [done|]. simpl.
  destruct (Str.isspace c) eqn:Ec; [|done].
  rewrite <- IH, elem_of_cons. split; [|by right].
  intros [<-|]; [by vm_compute in Ec | done].
Qed.

Lemma groups_comma (b : str) : comma ∈ b → is_Some (path_groups_at b).
Proof.
  intros Hb. unfold path_groups_at.
  destruct (match b with
            | [] => None
            | q :: b' => if Re.is_quote q then close_quote q b' else None
            end) as [[w rest]|]; [done|].
  destruct (cut_comma b) as [[w rest]|] eqn:E; [done|].
  by apply no_comma_cut in E.
Qed.

Lemma write_args_re_unfold :
  write_args_re = (Re.Bol ;; Re.spaces ;; after_spaces)%re.
Proof. done. Qed.

(** The pattern of [execute_tool] matches as [path_groups] and
    [content_groups] say. *)
Lemma match_write_args (args : str) :
  Re.match_ write_args_re args =
  match path_groups args with
  | Some (q1, g2, rest) => Some (matched q1 g2 rest)
  | None => None
  end.
Proof.
  unfold Re.match_. rewrite write_args_re_unfold, !run_seq.
  change (Re.run Re.Bol ?k 0 ?s ?g) with (k 0 s g). cbv beta.
  unfold path_groups. destruct (path_groups_at (Str.lstrip args)) as [[[q1 g2] rest]|] eqn:E.
  - apply spaces_then. intros pos'. by rewrite after_spaces_groups, E.
  - apply spaces_never. intros pos' s' Hsuf. rewrite after_spaces_groups.
    rewrite no_comma_groups; [done|]. intros Hin.
    assert (comma ∈ args) as Hargs.
    { destruct Hsuf as [k ->]. set_solver. }
    apply comma_lstrip, groups_comma in Hargs. rewrite E in Hargs. by destruct Hargs.
Qed.

Lemma write_file_args_groups (args : str) :
  write_file_args args =
  match path_groups args with
  | Some (q1, g2, rest) => Some (Str.strip g2, Str.strip (content_groups rest).2)
  | None => None
  end.
Proof.
  unfold write_file_args. rewrite match_write_args.
  by destruct (path_groups args) as [[[q1 g2] rest]|].
Qed.

Lemma is_quote_spec (q : N) : Re.is_quote q = true ↔ q = 39%N ∨ q = 34%N.
Proof.
  unfold Re.is_quote. rewrite orb_true_iff, !N.eqb_eq. done.
Qed.

Lemma quote_not_space (q : N) : Re.is_quote q = true → Str.isspace q = false.
Proof. by intros [-> | ->]%is_quote_spec. Qed.

Lemma cut_comma_spec (s g rest : str) :
  cut_comma s = Some (g, rest) →
  ∃ w, s = g ++ w ++ comma :: rest ∧ forallb Str.isspace w = true ∧ comma ∉ g.
Proof.
  revert g. induction s as [|c s IH]; intros g; [done|]. rewrite cut_comma_cons.
  destruct (after_comma (c :: s)) as [r|] eqn:E.
  - intros [= <- <-]. apply after_comma_spec in E as (w & E & Hw).
    exists w. repeat split; [done..|apply not_elem_of_nil].
  - destruct (cut_comma s) as [[g' r]|] eqn:Ec; [|done]. intros [= <- <-].
    destruct (IH g' eq_refl) as (w & -> & Hw & Hg). exists w.
    repeat split; [done..|]. apply not_elem_of_cons. split; [|done].
    intros <-. by change (after_comma (comma :: ?x)) with (Some x) in E.
Qed.

Lemma close_quote_spec (q : N) (s g rest : str) :
  close_quote q s = Some (g, rest) →
  (∃ w, s = g ++ q :: w ++ comma :: rest ∧ forallb Str.isspace w = true)
  ∧ ∀ g' w' r', s = g' ++ q :: w' ++ comma :: r' → forallb Str.isspace w' = true →
                length g ≤ length g'.
Proof.
  revert g. induction s as [|c s IH]; intros g; [done|]. cbn [close_quote].
  destruct (if N.eqb c q then after_comma s else None) as [r|] eqn:E.
  - intros [= <- <-]. destruct (N.eqb_spec c q) as [->|]; [|done].
    apply after_comma_spec in E as (w & -> & Hw).
    split; [by exists w | intros; simpl; lia].
  - destruct (close_quote q s) as [[g0 r]|] eqn:Ec; [|done]. intros [= <- <-].
    destruct (IH g0 eq_refl) as [(w & -> & Hw) Hmin]. split; [by exists w|].
    intros g' w' r' Hs Hw'. destruct g' as [|c' g'].
    + simpl in Hs. injection Hs as -> Hs.
      rewrite N.eqb_refl in E.
      assert (after_comma (g0 ++ q :: w ++ comma :: r) = Some r') as E'.
      { apply after_comma_spec. by exists w'. }
      congruence.
    + simpl in Hs. injection Hs as _ Hs. simpl.
      specialize (Hmin g' w' r' Hs Hw'). lia.
Qed.

Lemma close_quote_complete (q : N) (g w r : str) :
  forallb Str.isspace w = true →
  is_Some (close_quote q (g ++ q :: w ++ comma :: r)).
Proof.
  intros Hw. induction g as [|c g IH]; simpl.
  - rewrite N.eqb_refl.
    assert (after_comma (w ++ comma :: r) = Some r) as ->; [|done].
    apply after_comma_spec. by exists w.
  - destruct (if N.eqb c q then _ else _); [done|].
    destruct IH as [[g' r'] ->]. done.
Qed.

Lemma close_last_spec (q : N) (s g : str) :
  close_last q s = Some g →
  ∃ w, s = g ++ q :: w ∧ forallb Str.isspace w = true.
Proof.
  revert g. induction s as [|c s IH]; intros g; [done|]. simpl.
  destruct (close_last q s) as [g'|] eqn:E.
  - intros [= <-]. destruct (IH g' eq_refl) as (w & -> & Hw). by exists w.
  - destruct (N.eqb_spec c q) as [->|]; [|done]. simpl.
    destruct (forallb Str.isspace s) eqn:Es; [|done]. intros [= <-]. by exists s.
Qed.

Lemma close_last_spaces (q : N) (w : str) :
  Str.isspace q = false → forallb Str.isspace w = true → close_last q w = None.
Proof.
  intros Hq. induction w as [|c w IH]; [done|]. simpl.
  intros [Hc Hw]%andb_true_iff. rewrite IH by done.
  destruct (N.eqb_spec c q) as [->|]; [congruence | done].
Qed.

Lemma close_last_complete (q : N) (g w : str) :
  Str.isspace q = false → forallb Str.isspace w = true →
  close_last q (g ++ q :: w) = Some g.
Proof.
  intros Hq Hw. induction g as [|c g IH]; simpl.
  - by rewrite close_last_spaces, N.eqb_refl, Hw.
  - by rewrite IH.
Qed.

(** Groups 3 and 4, said without the scan. *)
Lemma content_groups_spec (rest : str) :
  let q3 := (content_groups rest).1 in
  let g4 := (content_groups rest).2 in
  quote_or_none q3
  ∧ (∃ w4, Str.lstrip rest = q3 ++ g4 ++ q3 ++ w4
           ∧ forallb Str.isspace w4 = true ∧ (q3 = [] → w4 = []))
  ∧ ∀ q g w, Re.is_quote q = true → Str.lstrip rest = q :: g ++ q :: w →
             forallb Str.isspace w = true → q3 = [q] ∧ g4 = g.
Proof.
  unfold content_groups. destruct (Str.lstrip rest) as [|q c'] eqn:E; simpl.
  - split; [by left|]. split; [by exists []|]. done.
  - destruct (Re.is_quote q) eqn:Eq.
    + destruct (close_last q c') as [g4|] eqn:Ec; simpl.
      * apply close_last_spec in Ec as (w4 & -> & Hw4).
        split; [right; by apply is_quote_spec in Eq as [-> | ->]; [left|right]|].
        split; [by exists w4|].
        intros q' g w _ [= <- Hg] Hw. split; [done|].
        pose proof (close_last_complete q g w (quote_not_space _ Eq) Hw) as Hc.
        rewrite <- Hg in Hc.
        rewrite (close_last_complete q g4 w4 (quote_not_space _ Eq) Hw4) in Hc.
        congruence.
      * split; [by left|]. split; [exists []; simpl; by rewrite ?app_nil_r|].
        intros q' g w _ [= <- ->] Hw.
        rewrite (close_last_complete q g w (quote_not_space _ Eq) Hw) in Ec. done.
    + simpl. split; [by left|]. split; [exists []; simpl; by rewrite ?app_nil_r|].
      intros q' g w Hq' [= <- _] _. congruence.
Qed.

(** Groups 1 and 2 and the separating comma, said without the scan. *)
Lemma path_groups_spec (args q1 g2 rest : str) :
  path_groups args = Some (q1, g2, rest) →
  quote_or_none q1
  ∧ (∃ w2, Str.lstrip args = q1 ++ g2 ++ q1 ++ w2 ++ comma :: rest
           ∧ forallb Str.isspace w2 = true)
  ∧ (q1 = [] → comma ∉ g2)
  ∧ ∀ q g w r, Re.is_quote q = true →
               Str.lstrip args = q :: g ++ q :: w ++ comma :: r →
               forallb Str.isspace w = true → q1 = [q] ∧ length g2 ≤ length g.
Proof.
  unfold path_groups, path_groups_at.
  destruct (Str.lstrip args) as [|q b'] eqn:E.
  - done.
  - destruct (if Re.is_quote q then close_quote q b' else None) as [[w rest']|] eqn:Eq.
    + intros [= <- <- <-]. destruct (Re.is_quote q) eqn:Hq; [|done].
      apply close_quote_spec in Eq as [(w2 & -> & Hw2) Hmin]. cbn [take].
      split; [right; by apply is_quote_spec in Hq as [-> | ->]; [left|right]|].
      split; [exists w2; simpl; by rewrite <- ?app_assoc|]. split; [done|].
      intros q' g w' r _ [= <- Hs] Hw'. split; [done|]. by eapply Hmin.
    + destruct (cut_comma (q :: b')) as [[w rest']|] eqn:Ec; [|done].
      intros [= <- <- <-]. apply cut_comma_spec in Ec as (w2 & Ec & Hw2 & Hg).
      split; [by left|]. split; [by exists w2|]. split; [done|].
      intros q' g w' r Hq' [= <- Hs] Hw'. rewrite Hq' in Eq.
      pose proof (close_quote_complete q g w' r Hw') as [? Hc].
      rewrite <- Hs in Hc. congruence.
Qed.

Lemma lstrip_head (s : str) (c : N) (s' : str) :
  Str.lstrip s = c :: s' → Str.isspace c = false.
Proof.
  induction s as [|x s IH]; [done|]. simpl.
  destruct (Str.isspace x) eqn:Ex; [done|]. by intros [= <- _].
Qed.

Lemma lstrip_suffix (s : str) : ∃ k, s = k ++ Str.lstrip s.
Proof.
  induction s as [|x s IH]; [by exists []|]. simpl.
  destruct (Str.isspace x); [|by exists []].
  destruct IH as [k Hk]. exists (x :: k). simpl. by rewrite <- Hk.
Qed.

Lemma rstrip_prefix (s : str) : ∃ k, s = Str.rstrip s ++ k.
Proof.
  unfold Str.rstrip. destruct (lstrip_suffix (rev s)) as [k Hk].
  exists (rev k). rewrite <- rev_app_distr, <- Hk. by rewrite rev_involutive.
Qed.

(** What [strip] returns has no space at either end. *)
Lemma strip_no_outer_space (s : str) : no_outer_space (Str.strip s).
Proof.
  unfold Str.strip. split; intros c s' E.
  - destruct (rstrip_prefix (Str.lstrip s)) as [k Hk]. rewrite E in Hk.
    by eapply lstrip_head.
  - unfold Str.rstrip in E. apply (f_equal (@rev N)) in E.
    rewrite rev_involutive, rev_app_distr in E. simpl in E.
    by eapply lstrip_head.
Qed.

End WriteArgs.

Lemma find_write_file `{Env} (self : MCPFilesystemServer) :
  List.find (fun t => Str.eqb (tool_name t) (lit "write_file")) (tools self)
  = Some {| tool_name := lit "write_file";
            tool_fn := Binary (lit "MCPFilesystemServer.write_file() missing 1 required positional argument: 'content'")
                              (write_file self) |}.
Proof. done. Qed.

(** When the pattern matches, [execute_tool] writes the stripped group 4
    to the stripped group 2. *)
Lemma execute_write_file `{Env} (self : MCPFilesystemServer) (tool_args : str)
    (q1 g2 rest : str) (fs : fsys) :
  path_groups tool_args = Some (q1, g2, rest) →
  execute_tool self (lit "write_file") tool_args fs
  = write_file self (Str.strip g2) (Str.strip (content_groups rest).2) fs.
Proof.
  intros Hg. unfold execute_tool, try_except. rewrite find_write_file.
  change (Str.eqb (lit "write_file") (lit "write_file")) with true. cbv iota.
  rewrite match_write_args, Hg. unfold matched, group_of, mbind, M_bind.
  cbn [Re.group Nat.eqb mret M_ret]. unfold dispatch.
  change (Str.eqb (lit "write_file") (lit "write_file")) with true.
  cbn [length Nat.eqb andb nth]. unfold apply2, call. cbn [tool_fn].
  by destruct (write_file self _ _ fs).
Qed.

(** C5.  The raw arguments of a [write_file] call are split at one comma.
    Without a comma the call fails with the error that names the form
'path', 'content'.  With one, the file operation is called with the
    path and the content found, and the arguments, after leading spaces,
    read: an optional quote, the path, the same quote,
    optional spaces, the separating comma, and then everything else; what
    follows the comma reads: optional spaces, an optional quote, the
    content, the same quote, optional spaces.  A path without quotes has
    no comma, so the separator is the first comma; a quoted path ends at
    the first closing quote that a comma follows; the content is never
    split, it may hold commas and line ends, and a pair of matching
    quotes around it is taken off once. *)
Theorem write_file_args_first_comma `{Env} (self : MCPFilesystemServer)
    (tool_args : str) :
  (comma ∉ tool_args →
     write_file_args tool_args = None
     ∧ ∀ fs, execute_tool self (lit "write_file") tool_args fs
             = (error_payload (lit "Invalid arguments for write_file: " ++ tool_args
                               ++ lit ". Expected 'path', 'content'"), fs))
  ∧ (comma ∈ tool_args →
     ∃ q1 g2 w2 rest q3 g4 w4,
       write_file_args tool_args = Some (Str.strip g2, Str.strip g4)
       ∧ (∀ fs, execute_tool self (lit "write_file") tool_args fs
                = write_file self (Str.strip g2) (Str.strip g4) fs)
       ∧ Str.lstrip tool_args = q1 ++ g2 ++ q1 ++ w2 ++ comma :: rest
       ∧ Str.lstrip rest = q3 ++ g4 ++ q3 ++ w4
       ∧ quote_or_none q1 ∧ quote_or_none q3
       ∧ forallb Str.isspace w2 = true ∧ forallb Str.isspace w4 = true
       ∧ (q1 = [] → comma ∉ g2) ∧ (q3 = [] → w4 = [])
       ∧ (∀ q g w r, Re.is_quote q = true →
            Str.lstrip tool_args = q :: g ++ q :: w ++ comma :: r →
            forallb Str.isspace w = true → q1 = [q] ∧ length g2 ≤ length g)
       ∧ (∀ q g w, Re.is_quote q = true → Str.lstrip rest = q :: g ++ q :: w →
            forallb Str.isspace w = true → q3 = [q] ∧ g4 = g))
  ∧ write_file_args (lit "'note.txt', 'line1" ++ [10%N] ++ lit "line2'")
    = Some (lit "note.txt", lit "line1" ++ [10%N] ++ lit "line2").
Proof.
  split; [|split].
  - intros Hno.
    assert (path_groups tool_args = None) as Hg.
    { apply no_comma_groups. by rewrite <- comma_lstrip. }
    split; [by rewrite write_file_args_groups, Hg|].
    intros fs. unfold execute_tool, try_except. rewrite find_write_file.
    change (Str.eqb (lit "write_file") (lit "write_file")) with true. cbv iota.
    by rewrite match_write_args, Hg.
  - intros Hin. apply comma_lstrip, groups_comma in Hin as [[[q1 g2] rest] Hg].
    fold (path_groups tool_args) in Hg.
    destruct (path_groups_spec _ _ _ _ Hg) as (Hq1 & (w2 & E2 & Hw2) & Hfirst & Hprio).
    destruct (content_groups_spec rest) as (Hq3 & (w4 & E4 & Hw4 & Hbare) & Hprio4).
    exists q1, g2, w2, rest, (content_groups rest).1, (content_groups rest).2, w4.
    rewrite write_file_args_groups, Hg.
    split; [done|]. split; [intros fs; by apply (execute_write_file self tool_args q1)|]. done.
  - by vm_compute.
Qed.

Lemma lstrip_spaces (s : str) :
  ∃ k, s = k ++ Str.lstrip s ∧ forallb Str.isspace k = true.
Proof.
  induction s as [|x s IH]; [by exists []|]. simpl.
  destruct (Str.isspace x) eqn:Ex; [|by exists []].
  destruct IH as (k & Hk & Hsp). exists (x :: k). simpl. by rewrite <- Hk, Ex.
Qed.

(** [strip] takes white space off the two ends and nothing else. *)
Lemma strip_spaces (s : str) :
  ∃ l r, s = l ++ Str.strip s ++ r
         ∧ forallb Str.isspace l = true ∧ forallb Str.isspace r = true.
Proof.
  destruct (lstrip_spaces s) as (l & Hl & Hsl).
  destruct (lstrip_spaces (rev (Str.lstrip s))) as (k & Hk & Hsk).
  exists l, (rev k). unfold Str.strip, Str.rstrip.
  split; [|split; [done|]].
  - rewrite <- rev_app_distr, <- Hk, rev_involutive. exact Hl.
  - apply forallb_forall. intros c Hc%in_rev. revert c Hc. by apply forallb_forall.
Qed.

(** C10.  When the pattern of [execute_tool] matches the arguments of a
    [write_file] call, the file operation is called with group 2 and
    group 4 of the match, what the quotes held, each passed through
    [strip]: what is dropped from either is white space at its two ends,
    line ends among it, and neither the path nor the content that
    arrives begins or ends with a space.  So a quoted content with
    spaces or line ends at its ends is not written as it stood, while
    everything between its first and its last character that is not a
    space stays. *)
Theorem write_file_args_stripped `{Env} (self : MCPFilesystemServer)
    (tool_args : str) (g : Re.groups) :
  Re.match_ write_args_re tool_args = Some g →
  ∃ g2 g4 l2 r2 l4 r4,
    Re.group 2 g = Some g2 ∧ Re.group 4 g = Some g4
    ∧ (∀ fs, execute_tool self (lit "write_file") tool_args fs
             = write_file self (Str.strip g2) (Str.strip g4) fs)
    ∧ g2 = l2 ++ Str.strip g2 ++ r2 ∧ g4 = l4 ++ Str.strip g4 ++ r4
    ∧ forallb Str.isspace (l2 ++ r2 ++ l4 ++ r4) = true
    ∧ no_outer_space (Str.strip g2) ∧ no_outer_space (Str.strip g4).
Proof.
  rewrite match_write_args.
  destruct (path_groups tool_args) as [[[q1 g2] rest]|] eqn:Hg; [|done].
  intros [= <-].
  destruct (strip_spaces g2) as (l2 & r2 & E2 & Hl2 & Hr2).
  destruct (strip_spaces (content_groups rest).2) as (l4 & r4 & E4 & Hl4 & Hr4).
  exists g2, (content_groups rest).2, l2, r2, l4, r4.
  split; [done|]. split; [done|].
  split; [intros fs; by apply (execute_write_file self tool_args q1)|].
  split; [done|]. split; [done|].
  split; [by rewrite !forallb_app, Hl2, Hr2, Hl4, Hr4|].
  split; apply strip_no_outer_space.
Qed.

Lemma write_file_args_stripped_witness :
  let tool_args := lit "'a.txt', '  x  y" ++ [10%N] ++ lit " '" in
  ∃ fs', execute_tool (H:=posix_env) box (lit "write_file") tool_args empty_box
         = (written_result [lit "box"; lit "a.txt"] (lit "x  y"), fs')
         ∧ fs' !! [lit "box"; lit "a.txt"] = Some (NFile [120; 32; 32; 121]%N file_meta).
Proof.
  intros tool_args.
  destruct (write_file_args_stripped (H:=posix_env) box tool_args
              [(4, lit "  x  y" ++ [10%N] ++ lit " "); (3, lit "'");
               (2, lit "a.txt"); (1, lit "'")] eq_refl)
    as (g2 & g4 & l2 & r2 & l4 & r4 & Hg2 & Hg4 & Hexec & _).
  injection Hg2 as <-. injection Hg4 as <-.
  exists (write_file (H:=posix_env) box (lit "a.txt") (lit "x  y") empty_box).2.
  rewrite Hexec. split; reflexivity.
Defined.


(** ** The tool call of the model's reply *)

Lemma execute_list_directory `{Env} (self : MCPFilesystemServer) (fs : fsys) :
  execute_tool self (lit "list_directory") (lit ".") fs
  = list_directory self (lit ".") fs.
Proof.
  unfold execute_tool, try_except.
  change (List.find _ (tools self)) with
    (Some {| tool_name := lit "list_directory";
             tool_fn := Unary (list_directory self) |}).
  change (Str.eqb (lit "list_directory") (lit "write_file")) with false. cbv iota.
  change (parse_tool_arguments (lit ".")) with [lit "."].
  unfold dispatch.
  change (Str.eqb (lit "list_directory") (lit "write_file")) with false.
  change (Str.eqb (lit "list_directory") (lit "move_file")) with false.
  cbn [andb length Nat.leb nth]. unfold apply1, call. cbn [tool_fn].
  by destruct (list_directory self (lit ".") fs).
Qed.

(** C9, as amended.  When the name of the extracted tool call is not one
    of the seven: if the name in lower case contains [list], the call is
    executed as [list_directory], on [.] when no arguments were given;
    otherwise the request ends with the message that names the tool and
    lists the seven names, and nothing is executed.  [list_directory] on
    [.] through [execute_tool] is [list_directory(".")]. *)
Theorem unknown_tool_fallback `{Env} (ext : External) (self : MCPFilesystemServer)
    (user_input : str) (h : history) (fs : fsys) (name_ tool_args : str) :
  tool_call_of (generate_response ext (h ++ [(lit "user", user_input)]))
  = Some (name_, tool_args) →
  existsb (Str.eqb name_) (valid_tools self) = false →
  ask_model ext self user_input h fs =
  (if Str.contains (py_lower name_) (lit "list") then
     let args := match tool_args with [] => lit "." | _ => tool_args end in
     let (tool_result, fs') := execute_tool self (lit "list_directory") args fs in
     let final_response :=
       generate_final_response ext (lit "list_directory") tool_result user_input in
     (final_response,
      (h ++ [(lit "user", user_input)]) ++ [(lit "assistant", final_response)], fs')
   else
     (cross ++ lit " Unknown tool: " ++ name_ ++ lit ". Available tools: "
      ++ available_tools,
      h ++ [(lit "user", user_input)], fs))
  ∧ execute_tool self (lit "list_directory") (lit ".") fs
    = list_directory self (lit ".") fs.
Proof.
  intros Hcall Hinvalid. split; [|apply execute_list_directory].
  unfold ask_model. rewrite Hcall. unfold validate. rewrite Hinvalid. cbn [negb].
  by destruct (Str.contains (py_lower name_) (lit "list")).
Qed.

Lemma unknown_tool_fallback_witness :
  let ext := scripted (lit "TOOL_CALL:list_drectory()") in
  tool_call_of (H:=posix_env) (lit "TOOL_CALL:list_drectory()")
  = Some (lit "list_drectory", [])
  ∧ ask_model (H:=posix_env) ext box (lit "show my files") [] empty_box
    = (lit "list_directory",
       [(lit "user", lit "show my files"); (lit "assistant", lit "list_directory")],
       (list_directory (H:=posix_env) box (lit ".") empty_box).2).
Proof.
  intros ext. split; [by vm_compute|].
  destruct (unknown_tool_fallback (H:=posix_env) ext box (lit "show my files") []
              empty_box (lit "list_drectory") [] eq_refl eq_refl) as [E1 E2].
  rewrite E1. cbv iota beta zeta.
  change (Str.contains _ _) with true. cbv iota. rewrite E2.
  by destruct (list_directory box (lit ".") empty_box).
Defined.

(** C9, as the claim has it: a name that does not contain [list] is not
    always refused.  [LIST_FILES] is not a valid name and does not contain
    [list], yet the call is executed as [list_directory] on [.]: the test
    of the source is made on the name in lower case. *)
Lemma uppercase_list_is_coerced :
  Str.contains (lit "LIST_FILES") (lit "list") = false
  ∧ existsb (Str.eqb (lit "LIST_FILES")) (valid_tools (H:=posix_env) box) = false
  ∧ tool_call_of (H:=posix_env) (lit "TOOL_CALL:LIST_FILES()") = Some (lit "LIST_FILES", [])
  ∧ validate (H:=posix_env) box (lit "LIST_FILES") [] = inr (lit "list_directory", lit ".")
  ∧ (ask_model (H:=posix_env) (scripted (lit "TOOL_CALL:LIST_FILES()")) box
       (lit "show my files") [] empty_box).1.1 = lit "list_directory".
Proof. by vm_compute. Qed.

(** ** Listings and the bulk macros *)

Section Listing.
Context `{Env}.
Variable self : MCPFilesystemServer.
Local Abbreviation root := (allowed_directory self).

Lemma plain_not_abs (c : str) : plain c → os_path_isabs c = false.
Proof.
  intros (Hne & _ & _ & Hs & _). destruct c as [|x c]; [done|]. simpl.
  apply N.eqb_neq. intros ->. apply Hs. left.
Qed.

Lemma parse_parts_plain (c : str) : plain c → parse_parts c = [c].
Proof.
  intros (Hne & Hcur & _ & Hs & _). unfold parse_parts.
  rewrite split_no_sep by done. by rewrite filter_cons_True.
Qed.

Lemma get_safe_path_at (p : str) (below : path) :
  Forall plain (root ++ below) →
  os_path_isabs p = false → parse_parts p = below →
  _get_safe_path self p = inr (root ++ below).
Proof.
  intros Hpl Hrel Hparts.
  assert (Forall plain root) as Hroot by by apply Forall_app in Hpl as [? _].
  rewrite get_safe_path_decides; [|done|].
  - assert (resolved_location root p = root ++ below) as ->.
    { unfold resolved_location. rewrite Hrel, Hparts. by rewrite resolve_from_plain. }
    by rewrite (proj2 (is_relative_to_prefix _ _)) by by apply prefix_app_r.
  - unfold resolves, guard_parts. rewrite Hrel, Hparts. by apply plain_accepted.
Qed.

Lemma get_safe_path_dot : Forall plain root → _get_safe_path self (lit ".") = inr root.
Proof.
  intros Hr. pose proof (get_safe_path_at (lit ".") []) as E.
  rewrite app_nil_r in E. by apply E.
Qed.

Lemma get_safe_path_child (c : str) :
  Forall plain root → plain c → _get_safe_path self c = inr (root ++ [c]).
Proof.
  intros Hr Hc. apply get_safe_path_at.
  - apply Forall_app. split; [done | by constructor].
  - by apply plain_not_abs.
  - by apply parse_parts_plain.
Qed.

Lemma iterdir_spec (fs : fsys) (p q : path) :
  q ∈ OS.iterdir fs p ↔ q ≠ [] ∧ parent q = p ∧ is_Some (fs !! q).
Proof.
  unfold OS.iterdir. rewrite list_elem_of_filter, list_elem_of_fmap. split.
  - intros [[Hne Hp] ([q' n] & -> & Hq%elem_of_map_to_list)]. eauto.
  - intros (Hne & Hp & [n Hn]). split; [done|]. exists (q, n).
    split; [done | by apply elem_of_map_to_list].
Qed.

Lemma NoDup_iterdir (fs : fsys) (p : path) : NoDup (OS.iterdir fs p).
Proof. apply NoDup_filter, NoDup_fst_map_to_list. Qed.

Lemma item_info_run (fs : fsys) (q : path) :
  is_Some (fs !! q) → item_info q fs = (inr (item_of fs q), fs).
Proof.
  intros [n Hn]. unfold item_info, item_of, mbind, M_bind, get_fs, OS.stat.
  by rewrite Hn.
Qed.

Lemma mapM_item_info (fs : fsys) (l : list path) :
  (∀ q, q ∈ l → is_Some (fs !! q)) →
  mapM item_info l fs = (inr (map (item_of fs) l), fs).
Proof.
  induction l as [|q l IH]; intros Hl; [done|]. cbn [mapM map].
  unfold mbind, M_bind. rewrite item_info_run by (apply Hl; left).
  fold (@mbind M _). unfold mbind, M_bind.
  rewrite IH by (intros; apply Hl; by right). done.
Qed.

Lemma tree_root_plain (fs : fsys) :
  tree fs = true → OS.is_dir fs root = true → Forall plain root.
Proof.
  intros [_ Ht]%tree_spec [m Hm]%is_dir_exists. by destruct (Ht _ _ Hm).
Qed.

Lemma list_directory_dot (fs : fsys) :
  tree fs = true → OS.is_dir fs root = true →
  list_directory self (lit ".") fs = (root_listing self fs, fs).
Proof.
  intros Ht Hd. pose proof (tree_root_plain fs Ht Hd) as Hr.
  unfold list_directory, try_except, mbind, M_bind, lift, get_fs.
  rewrite get_safe_path_dot by done.
  assert (OS.exists_ fs root = true) as ->.
  { unfold OS.exists_. by destruct (is_dir_exists _ _ Hd) as [m ->]. }
  rewrite Hd. cbn [negb].
  rewrite mapM_item_info by (by intros q (_ & _ & ?)%iterdir_spec). done.
Qed.

Lemma name_of_item (fs fs0 : fsys) (q : path) :
  is_Some (fs !! q) → name_of (item_of fs q) fs0 = (inr (name q), fs0).
Proof. intros [n Hn]. unfold item_of. by rewrite Hn. Qed.

Lemma is_file_item_of (fs fs0 : fsys) (q : path) :
  is_Some (fs !! q) →
  is_file_item (item_of fs q) fs0 = (inr (negb (OS.is_dir fs q)), fs0).
Proof.
  intros [n Hn]. unfold item_of. rewrite Hn. by destruct (OS.is_dir fs q).
Qed.

Lemma files_of_items (fs fs0 : fsys) (l : list path) :
  (∀ q, q ∈ l → is_Some (fs !! q)) →
  files_of (map (item_of fs) l) fs0
  = (inr (map name (List.filter (fun q => negb (OS.is_dir fs q)) l)), fs0).
Proof.
  induction l as [|q l IH]; intros Hl; [done|]. cbn [map files_of List.filter].
  unfold mbind, M_bind. rewrite is_file_item_of by (apply Hl; left).
  specialize (IH ltac:(intros; apply Hl; by right)).
  destruct (OS.is_dir fs q); cbn [negb].
  - exact IH.
  - rewrite name_of_item by (apply Hl; left). by rewrite IH.
Qed.

Lemma image_files_of_items (fs fs0 : fsys) (l : list path) :
  (∀ q, q ∈ l → is_Some (fs !! q)) →
  image_files_of (map (item_of fs) l) fs0
  = (inr (List.filter is_image_name
            (map name (List.filter (fun q => negb (OS.is_dir fs q)) l))), fs0).
Proof.
  induction l as [|q l IH]; intros Hl; [done|]. cbn [map image_files_of List.filter].
  unfold mbind, M_bind. rewrite is_file_item_of by (apply Hl; left).
  specialize (IH ltac:(intros; apply Hl; by right)).
  destruct (OS.is_dir fs q); cbn [negb].
  - exact IH.
  - rewrite name_of_item by (apply Hl; left). rewrite IH. cbn [map List.filter].
    by destruct (is_image_name (name q)).
Qed.

(** *** The loops *)

Lemma delete_each_stops (total : nat) (pre : list str) (f : str) (post : list str)
    (fs fs1 fs2 : fsys) (r : payload) :
  run_ok (delete_file self) pre fs = Some fs1 →
  delete_file self f fs1 = (r, fs2) → failed r = true →
  delete_each self total (pre ++ f :: post) fs = (inr (delete_error (f, r)), fs2).
Proof.
  revert fs. induction pre as [|x pre IH]; intros fs; cbn [run_ok app delete_each].
  - intros [= ->] Hf Hr. unfold mbind, M_bind, call. rewrite Hf.
    unfold failed in Hr. by rewrite Hr.
  - unfold mbind, M_bind, call. destruct (delete_file self x fs) as [rx fsx].
    unfold failed. destruct (Dict.mem (lit "error") rx); [done|].
    intros Hok Hf Hr. by apply IH.
Qed.

Lemma move_each_stops (folder_name : str) (total : nat) (pre : list str) (f : str)
    (post : list str) (fs fs1 fs2 : fsys) (r : payload) :
  run_ok (move_step self folder_name) pre fs = Some fs1 →
  move_step self folder_name f fs1 = (r, fs2) → failed r = true →
  move_each self folder_name total (pre ++ f :: post) fs
  = (inr (cross ++ lit " Error moving " ++ f ++ lit ": " ++ error_of r), fs2).
Proof.
  revert fs. induction pre as [|x pre IH]; intros fs; cbn [run_ok app move_each].
  - intros [= ->] Hf Hr. unfold mbind, M_bind, call. unfold move_step in Hf.
    rewrite Hf. unfold failed in Hr. by rewrite Hr.
  - unfold mbind, M_bind, call. unfold move_step at 1.
    destruct (move_file self _ _ fs) as [rx fsx].
    unfold failed. destruct (Dict.mem (lit "error") rx); [done|].
    intros Hok Hf Hr. by apply IH.
Qed.

Lemma delete_all_loop_all (files : list str) (n : nat) (errs : list str) (fs : fsys) :
  delete_all_loop self files n errs fs =
  let (outs, fs') := run_all (delete_file self) files fs in
  (inr (n + length (List.filter (fun out => negb (failed out.2)) outs),
        errs ++ map delete_error (List.filter (fun out => failed out.2) outs)), fs').
Proof.
  revert n errs fs. induction files as [|f files IH]; intros n errs fs;
    cbn [delete_all_loop run_all].
  - cbn [List.filter map length]. by rewrite Nat.add_0_r, app_nil_r.
  - unfold mbind, M_bind, call. destruct (delete_file self f fs) as [r fs1] eqn:Ef.
    destruct (Dict.mem (lit "error") r) eqn:Er; rewrite IH;
      destruct (run_all (delete_file self) files fs1) as [outs fs2];
      cbn [List.filter snd]; replace (failed r) with (Dict.mem (lit "error") r) by done;
      rewrite Er; cbn [negb map length].
    + by rewrite <- app_assoc.
    + by rewrite Nat.add_succ_r.
Qed.

(** *** The macros on the listing of the root *)

Lemma root_listing_ok (fs : fsys) : Dict.mem (lit "error") (root_listing self fs) = false.
Proof. done. Qed.

Lemma root_listing_items (fs fs0 : fsys) :
  items_of (root_listing self fs) fs0 = (inr (map (item_of fs) (OS.iterdir fs root)), fs0).
Proof. done. Qed.

Lemma iterdir_exist (fs : fsys) (q : path) : q ∈ OS.iterdir fs root → is_Some (fs !! q).
Proof. by intros (_ & _ & ?)%iterdir_spec. Qed.

Lemma delete_images_unfold (fs : fsys) :
  tree fs = true → OS.is_dir fs root = true →
  delete_images self fs =
  match image_names self fs with
  | [] => (cross ++ lit " No image files found to delete.", fs)
  | _ :: _ =>
      try_except (delete_each self (length (image_names self fs)) (image_names self fs))
        (fun e => cross ++ lit " An error occurred while deleting images: " ++ exn_str e) fs
  end.
Proof.
  intros Ht Hd. unfold delete_images, try_except, mbind, M_bind, call.
  rewrite list_directory_dot by done. rewrite root_listing_ok, root_listing_items.
  rewrite image_files_of_items by apply iterdir_exist.
  fold (listed_files self fs). fold (file_names self fs). fold (image_names self fs).
  by destruct (image_names self fs).
Qed.

Lemma move_images_unfold (folder_name : str) (fs : fsys) :
  tree fs = true → OS.is_dir fs root = true →
  move_images_to_folder self folder_name fs =
  match image_names self fs with
  | [] => (cross ++ lit " No image files found to move.", fs)
  | _ :: _ =>
      try_except (move_each self folder_name (length (image_names self fs))
                    (image_names self fs))
        (fun e => cross ++ lit " An error occurred while moving images: " ++ exn_str e) fs
  end.
Proof.
  intros Ht Hd. unfold move_images_to_folder, try_except, mbind, M_bind, call.
  rewrite list_directory_dot by done. rewrite root_listing_ok, root_listing_items.
  rewrite image_files_of_items by apply iterdir_exist.
  fold (listed_files self fs). fold (file_names self fs). fold (image_names self fs).
  by destruct (image_names self fs).
Qed.

Lemma delete_all_unfold (fs : fsys) :
  tree fs = true → OS.is_dir fs root = true →
  delete_all_files_in_current_folder self fs =
  match file_names self fs with
  | [] => (tick ++ lit " No files found in the current folder to delete.", fs)
  | _ :: _ =>
      let (outs, fs') := run_all (delete_file self) (file_names self fs) fs in
      (delete_all_report
         (length (List.filter (fun out => negb (failed out.2)) outs))
         (map delete_error (List.filter (fun out => failed out.2) outs)), fs')
  end.
Proof.
  intros Ht Hd.
  unfold delete_all_files_in_current_folder, try_except, mbind, M_bind, call.
  rewrite list_directory_dot by done. rewrite root_listing_ok, root_listing_items.
  rewrite files_of_items by apply iterdir_exist.
  fold (listed_files self fs). fold (file_names self fs).
  destruct (file_names self fs) as [|f files] eqn:E; [done|].
  rewrite delete_all_loop_all.
  by destruct (run_all (delete_file self) (f :: files) fs).
Qed.

End Listing.

Lemma run_ok_cons (step : str → fsys → payload * fsys) (f : str) (l : list str)
    (fs : fsys) :
  failed (step f fs).1 = false →
  run_ok step (f :: l) fs = run_ok step l (step f fs).2.
Proof. cbn [run_ok]. destruct (step f fs) as [r fs']. simpl. by intros ->. Qed.

(** C4.  The macros work through the files of the listing one after the
    other.  The two image macros stop at the first file whose operation
    returns an error: the reply names that file and its error alone, and
    the state is the one that this failed operation left, so nothing is
    tried on the files after it.  The delete-all macro tries every file:
    its reply has the number of results without error and, when there are
    errors, all of them in order after [Some errors occurred]. *)
Theorem bulk_macros_error_policy `{Env} (self : MCPFilesystemServer)
    (folder_name : str) (fs : fsys) :
  tree fs = true → OS.is_dir fs (allowed_directory self) = true →
  (∀ pre f post fs1 r fs2,
     image_names self fs = pre ++ f :: post →
     run_ok (move_step self folder_name) pre fs = Some fs1 →
     move_step self folder_name f fs1 = (r, fs2) → failed r = true →
     move_images_to_folder self folder_name fs
     = (cross ++ lit " Error moving " ++ f ++ lit ": " ++ error_of r, fs2))
  ∧ (∀ pre f post fs1 r fs2,
     image_names self fs = pre ++ f :: post →
     run_ok (delete_file self) pre fs = Some fs1 →
     delete_file self f fs1 = (r, fs2) → failed r = true →
     delete_images self fs
     = (cross ++ lit " Error deleting " ++ f ++ lit ": " ++ error_of r, fs2))
  ∧ (file_names self fs ≠ [] →
     let (outs, fs') := run_all (delete_file self) (file_names self fs) fs in
     let deleted_count := length (List.filter (fun out => negb (failed out.2)) outs) in
     let errors := map delete_error (List.filter (fun out => failed out.2) outs) in
     delete_all_files_in_current_folder self fs
     = (delete_all_report deleted_count errors, fs')
     ∧ (errors ≠ [] →
        delete_all_report deleted_count errors
        = tick ++ lit " Deleted " ++ Str.of_nat deleted_count
          ++ lit " files. Some errors occurred: " ++ Str.join (lit "; ") errors)).
Proof.
  intros Ht Hd. split; [|split].
  - intros pre f post fs1 r fs2 Himg Hpre Hf Hr.
    rewrite move_images_unfold, Himg by done.
    destruct (pre ++ f :: post) as [|x l] eqn:E; [by destruct pre|]. rewrite <- E.
    unfold try_except. by rewrite (move_each_stops self _ _ _ _ _ _ _ _ _ Hpre Hf Hr).
  - intros pre f post fs1 r fs2 Himg Hpre Hf Hr.
    rewrite delete_images_unfold, Himg by done.
    destruct (pre ++ f :: post) as [|x l] eqn:E; [by destruct pre|]. rewrite <- E.
    unfold try_except. by rewrite (delete_each_stops self _ _ _ _ _ _ _ _ Hpre Hf Hr).
  - intros Hne. rewrite delete_all_unfold by done.
    destruct (file_names self fs) as [|f files] eqn:E; [done|].
    destruct (run_all (delete_file self) (f :: files) fs) as [outs fs'].
    split; [done|]. intros Herr. unfold delete_all_report.
    by destruct (map delete_error _).
Qed.


Lemma bulk_macros_error_policy_witness :
  let move := move_step (H:=posix_env) box (lit "pics") in
  let fs1 := (move (lit "a.jpg") (move (lit "b.jpg") gallery).2).2 in
  let moved := move (lit "c.png") fs1 in
  let deleted := delete_file (H:=posix_env) box (lit "b.jpg") gallery in
  (image_names (H:=posix_env) box gallery = [lit "b.jpg"; lit "a.jpg"; lit "c.png"]
   ∧ file_names box gallery = [lit "notes.txt"; lit "b.jpg"; lit "a.jpg"; lit "c.png"])
  ∧ (move_images_to_folder (H:=posix_env) box (lit "pics") gallery
     = (cross ++ lit " Error moving " ++ lit "c.png" ++ lit ": " ++ error_of moved.1,
        moved.2)
     ∧ error_of moved.1 = lit "Destination path '/box/pics/c.png/c.png' already exists")
  ∧ (delete_images (H:=posix_env) box gallery
     = (cross ++ lit " Error deleting " ++ lit "b.jpg" ++ lit ": " ++ error_of deleted.1,
        deleted.2)
     ∧ error_of deleted.1 = lit "Unknown path type: b.jpg"
     ∧ deleted.2 !! [lit "box"; lit "a.jpg"] = Some (NFile [65]%N file_meta))
  ∧ (delete_all_files_in_current_folder (H:=posix_env) box gallery).1
    = tick ++ lit " Deleted 3 files. Some errors occurred: "
      ++ cross ++ lit " Error deleting b.jpg: Unknown path type: b.jpg".
Proof.
  intros move fs1 moved deleted.
  destruct (bulk_macros_error_policy (H:=posix_env) box (lit "pics") gallery
              eq_refl eq_refl) as (Hmove & Hdelete & Hall).
  split; [split; vm_compute; reflexivity|]. split; [split|split; [split; [|split]|]].
  - apply (Hmove [lit "b.jpg"; lit "a.jpg"] (lit "c.png") [] fs1 moved.1 moved.2).
    + vm_compute; reflexivity.
    + rewrite run_ok_cons by (vm_compute; reflexivity).
      rewrite run_ok_cons by (vm_compute; reflexivity). reflexivity.
    + apply surjective_pairing.
    + vm_compute; reflexivity.
  - vm_compute; reflexivity.
  - apply (Hdelete [] (lit "b.jpg") [lit "a.jpg"; lit "c.png"] gallery deleted.1 deleted.2).
    + vm_compute; reflexivity.
    + reflexivity.
    + apply surjective_pairing.
    + vm_compute; reflexivity.
  - vm_compute; reflexivity.
  - vm_compute; reflexivity.
  - vm_compute; reflexivity.
Defined.

(** ** What the delete-all macro removes *)

Section DeleteAll.
Context `{Env}.
Variable self : MCPFilesystemServer.
Local Abbreviation root := (allowed_directory self).

Lemma delete_file_regular (c : str) (fs : fsys) (data : list N) (m : meta) :
  Forall plain root → plain c →
  fs !! (root ++ [c]) = Some (NFile data m) →
  delete_file self c fs
  = (deleted (root ++ [c]) (lit "File deleted successfully"), delete (root ++ [c]) fs).
Proof.
  intros Hr Hc Hf. unfold delete_file, try_except, mbind, M_bind, lift, get_fs.
  rewrite get_safe_path_child by done.
  unfold OS.exists_, OS.is_file, OS.unlink. rewrite Hf. cbn [negb]. by rewrite Hf.
Qed.

Lemma delete_file_socket (c : str) (fs : fsys) (m : meta) :
  Forall plain root → plain c →
  fs !! (root ++ [c]) = Some (NSock m) →
  delete_file self c fs = (error_payload (lit "Unknown path type: " ++ c), fs).
Proof.
  intros Hr Hc Hf. unfold delete_file, try_except, mbind, M_bind, lift, get_fs.
  rewrite get_safe_path_child by done.
  unfold OS.exists_, OS.is_file, OS.is_dir. by rewrite Hf.
Qed.

Lemma without_files_lookup (fs : fsys) (l : list path) (fs_k : fsys) (p : path) :
  without_files fs l fs_k !! p =
  if bool_decide (p ∈ l) && OS.is_file fs p then None else fs_k !! p.
Proof.
  unfold without_files. revert fs_k. induction l as [|q l IH]; intros fs_k; [done|].
  cbn [foldl]. rewrite IH. destruct (decide (p = q)) as [->|Hne].
  - rewrite (bool_decide_eq_true_2 (q ∈ q :: l)) by left.
    destruct (OS.is_file fs q) eqn:Eq.
    + rewrite lookup_delete_eq. by destruct (bool_decide (q ∈ l)).
    + by rewrite !andb_false_r.
  - assert (bool_decide (p ∈ q :: l) = bool_decide (p ∈ l)) as ->.
    { apply bool_decide_ext. set_solver. }
    destruct (bool_decide (p ∈ l) && OS.is_file fs p); [done|].
    destruct (OS.is_file fs q); [by rewrite lookup_delete_ne|done].
Qed.

Lemma run_all_delete (fs : fsys) (l : list path) (fs_k : fsys) :
  Forall plain root → NoDup l →
  (∀ q, q ∈ l → q ≠ [] ∧ parent q = root ∧ plain (name q)
                ∧ OS.is_dir fs q = false ∧ is_Some (fs !! q)
                ∧ fs_k !! q = fs !! q) →
  (run_all (delete_file self) (map name l) fs_k).2 = without_files fs l fs_k
  ∧ Forall2 (fun q out => failed out.2 = negb (OS.is_file fs q)) l
      (run_all (delete_file self) (map name l) fs_k).1.
Proof.
  intros Hr. revert fs_k. induction l as [|q l IH]; intros fs_k Hnd Hl.
  - split; [done | constructor].
  - apply NoDup_cons in Hnd as [Hq Hnd].
    destruct (Hl q ltac:(left)) as (Hne & Hpar & Hpl & Hdir & [n Hn] & Hk).
    assert (q = root ++ [name q]) as Eq.
    { rewrite <- Hpar. by apply path_snoc. }
    cbn [map run_all]. unfold without_files. cbn [foldl]. fold (without_files fs l).
    destruct n as [data m|m|m].
    + (* a regular file *)
      assert (OS.is_file fs q = true) as Hfile by (unfold OS.is_file; by rewrite Hn).
      rewrite Hfile.
      rewrite (delete_file_regular (name q) fs_k data m) by (done || by rewrite <- Eq, Hk).
      rewrite <- Eq.
      destruct (IH (delete q fs_k) Hnd) as [IH1 IH2].
      { intros q' Hq'.
        destruct (Hl q' ltac:(by right)) as (H1 & H2 & H3 & H4 & H5 & Hk').
        assert (delete q fs_k !! q' = fs !! q') as Hk''.
        { rewrite lookup_delete_ne; [done|]. by intros ->. }
        exact (conj H1 (conj H2 (conj H3 (conj H4 (conj H5 Hk''))))). }
      destruct (run_all (delete_file self) (map name l) (delete q fs_k)) as [outs fs'].
      split; [exact IH1|]. constructor; [by rewrite Hfile | exact IH2].
    + unfold OS.is_dir in Hdir. by rewrite Hn in Hdir.
    + (* a socket *)
      assert (OS.is_file fs q = false) as Hfile by (unfold OS.is_file; by rewrite Hn).
      rewrite Hfile.
      rewrite (delete_file_socket (name q) fs_k m) by (done || by rewrite <- Eq, Hk).
      destruct (IH fs_k Hnd) as [IH1 IH2].
      { intros q' Hq'. by apply Hl; right. }
      destruct (run_all (delete_file self) (map name l) fs_k) as [outs fs'].
      split; [exact IH1|]. constructor; [by rewrite Hfile | exact IH2].
Qed.

Lemma last_plain (q : path) : Forall plain q → q ≠ [] → plain (name q).
Proof.
  intros Hq Hne. pose proof (path_snoc q Hne) as E.
  rewrite E in Hq. apply Forall_app in Hq as [_ Hq]. by inversion Hq.
Qed.

Lemma listed_files_spec (fs : fsys) (q : path) :
  q ∈ listed_files self fs ↔
  q ≠ [] ∧ parent q = root ∧ is_Some (fs !! q) ∧ OS.is_dir fs q = false.
Proof.
  unfold listed_files. rewrite list_elem_of_In, filter_In, <- list_elem_of_In.
  rewrite iterdir_spec, negb_true_iff. tauto.
Qed.

Lemma NoDup_listed_files (fs : fsys) : NoDup (listed_files self fs).
Proof. apply NoDup_ListNoDup, List.NoDup_filter, NoDup_ListNoDup, NoDup_iterdir. Qed.

Lemma root_file_listed (fs : fsys) (p : path) :
  bool_decide (p ∈ listed_files self fs) && OS.is_file fs p = root_file self fs p.
Proof.
  unfold root_file. destruct (OS.is_file fs p) eqn:Ef; [|by rewrite !andb_false_r].
  rewrite !andb_true_r. apply bool_decide_ext. rewrite listed_files_spec.
  unfold OS.is_file, OS.is_dir in *. destruct (fs !! p) as [[]|]; try done.
  split; [tauto|]. intros [? ?]. eauto.
Qed.

Lemma all_ok_outs (fs : fsys) (l : list path) (outs : list (str * payload)) :
  Forall2 (fun q out => failed out.2 = negb (OS.is_file fs q)) l outs →
  forallb (OS.is_file fs) l = true →
  List.filter (fun out => failed out.2) outs = []
  ∧ length (List.filter (fun out => negb (failed out.2)) outs) = length l.
Proof.
  induction 1 as [|q out l outs Hq Hl IH]; [done|]. cbn [forallb List.filter length].
  intros [Hf Hrest]%andb_true_iff. rewrite Hq, Hf. cbn [negb length].
  destruct (IH Hrest) as [-> ->]. done.
Qed.

End DeleteAll.

(** X29.  Without links the delete-all macro keeps to the files of the
    root.  In a file system that is a tree, where no name is a symbolic
    link or a second name of a file, with the root of the sandbox a
    directory, the macro removes the regular files directly below the
    root and nothing else: every other entry, so every directory and all
    that is below one, is as before.  When the entries below the root
    that are not directories are all regular files, and there are some,
    the reply gives their number as the number deleted. *)
Theorem delete_all_files_only `{Env} (self : MCPFilesystemServer) (fs : fsys) :
  tree fs = true → OS.is_dir fs (allowed_directory self) = true →
  (∀ p, (delete_all_files_in_current_folder self fs).2 !! p
        = if root_file self fs p then None else fs !! p)
  ∧ (∀ n, forallb (OS.is_file fs) (listed_files self fs) = true →
          length (listed_files self fs) = S n →
          (delete_all_files_in_current_folder self fs).1
          = tick ++ lit " Successfully deleted " ++ Str.of_nat (S n)
            ++ lit " files in the current folder.").
Proof.
  intros Ht Hd. rewrite delete_all_unfold by done. unfold file_names.
  pose proof (tree_root_plain self fs Ht Hd) as Hr.
  destruct (tree_spec fs Ht) as [_ Htree].
  destruct (run_all_delete self fs (listed_files self fs) fs Hr
              (NoDup_listed_files self fs)) as [Hstate Houts].
  { intros q Hq. pose proof Hq as (Hne & Hpar & [n Hn] & Hdir)%listed_files_spec.
    destruct (Htree q n Hn) as [_ Hpl].
    pose proof (last_plain q Hpl Hne) as Hlast.
    assert (is_Some (fs !! q)) as Hsome by by exists n.
    exact (conj Hne (conj Hpar (conj Hlast (conj Hdir (conj Hsome eq_refl))))). }
  destruct (listed_files self fs) as [|q l] eqn:El.
  - split; [|done]. intros p. cbn [map snd].
    rewrite <- root_file_listed, El. by rewrite bool_decide_eq_false_2 by set_solver.
  - cbn [map]. cbn [map] in Hstate, Houts.
    destruct (run_all (delete_file self) (name q :: map name l) fs) as [outs fs'].
    cbn [fst snd] in *. subst fs'. split.
    + intros p. by rewrite without_files_lookup, <- (root_file_listed self fs p), El.
    + intros n Hall Hlen. destruct (all_ok_outs fs _ _ Houts Hall) as [-> ->].
      rewrite Hlen. done.
Qed.

Lemma delete_all_files_only_witness :
  (∀ p, (delete_all_files_in_current_folder (H:=posix_env) box three_files).2 !! p
        = if root_file box three_files p then None else three_files !! p)
  ∧ (delete_all_files_in_current_folder (H:=posix_env) box three_files).1
    = tick ++ lit " Successfully deleted 3 files in the current folder."
  ∧ (delete_all_files_in_current_folder (H:=posix_env) box three_files).2
    !! [lit "box"; lit "a.txt"] = None
  ∧ (delete_all_files_in_current_folder (H:=posix_env) box three_files).2
    !! [lit "box"; lit "sub"; lit "d.txt"] = Some (NFile [100]%N file_meta).
Proof.
  destruct (delete_all_files_only (H:=posix_env) box three_files eq_refl eq_refl)
    as [Hstate Hreply].
  split; [exact Hstate|]. split; [|split].
  - apply (Hreply 2); vm_compute; reflexivity.
  - rewrite Hstate. vm_compute; reflexivity.
  - rewrite Hstate. vm_compute; reflexivity.
Defined.


(** * Further properties of the file operations *)

(** ** The queries do not write *)

Section ReadOnly.
Context `{Env}.

Lemma keeps_ret {A} (a : A) : keeps_state (mret a).
Proof. done. Qed.

Lemma keeps_raise {A} (e : exn) : keeps_state (raise e : M A).
Proof. done. Qed.

Lemma keeps_lift {A} (r : exn + A) : keeps_state (lift r).
Proof. done. Qed.

Lemma keeps_get_fs : keeps_state get_fs.
Proof. done. Qed.

Lemma keeps_bind {A B} (m : M A) (k : A → M B) :
  keeps_state m → (∀ a, keeps_state (k a)) → keeps_state (m ≫= k).
Proof.
  intros Hm Hk fs. unfold mbind, M_bind. specialize (Hm fs).
  destruct (m fs) as [[e|a] fs1]; simpl in Hm; subst fs1; [done|]. apply Hk.
Qed.

Lemma keeps_stat (p : path) : keeps_state (OS.stat p).
Proof. intros fs. unfold OS.stat. by destruct (fs !! p). Qed.

Lemma keeps_read_bytes (p : path) : keeps_state (OS.read_bytes p).
Proof.
  intros fs. unfold OS.read_bytes. destruct (OS.blocked fs p); [done|].
  by destruct (fs !! p) as [[]|].
Qed.

Lemma keeps_read_text (p : path) : keeps_state (OS.read_text p).
Proof.
  apply keeps_bind; [apply keeps_read_bytes|]. intros data.
  destruct (Utf8.decode data); [apply keeps_ret | apply keeps_raise].
Qed.

Lemma keeps_except_decode {A} (body handler : M A) :
  keeps_state body → keeps_state handler → keeps_state (except_decode body handler).
Proof.
  intros Hb Hh fs. unfold except_decode. specialize (Hb fs).
  destruct (body fs) as [[e|a] fs1]; simpl in Hb; subst fs1; [|done].
  destruct e; first [done | apply Hh].
Qed.

Lemma keeps_item_info (q : path) : keeps_state (item_info q).
Proof.
  apply keeps_bind; [apply keeps_get_fs|]. intros fs.
  apply keeps_bind; [apply keeps_stat|]. intros st. apply keeps_ret.
Qed.

Lemma keeps_mapM {A B} (f : A → M B) (l : list A) :
  (∀ a, keeps_state (f a)) → keeps_state (mapM f l).
Proof.
  intros Hf. induction l as [|a l IH]; [apply keeps_ret|]. cbn [mapM].
  apply keeps_bind; [apply Hf|]. intros b.
  apply keeps_bind; [apply IH|]. intros bs. apply keeps_ret.
Qed.

Lemma keeps_try_except {A} (body : M A) (handler : exn → A) (fs : fsys) :
  keeps_state body → (try_except body handler fs).2 = fs.
Proof.
  intros Hb. unfold try_except. specialize (Hb fs).
  by destruct (body fs) as [[e|a] fs1].
Qed.

End ReadOnly.

Ltac keeps_step :=
  lazymatch goal with
  | |- keeps_state (mret _) => apply keeps_ret
  | |- keeps_state (raise _) => apply keeps_raise
  | |- keeps_state (lift _) => apply keeps_lift
  | |- keeps_state get_fs => apply keeps_get_fs
  | |- keeps_state (OS.stat _) => apply keeps_stat
  | |- keeps_state (OS.read_bytes _) => apply keeps_read_bytes
  | |- keeps_state (OS.read_text _) => apply keeps_read_text
  | |- keeps_state (mapM item_info _) => apply keeps_mapM, keeps_item_info
  | |- keeps_state (except_decode _ _) => apply keeps_except_decode
  | |- keeps_state (_ ≫= _) => apply keeps_bind; [|intros ?]
  | |- keeps_state (if ?b then _ else _) => destruct b
  | |- keeps_state (let _ := _ in _) => cbv zeta
  end.

Lemma list_directory_keeps `{Env} (self : MCPFilesystemServer) (path_ : str) (fs : fsys) :
  (list_directory self path_ fs).2 = fs.
Proof. apply keeps_try_except; repeat keeps_step. Qed.

Lemma read_file_keeps `{Env} (self : MCPFilesystemServer) (path_ : str) (fs : fsys) :
  (read_file self path_ fs).2 = fs.
Proof. apply keeps_try_except; repeat keeps_step. Qed.

Lemma get_file_info_keeps `{Env} (self : MCPFilesystemServer) (path_ : str) (fs : fsys) :
  (get_file_info self path_ fs).2 = fs.
Proof. apply keeps_try_except; repeat keeps_step. Qed.

(** X1.  The three queries never write: whatever the argument and
    whatever the outcome, error or success, [list_directory], [read_file]
    and [get_file_info] leave the file system exactly as it was. *)
Theorem queries_do_not_write `{Env} (self : MCPFilesystemServer) (path_ : str)
    (fs : fsys) :
  (list_directory self path_ fs).2 = fs
  ∧ (read_file self path_ fs).2 = fs
  ∧ (get_file_info self path_ fs).2 = fs.
Proof.
  split; [apply list_directory_keeps|].
  split; [apply read_file_keeps | apply get_file_info_keeps].
Qed.

(** ** Nothing outside the sandbox is touched *)

Section Confined.
Context `{Env}.
Variable self : MCPFilesystemServer.

Local Abbreviation root := (allowed_directory self).

Lemma ancestors_spec (p q : path) :
  q ∈ OS.ancestors p ↔ q `prefix_of` p ∧ q ≠ p.
Proof.
  unfold OS.ancestors. rewrite list_elem_of_fmap. split.
  - intros (i & -> & Hi%elem_of_seq). split.
    + exists (drop i p). by rewrite take_drop.
    + intros E. apply (f_equal length) in E. rewrite length_take in E. lia.
  - intros [[k ->] Hne]. exists (length q). split.
    + by rewrite take_app_length.
    + apply elem_of_seq. rewrite length_app. destruct k; [|simpl; lia].
      by rewrite app_nil_r in Hne.
Qed.

Lemma ancestor_outside (p q : path) :
  OS.under root p ∨ p `prefix_of` root →
  q `prefix_of` p → ¬ OS.under root q → q ∈ OS.ancestors root.
Proof.
  intros Hp Hq Hout. apply ancestors_spec.
  assert (q `prefix_of` root) as Hqr.
  { destruct Hp as [Hp|Hp]; [|by etrans].
    destruct (prefix_weak_total _ _ _ Hq Hp) as [Hc|Hc]; [done|]. by destruct Hout. }
  split; [done|]. intros ->. by destruct Hout.
Qed.

Lemma anchored_spec (fs : fsys) :
  anchored self fs = true ↔ ∀ a, a ∈ OS.ancestors root → OS.is_dir fs a = true.
Proof.
  unfold anchored. rewrite forallb_forall. by setoid_rewrite list_elem_of_In.
Qed.

Lemma anchored_frame (fs fs' : fsys) :
  anchored self fs = true → (∀ q, ¬ OS.under root q → fs' !! q = fs !! q) →
  anchored self fs' = true.
Proof.
  rewrite !anchored_spec.
  intros Ha Hf a Ha'. pose proof Ha' as [Hpre Hne]%ancestors_spec.
  unfold OS.is_dir. rewrite Hf. { by apply Ha. }
  intros Hu. apply Hne. by apply (anti_symm prefix).
Qed.

Lemma confined_keeps {A} (m : M A) : keeps_state m → confined self m.
Proof. intros Hk fs _ q _. by rewrite Hk. Qed.

Lemma confined_bind {A B} (m : M A) (k : A → M B) :
  confined self m → (∀ a, confined self (k a)) → confined self (m ≫= k).
Proof.
  intros Hm Hk fs Ha q Hq. unfold mbind, M_bind.
  specialize (Hm fs Ha). destruct (m fs) as [[e|a] fs1]; cbn [snd] in *; [by apply Hm|].
  rewrite (Hk a fs1); [by apply Hm | by apply (anchored_frame fs) | done].
Qed.

Lemma confined_mkdir_parents (p : path) :
  OS.under root p ∨ p `prefix_of` root → confined self (OS.mkdir_parents p).
Proof.
  intros Hp fs Ha q Hq. unfold OS.mkdir_parents.
  destruct (OS.blocked fs p); [done|]. destruct (fs !! p) as [[]|] eqn:Ep; try done.
  cbn [snd]. rewrite foldl_make_dir_lookup. destruct (fs !! q) eqn:Eq; [done|].
  destruct (decide (q ∈ OS.ancestors p ++ [p])) as [Hin|]; [|done]. exfalso.
  assert (q `prefix_of` p) as Hpre.
  { apply elem_of_app in Hin as [[? _]%ancestors_spec | ->%list_elem_of_singleton]; done. }
  pose proof (proj1 (anchored_spec fs) Ha q (ancestor_outside p q Hp Hpre Hq)) as Hd.
  unfold OS.is_dir in Hd. by rewrite Eq in Hd.
Qed.

Lemma confined_open_w (p : path) : OS.under root p → confined self (OS.open_w p).
Proof.
  intros Hp fs _ q Hq. unfold OS.open_w.
  destruct (OS.blocked fs p); [done|]. destruct (negb (OS.is_dir fs (parent p))); [done|].
  assert (p ≠ q) by (by intros ->).
  destruct (fs !! p) as [[]|]; cbn [snd]; by rewrite ?lookup_insert_ne.
Qed.

Lemma confined_set_data (p : path) (bs : list N) :
  OS.under root p → confined self (modify (OS.set_data p bs)).
Proof.
  intros Hp fs _ q Hq. unfold modify, OS.set_data. cbn [snd].
  assert (p ≠ q) by (by intros ->).
  destruct (fs !! p) as [[]|]; by rewrite ?lookup_insert_ne.
Qed.

Lemma confined_write_text (p : path) (content : str) :
  OS.under root p → confined self (OS.write_text p content).
Proof.
  intros Hp. apply confined_bind; [by apply confined_open_w|]. intros _.
  destruct (Utf8.encode content); [|by apply confined_keeps].
  apply confined_bind; [by apply confined_set_data|]. intros _. by apply confined_keeps.
Qed.

Lemma confined_unlink (p : path) : OS.under root p → confined self (OS.unlink p).
Proof.
  intros Hp fs _ q Hq. unfold OS.unlink. assert (p ≠ q) by (by intros ->).
  destruct (fs !! p) as [[]|]; cbn [snd]; by rewrite ?lookup_delete_ne.
Qed.

Lemma under_trans (a b c : path) : OS.under a b → OS.under b c → OS.under a c.
Proof. unfold OS.under. by etrans. Qed.

Lemma confined_rmtree (p : path) : OS.under root p → confined self (OS.rmtree p).
Proof.
  intros Hp fs _ q Hq. unfold OS.rmtree.
  destruct (fs !! p) as [[]|]; cbn [snd]; try done.
  destruct (fs !! q) as [n|] eqn:Eq.
  - apply map_lookup_filter_Some. split; [done|]. cbn. intros Hu. apply Hq.
    by apply (under_trans _ p).
  - apply map_lookup_filter_None. by left.
Qed.

Lemma move_tree_outside (src dst q : path) (fs : fsys) :
  ¬ OS.under src q → ¬ OS.under dst q →
  Shutil.move_tree src dst fs !! q = fs !! q.
Proof.
  intros Hs Hd. unfold Shutil.move_tree.
  rewrite lookup_union_r.
  - destruct (fs !! q) as [n|] eqn:Eq.
    + apply map_lookup_filter_Some. by split.
    + apply map_lookup_filter_None. by left.
  - apply not_elem_of_list_to_map_1. rewrite <- list_fmap_compose.
    intros ([k n] & -> & _)%list_elem_of_fmap. apply Hd. cbn. by exists (drop (length src) k).
Qed.

Lemma confined_move (src dst : path) :
  OS.under root src → OS.under root dst → confined self (Shutil.move src dst).
Proof.
  intros Hs Hd.
  assert (∀ real_dst, OS.under dst real_dst → confined self (Shutil.rename_or_copy src dst real_dst))
    as Hrc.
  { intros real_dst Hr fs Ha q Hq. unfold Shutil.rename_or_copy.
    assert (OS.under root real_dst) as Hrd by (by apply (under_trans _ dst)).
    assert (¬ OS.under src q) as Hsq by (intros ?; apply Hq; by apply (under_trans _ src)).
    assert (¬ OS.under real_dst q) as Hdq
      by (intros ?; apply Hq; by apply (under_trans _ real_dst)).
    assert (src ≠ q) by (by intros ->). assert (real_dst ≠ q) by (by intros ->).
    destruct (Shutil.os_rename src real_dst fs) as [fs'|] eqn:Er.
    - cbn [snd]. unfold Shutil.os_rename in Er.
      destruct (fs !! src) as [n|]; [|done].
      destruct (decide (src = real_dst)); [by inversion Er|].
      destruct (OS.blocked fs real_dst || negb (OS.is_dir fs (parent real_dst))); [done|].
      destruct n.
      + destruct (fs !! real_dst) as [[]|]; inversion Er;
          by rewrite lookup_insert_ne, lookup_delete_ne.
      + destruct (bool_decide (OS.under src real_dst)); [done|].
        destruct (fs !! real_dst) as [[]|]; try done.
        * destruct (OS.iterdir fs real_dst); inversion Er. by apply move_tree_outside.
        * inversion Er. by apply move_tree_outside.
      + destruct (fs !! real_dst) as [[]|]; inversion Er;
          by rewrite lookup_insert_ne, lookup_delete_ne.
    - destruct (OS.is_dir fs src); [|done].
      destruct (bool_decide (OS.under src dst)); [done|].
      unfold Shutil.copytree_rmtree. destruct (OS.exists_ fs real_dst); [done|].
      pose proof (confined_mkdir_parents real_dst (or_introl Hrd) fs Ha q Hq) as Hm.
      destruct (OS.mkdir_parents real_dst fs) as [[e|[]] fs1]; cbn [snd] in *; [done|].
      by rewrite move_tree_outside. }
  intros fs Ha q Hq. unfold Shutil.move. destruct (OS.is_dir fs dst).
  - destruct (decide (src = dst)); [done|].
    destruct (OS.exists_ fs (dst ++ [name src])); [done|].
    apply Hrc; [|done..]. by apply prefix_app_r.
  - by apply Hrc.
Qed.

Lemma confined_try_except {A} (body : M A) (handler : exn → A) (fs : fsys) (q : path) :
  confined self body → anchored self fs = true → ¬ OS.under root q →
  (try_except body handler fs).2 !! q = fs !! q.
Proof.
  intros Hb Ha Hq. unfold try_except. specialize (Hb fs Ha q Hq).
  by destruct (body fs) as [[e|a] fs1].
Qed.

(** What the guard returns is the root or lies below it. *)
Lemma safe_path_under (p : str) (sp : path) :
  _get_safe_path self p = inr sp → OS.under root sp.
Proof.
  intros E. destruct (get_safe_path_spec self p)
    as [(below & E' & _)|[[E' _]|(e & E' & _)]]; rewrite E in E'; [|done..].
  inversion E'. by exists below.
Qed.

Lemma parent_under (sp : path) :
  OS.under root sp → OS.under root (parent sp) ∨ parent sp `prefix_of` root.
Proof.
  intros [k ->]. destruct k as [|c k _] using rev_ind.
  - right. rewrite app_nil_r. unfold parent.
    destruct root as [|c r _] using rev_ind; [done|].
    rewrite removelast_last. by apply prefix_app_r.
  - left. rewrite app_assoc. unfold parent. rewrite removelast_last. by exists k.
Qed.

Lemma confined_guarded {A} (p : str) (k : path → M A) :
  (∀ sp, OS.under root sp → confined self (k sp)) →
  confined self (lift (_get_safe_path self p) ≫= k).
Proof.
  intros Hk fs Ha q Hq. unfold mbind, M_bind, lift.
  destruct (_get_safe_path self p) as [e|sp] eqn:E; [done|].
  apply Hk; [by apply (safe_path_under p)|done..].
Qed.

End Confined.

Lemma operations_confined `{Env} (self : MCPFilesystemServer)
    (path_ content source destination : str) (fs : fsys) (q : path) :
  anchored self fs = true →
  ¬ OS.under (allowed_directory self) q →
  (list_directory self path_ fs).2 !! q = fs !! q
  ∧ (read_file self path_ fs).2 !! q = fs !! q
  ∧ (write_file self path_ content fs).2 !! q = fs !! q
  ∧ (create_directory self path_ fs).2 !! q = fs !! q
  ∧ (delete_file self path_ fs).2 !! q = fs !! q
  ∧ (move_file self source destination fs).2 !! q = fs !! q
  ∧ (get_file_info self path_ fs).2 !! q = fs !! q.
Proof.
  intros Ha Hq.
  rewrite list_directory_keeps, read_file_keeps, get_file_info_keeps.
  repeat split.
  - apply (confined_try_except self); [|done..]. apply confined_guarded. intros sp Hsp.
    apply confined_bind; [by apply confined_mkdir_parents, parent_under|]. intros _.
    apply confined_bind; [by apply confined_write_text|]. intros _.
    by apply confined_keeps.
  - apply (confined_try_except self); [|done..]. apply confined_guarded. intros sp Hsp.
    apply confined_bind; [apply confined_mkdir_parents; by left|]. intros _.
    by apply confined_keeps.
  - apply (confined_try_except self); [|done..]. apply confined_guarded. intros sp Hsp.
    apply confined_bind; [by apply confined_keeps|]. intros fs0.
    destruct (negb (OS.exists_ fs0 sp)); [by apply confined_keeps|].
    destruct (OS.is_file fs0 sp).
    { apply confined_bind; [by apply confined_unlink|]. intros _. by apply confined_keeps. }
    destruct (OS.is_dir fs0 sp); [|by apply confined_keeps].
    apply confined_bind; [by apply confined_rmtree|]. intros _. by apply confined_keeps.
  - apply (confined_try_except self); [|done..]. apply confined_guarded. intros ss Hss.
    apply confined_guarded. intros sd Hsd.
    apply confined_bind; [by apply confined_keeps|]. intros fs0.
    destruct (negb (OS.exists_ fs0 ss)); [by apply confined_keeps|].
    apply confined_bind; [by apply confined_mkdir_parents, parent_under|]. intros _.
    apply confined_bind; [by apply confined_move|]. intros _. by apply confined_keeps.
Qed.

Lemma outside_not_under (root q : path) :
  is_relative_to q root = false → ¬ OS.under root q.
Proof. intros Hrel Hu%is_relative_to_prefix. congruence. Qed.

(** X2.  No operation touches anything outside the sandbox, in a file
    system where every name has a file of its own: one without symbolic
    links and without a second name for a file.  Where the proper
    ancestors of the root are directories (the case whenever the root
    exists), every location that fails the test of the guard, being
    neither the root nor below it, holds the same after each of the seven
    operations as before, whatever the arguments and whatever the
    outcome. *)
Theorem operations_stay_inside `{Env} (self : MCPFilesystemServer)
    (path_ content source destination : str) (fs : fsys) (q : path) :
  anchored self fs = true →
  is_relative_to q (allowed_directory self) = false →
  (list_directory self path_ fs).2 !! q = fs !! q
  ∧ (read_file self path_ fs).2 !! q = fs !! q
  ∧ (write_file self path_ content fs).2 !! q = fs !! q
  ∧ (create_directory self path_ fs).2 !! q = fs !! q
  ∧ (delete_file self path_ fs).2 !! q = fs !! q
  ∧ (move_file self source destination fs).2 !! q = fs !! q
  ∧ (get_file_info self path_ fs).2 !! q = fs !! q.
Proof.
  intros Ha Hrel. apply operations_confined; [done|]. by apply outside_not_under.
Qed.

Lemma operations_stay_inside_witness :
  let q := [lit "etc"; lit "passwd"] in
  anchored box shared_host = true
  ∧ is_relative_to q (allowed_directory box) = false
  ∧ (move_file (H:=posix_env) box (lit "a.txt") (lit "b/a.txt") shared_host).2 !! q
    = Some (NFile [114]%N file_meta)
  ∧ (delete_file (H:=posix_env) box (lit ".") shared_host).2 !! q
    = Some (NFile [114]%N file_meta).
Proof.
  pose proof (operations_stay_inside (H:=posix_env) box (lit ".") [] (lit "a.txt")
                (lit "b/a.txt") shared_host [lit "etc"; lit "passwd"] eq_refl eq_refl)
    as (_ & _ & _ & _ & Hdel & Hmove & _).
  split; [reflexivity|]. split; [reflexivity|]. split.
  - rewrite Hmove. vm_compute. reflexivity.
  - rewrite Hdel. vm_compute. reflexivity.
Defined.

(** ** Refusals, missing paths and wrong kinds *)

Ltac run_guarded E :=
  unfold try_except, mbind, M_bind, lift, get_fs; rewrite E.



(** X4.  A path inside the sandbox at which nothing exists is an error
    for the operations that need an entry, each with its own message and
    without a change.  [move_file] says so for its source when the
    destination is inside the sandbox as well, for the guard looks at
    the destination before the source is tested; it says so before it
    creates anything for the destination. *)
Theorem missing_path_reported `{Env} (self : MCPFilesystemServer)
    (path_ destination : str) (sp sd : path) (fs : fsys) :
  _get_safe_path self path_ = inr sp →
  _get_safe_path self destination = inr sd →
  fs !! sp = None →
  list_directory self path_ fs
  = (error_payload (lit "Directory does not exist: " ++ path_), fs)
  ∧ read_file self path_ fs = (error_payload (lit "File does not exist: " ++ path_), fs)
  ∧ delete_file self path_ fs = (error_payload (lit "Path does not exist: " ++ path_), fs)
  ∧ get_file_info self path_ fs
    = (error_payload (lit "Path does not exist: " ++ path_), fs)
  ∧ move_file self path_ destination fs
    = (error_payload (lit "Source does not exist: " ++ path_), fs).
Proof.
  intros E Ed Hn.
  unfold list_directory, read_file, delete_file, get_file_info, move_file.
  run_guarded E. rewrite Ed. unfold OS.exists_. rewrite Hn. done.
Qed.

Lemma missing_path_reported_witness :
  _get_safe_path (H:=posix_env) box (lit "nothing") = inr [lit "box"; lit "nothing"]
  ∧ _get_safe_path (H:=posix_env) box (lit "new/place") = inr [lit "box"; lit "new"; lit "place"]
  ∧ shared_host !! [lit "box"; lit "nothing"] = None
  ∧ move_file (H:=posix_env) box (lit "nothing") (lit "new/place") shared_host
    = (error_payload (lit "Source does not exist: nothing"), shared_host).
Proof.
  split; [reflexivity|]. split; [reflexivity|]. split; [reflexivity|].
  apply (missing_path_reported (H:=posix_env) box (lit "nothing") (lit "new/place")
           [lit "box"; lit "nothing"] [lit "box"; lit "new"; lit "place"] shared_host
           eq_refl eq_refl eq_refl).
Defined.

(** ** Listing and reading *)

Section Queries.
Context `{Env}.
Variable self : MCPFilesystemServer.

Lemma list_directory_at (p : str) (sp : path) (fs : fsys) :
  _get_safe_path self p = inr sp → OS.is_dir fs sp = true →
  list_directory self p fs = (listing fs sp (OS.iterdir fs sp), fs).
Proof.
  intros E Hd. unfold list_directory. run_guarded E.
  assert (OS.exists_ fs sp = true) as ->.
  { unfold OS.exists_. by destruct (is_dir_exists _ _ Hd) as [m ->]. }
  rewrite Hd. cbn [negb].
  rewrite mapM_item_info by (by intros q (_ & _ & ?)%iterdir_spec).
  unfold listing. by rewrite length_map.
Qed.

Lemma tree_not_blocked (fs : fsys) (q : path) (n : node) :
  tree fs = true → fs !! q = Some n → OS.blocked fs q = false.
Proof.
  intros Ht Hn. apply blocked_false. intros a Ha. right.
  by apply (tree_ancestors fs q n).
Qed.

End Queries.

(** X5.  Listing a directory of the sandbox gives one item for each entry
    directly below it, each entry once, and [count] is their number; the
    item of an entry has its last component as [name], says [directory]
    exactly for a directory, and carries a size only for a regular
    file. *)
Theorem list_directory_children `{Env} (self : MCPFilesystemServer) (path_ : str)
    (sp : path) (fs : fsys) :
  _get_safe_path self path_ = inr sp →
  OS.is_dir fs sp = true →
  ∃ children,
    NoDup children
    ∧ (∀ q, q ∈ children ↔ q ≠ [] ∧ parent q = sp ∧ is_Some (fs !! q))
    ∧ list_directory self path_ fs = (listing fs sp children, fs)
    ∧ Dict.get (lit "count") (listing fs sp children)
      = Some (VScalar (SInt (Z.of_nat (length children))))
    ∧ ∀ q, q ∈ children →
        Dict.get (lit "name") (item_of fs q) = Some (SStr (name q))
        ∧ Dict.get (lit "type") (item_of fs q)
          = Some (SStr (if OS.is_dir fs q then lit "directory" else lit "file"))
        ∧ (OS.is_file fs q = false → Dict.get (lit "size") (item_of fs q) = Some SNone).
Proof.
  intros E Hd. exists (OS.iterdir fs sp).
  split; [apply NoDup_iterdir|]. split; [apply iterdir_spec|].
  split; [by apply list_directory_at|]. split; [done|].
  intros q (_ & _ & [n Hn])%iterdir_spec. unfold item_of. rewrite Hn.
  repeat split. intros ->. done.
Qed.

Lemma list_directory_children_witness :
  ∃ children,
    (∀ q, q ∈ children ↔ q ≠ [] ∧ parent q = [lit "box"] ∧ is_Some (gallery !! q))
    ∧ list_directory (H:=posix_env) box (lit ".") gallery
      = (listing gallery [lit "box"] children, gallery)
    ∧ length children = 5.
Proof.
  destruct (list_directory_children (H:=posix_env) box (lit ".") [lit "box"] gallery
              eq_refl eq_refl) as (children & Hnd & Hin & Hl & _).
  exists children. split; [exact Hin|]. split; [exact Hl|].
  assert (Dict.get (lit "count") (list_directory (H:=posix_env) box (lit ".") gallery).1
          = Some (VScalar (SInt 5))) as Hc by (vm_compute; reflexivity).
  rewrite Hl in Hc. injection Hc as Hc. lia.
Defined.

Lemma read_file_at `{Env} (self : MCPFilesystemServer) (path_ : str)
    (sp : path) (fs : fsys) (bs : list N) (m : meta) :
  tree fs = true →
  _get_safe_path self path_ = inr sp →
  fs !! sp = Some (NFile bs m) →
  read_file self path_ fs
  = (match Utf8.decode bs with
     | Some s => text_result sp (Utf8.universal_newlines s)
     | None => binary_result sp bs
     end, fs).
Proof.
  intros Ht E Hf. pose proof (tree_not_blocked fs sp _ Ht Hf) as Hb.
  destruct (Utf8.decode bs) as [s|] eqn:Ed; [by apply (read_file_ok self _ _ _ bs m)|].
  unfold read_file. run_guarded E.
  unfold OS.exists_, OS.is_file. rewrite Hf. cbn [negb].
  unfold except_decode, OS.read_text, mbind, M_bind, OS.read_bytes, OS.stat.
  rewrite Hb, Hf, Ed. unfold raise. rewrite Hb, Hf. unfold binary_result.
  rewrite length_take, Hf. unfold mret, M_ret. cbn [OS.stat_node OS.r_size].
  by rewrite nat_N_Z.
Qed.

(** X6.  Reading a regular file never fails on its bytes.  If they are
    valid UTF-8 the result has type [text], the decoded text with its line
    ends made [\n], and as [size] the number of characters of that text;
    if they are not, the result has type [binary], as [size] the number
    of bytes, and in place of the content a note with the number of bytes
    looked at, at most 1024.  Either way the file system is unchanged. *)
Theorem read_file_text_or_binary `{Env} (self : MCPFilesystemServer) (path_ : str)
    (sp : path) (fs : fsys) (bs : list N) (m : meta) :
  tree fs = true →
  _get_safe_path self path_ = inr sp →
  fs !! sp = Some (NFile bs m) →
  read_file self path_ fs
  = (match Utf8.decode bs with
     | Some s => text_result sp (Utf8.universal_newlines s)
     | None => binary_result sp bs
     end, fs).
Proof. apply read_file_at. Qed.

Lemma read_file_text_or_binary_witness :
  tree raw_box = true
  ∧ read_file (H:=posix_env) box (lit "raw") raw_box
    = (binary_result [lit "box"; lit "raw"] [255; 254; 0]%N, raw_box).
Proof.
  split; [reflexivity|].
  apply (read_file_text_or_binary (H:=posix_env) box (lit "raw") [lit "box"; lit "raw"]
           raw_box [255; 254; 0]%N file_meta eq_refl eq_refl eq_refl).
Defined.

(** ** Creating, writing and deleting *)

Section Mutations.
Context `{Env}.
Variable self : MCPFilesystemServer.

Lemma with_dirs_dirs (fs : fsys) (l : list path) (p a : path) :
  OS.blocked fs p = false → a ∈ OS.ancestors p → a ∈ l →
  ∃ m, with_dirs fs l a = Some (NDir m).
Proof.
  intros Hb Ha Hl. unfold with_dirs.
  destruct (proj1 (blocked_false fs p) Hb a Ha) as [E|E].
  - rewrite E, decide_True by done. eauto.
  - apply is_dir_exists in E as [m ->]. eauto.
Qed.

Lemma create_directory_ok (p : str) (sp : path) (fs : fsys) :
  tree fs = true →
  _get_safe_path self p = inr sp →
  OS.blocked fs sp = false →
  free_or_dir fs sp = true →
  ∃ fs1, create_directory self p fs = (created_result sp, fs1)
         ∧ (∀ q, fs1 !! q = with_dirs fs (OS.ancestors sp ++ [sp]) q)
         ∧ OS.mkdir_parents sp fs1 = (inr tt, fs1).
Proof.
  intros Ht E Hb Hf.
  destruct (mkdir_parents_ok fs sp Ht Hb) as (fs1 & Hmk & Hfs1).
  { unfold free_or_dir in Hf. unfold OS.is_dir.
    destruct (fs !! sp) as [[]|]; try done; [by right | by left]. }
  exists fs1. unfold create_directory. run_guarded E. rewrite Hmk.
  split; [done|]. split; [done|].
  unfold OS.mkdir_parents.
  assert (OS.blocked fs1 sp = false) as ->.
  { apply blocked_false. intros a Ha. right. unfold OS.is_dir. rewrite Hfs1.
    destruct (with_dirs_dirs fs (OS.ancestors sp ++ [sp]) sp a Hb Ha) as [m ->];
      [set_solver | done]. }
  rewrite Hfs1. unfold with_dirs, free_or_dir in *.
  destruct (fs !! sp) as [[]|]; try done.
  by rewrite decide_True by set_solver.
Qed.

(** In a tree nothing lies below an entry that is not a directory. *)
Lemma tree_below_file (fs : fsys) (sp q : path) :
  tree fs = true → OS.is_dir fs sp = false → OS.under sp q → q ≠ sp → fs !! q = None.
Proof.
  intros Ht Hd Hu Hne. destruct (fs !! q) as [n|] eqn:Eq; [|done].
  assert (sp ∈ OS.ancestors q) as Ha by (apply ancestors_spec; split; [done | congruence]).
  rewrite (tree_ancestors fs q n Ht Eq sp Ha) in Hd. done.
Qed.

Lemma delete_file_effect (p : str) (sp : path) (fs : fsys) :
  tree fs = true →
  _get_safe_path self p = inr sp →
  OS.is_file fs sp || OS.is_dir fs sp = true →
  ∃ fs1,
    delete_file self p fs
    = (deleted sp (if OS.is_file fs sp then lit "File deleted successfully"
                   else lit "Directory deleted successfully"), fs1)
    ∧ ∀ q, fs1 !! q = if bool_decide (OS.under sp q) then None else fs !! q.
Proof.
  intros Ht E Hk. unfold delete_file. run_guarded E.
  unfold OS.exists_, OS.is_file, OS.is_dir, OS.unlink, OS.rmtree in *.
  destruct (fs !! sp) as [[bs m|m|m]|] eqn:Esp; try done; cbn [negb]; rewrite Esp.
  - eexists. split; [reflexivity|]. intros q.
    destruct (decide (q = sp)) as [->|Hne].
    + rewrite lookup_delete_eq. by rewrite bool_decide_eq_true_2.
    + rewrite lookup_delete_ne by done. case_bool_decide as Hu; [|done].
      apply (tree_below_file fs sp q Ht); [|done..]. unfold OS.is_dir. by rewrite Esp.
  - eexists. split; [reflexivity|]. intros q. case_bool_decide as Hu.
    + apply map_lookup_filter_None. right. intros n _ Hn. by apply Hn.
    + destruct (fs !! q) as [n|] eqn:Eq.
      * apply map_lookup_filter_Some. by split.
      * apply map_lookup_filter_None. by left.
Qed.

Lemma info_size (p : str) (sp : path) (fs : fsys) (n : node) :
  _get_safe_path self p = inr sp → fs !! sp = Some n →
  Dict.get (lit "size") (get_file_info self p fs).1
  = Some (VScalar (SInt (Z.of_N (OS.r_size (OS.stat_node n))))).
Proof.
  intros E Hn. unfold get_file_info. run_guarded E.
  unfold OS.exists_, OS.stat. rewrite Hn. cbn [negb]. rewrite Hn. done.
Qed.

End Mutations.

(** X7.  [create_directory] on a path of the sandbox whose way is clear:
    no ancestor is a file, and the target is absent or already a
    directory.  It succeeds; afterwards the target and its ancestors are
    directories, every entry that existed is as it was and nothing else
    has appeared; and repeating the call gives the same result and
    changes nothing. *)
Theorem create_directory_makes_way `{Env} (self : MCPFilesystemServer) (path_ : str)
    (sp : path) (fs : fsys) :
  tree fs = true →
  _get_safe_path self path_ = inr sp →
  OS.blocked fs sp = false →
  free_or_dir fs sp = true →
  let (r, fs1) := create_directory self path_ fs in
  r = created_result sp
  ∧ (∀ q, fs1 !! q = with_dirs fs (OS.ancestors sp ++ [sp]) q)
  ∧ OS.is_dir fs1 sp = true
  ∧ create_directory self path_ fs1 = (r, fs1).
Proof.
  intros Ht E Hb Hf.
  destruct (create_directory_ok self path_ sp fs Ht E Hb Hf) as (fs1 & -> & Hfs1 & Hagain).
  split; [done|]. split; [done|]. split.
  - unfold OS.is_dir. rewrite Hfs1. unfold with_dirs, free_or_dir in *.
    destruct (fs !! sp) as [[]|]; try done. by rewrite decide_True by set_solver.
  - unfold create_directory. run_guarded E. by rewrite Hagain.
Qed.

Lemma create_directory_makes_way_witness :
  let sp := [lit "box"; lit "a"; lit "b"] in
  let (r, fs1) := create_directory (H:=posix_env) box (lit "a/b") empty_box in
  r = created_result sp
  ∧ fs1 !! [lit "box"; lit "a"] = Some (NDir dir_meta)
  ∧ OS.is_dir fs1 sp = true
  ∧ create_directory (H:=posix_env) box (lit "a/b") fs1 = (r, fs1).
Proof.
  pose proof (create_directory_makes_way (H:=posix_env) box (lit "a/b")
                [lit "box"; lit "a"; lit "b"] empty_box eq_refl eq_refl eq_refl eq_refl)
    as Hw.
  destruct (create_directory (H:=posix_env) box (lit "a/b") empty_box) as [r fs1].
  destruct Hw as (Hr & Hfs1 & Hd & Hagain).
  split; [exact Hr|]. split; [|split; [exact Hd | exact Hagain]].
  rewrite Hfs1. vm_compute. reflexivity.
Defined.

(** X8.  Where an entry of another kind is in the way, the operation
    says so and changes nothing: reading a directory and listing a file
    are refused with the messages of the operations; writing to a
    directory and creating a directory where a file is fail with the
    error of the system, [Is a directory] and [File exists], turned into
    the error payload. *)
Theorem wrong_kind_reported `{Env} (self : MCPFilesystemServer)
    (dir_path file_path content : str) (d f : path) (fs : fsys) (md mf : meta)
    (bs : list N) :
  tree fs = true →
  _get_safe_path self dir_path = inr d →
  _get_safe_path self file_path = inr f →
  fs !! d = Some (NDir md) →
  fs !! f = Some (NFile bs mf) →
  read_file self dir_path fs
  = (error_payload (lit "Path is not a file: " ++ dir_path), fs)
  ∧ write_file self dir_path content fs
    = (error_payload (lit "[Errno 21] Is a directory: " ++ py_repr (path_str d)), fs)
  ∧ list_directory self file_path fs
    = (error_payload (lit "Path is not a directory: " ++ file_path), fs)
  ∧ create_directory self file_path fs
    = (error_payload (lit "[Errno 17] File exists: " ++ py_repr (path_str f)), fs).
Proof.
  intros Ht Ed Ef Hd Hf.
  pose proof (tree_not_blocked fs d _ Ht Hd) as Hbd.
  pose proof (tree_not_blocked fs f _ Ht Hf) as Hbf.
  destruct (tree_spec fs Ht) as [Hroot Htree].
  destruct (Htree d _ Hd) as [Hpar _].
  assert (OS.mkdir_parents (parent d) fs = (inr tt, fs)) as Hmk.
  { unfold OS.mkdir_parents. destruct (is_dir_exists _ _ Hpar) as [m Hm].
    by rewrite (tree_not_blocked fs _ _ Ht Hm), Hm. }
  repeat split.
  - unfold read_file. run_guarded Ed. unfold OS.exists_, OS.is_file. by rewrite Hd.
  - unfold write_file. run_guarded Ed. rewrite Hmk.
    unfold OS.write_text, mbind, M_bind, OS.open_w. by rewrite Hbd, Hpar, Hd.
  - unfold list_directory. run_guarded Ef. unfold OS.exists_, OS.is_dir. by rewrite Hf.
  - unfold create_directory. run_guarded Ef. unfold OS.mkdir_parents.
    by rewrite Hbf, Hf.
Qed.

Lemma wrong_kind_reported_witness :
  write_file (H:=posix_env) box (lit "pics") (lit "x") gallery
  = (error_payload (lit "[Errno 21] Is a directory: '/box/pics'"), gallery)
  ∧ create_directory (H:=posix_env) box (lit "a.jpg") gallery
    = (error_payload (lit "[Errno 17] File exists: '/box/a.jpg'"), gallery).
Proof.
  pose proof (wrong_kind_reported (H:=posix_env) box (lit "pics") (lit "a.jpg") (lit "x")
                [lit "box"; lit "pics"] [lit "box"; lit "a.jpg"] gallery dir_meta
                file_meta [65]%N eq_refl eq_refl eq_refl eq_refl eq_refl)
    as (_ & Hw & _ & Hc).
  split; [exact Hw | exact Hc].
Defined.

(** X9.  [write_file] replaces, it does not append.  In a file system
    where every name has a file of its own, without symbolic links and
    without a second name for a file, on a path of the sandbox whose way
    is clear the target afterwards holds exactly the UTF-8 bytes of the
    content, whatever it held before; every other entry is as it was,
    except that missing ancestors of the target are now directories.  The size that [get_file_info] then reports is the
    number of these bytes, while the size in the result of [write_file]
    is the number of characters. *)
Theorem write_file_replaces `{Env} (self : MCPFilesystemServer) (path_ content : str)
    (sp : path) (fs : fsys) (bs : list N) :
  tree fs = true →
  _get_safe_path self path_ = inr sp →
  OS.blocked fs sp = false →
  writable fs sp = true →
  Utf8.encode content = Some bs →
  let (w, fs1) := write_file self path_ content fs in
  (∃ m, fs1 !! sp = Some (NFile bs m))
  ∧ (∀ q, q ≠ sp → fs1 !! q = with_dirs fs (OS.ancestors sp) q)
  ∧ Dict.get (lit "size") w = Some (VScalar (SInt (Z.of_nat (length content))))
  ∧ Dict.get (lit "size") (get_file_info self path_ fs1).1
    = Some (VScalar (SInt (Z.of_nat (length bs)))).
Proof.
  intros Ht E Hb Hw He.
  destruct (write_file_ok self path_ content bs sp fs Ht E Hb Hw He) as (m & -> & _).
  split; [exists m; by rewrite lookup_insert_eq|].
  split; [intros q Hq; rewrite lookup_insert_ne by done; apply foldl_make_dir_lookup|].
  split; [done|].
  rewrite (info_size self path_ sp _ (NFile bs m) E) by by rewrite lookup_insert_eq.
  cbn [OS.stat_node OS.r_size]. by rewrite nat_N_Z.
Qed.

Lemma write_file_replaces_witness :
  let sp := [lit "box"; lit "a.jpg"] in
  let (w, fs1) := write_file (H:=posix_env) box (lit "a.jpg") [233; 33]%N gallery in
  (∃ m, fs1 !! sp = Some (NFile [195; 169; 33]%N m))
  ∧ fs1 !! [lit "box"; lit "c.png"] = gallery !! [lit "box"; lit "c.png"]
  ∧ Dict.get (lit "size") w = Some (VScalar (SInt 2))
  ∧ Dict.get (lit "size") (get_file_info (H:=posix_env) box (lit "a.jpg") fs1).1
    = Some (VScalar (SInt 3)).
Proof.
  pose proof (write_file_replaces (H:=posix_env) box (lit "a.jpg") [233; 33]%N
                [lit "box"; lit "a.jpg"] gallery [195; 169; 33]%N
                eq_refl eq_refl eq_refl eq_refl eq_refl) as Hw.
  destruct (write_file (H:=posix_env) box (lit "a.jpg") [233; 33]%N gallery) as [w fs1].
  destruct Hw as (Hm & Hrest & Hsize & Hinfo).
  split; [exact Hm|]. split; [|split; [exact Hsize | exact Hinfo]].
  rewrite Hrest by done. vm_compute. reflexivity.
Defined.

(** X10.  [delete_file] on a regular file or a directory of the sandbox,
    other than [/] itself, removes the entry and all that lies below it, and nothing else: every
    location that is not the path or below it holds what it held.  A
    second call finds nothing and reports that the path does not
    exist. *)
Theorem delete_file_removes_subtree `{Env} (self : MCPFilesystemServer) (path_ : str)
    (sp : path) (fs : fsys) :
  tree fs = true →
  _get_safe_path self path_ = inr sp →
  sp ≠ [] →
  OS.is_file fs sp || OS.is_dir fs sp = true →
  let (r, fs1) := delete_file self path_ fs in
  r = deleted sp (if OS.is_file fs sp then lit "File deleted successfully"
                  else lit "Directory deleted successfully")
  ∧ (∀ q, fs1 !! q = if bool_decide (OS.under sp q) then None else fs !! q)
  ∧ delete_file self path_ fs1
    = (error_payload (lit "Path does not exist: " ++ path_), fs1).
Proof.
  intros Ht E _ Hk.
  destruct (delete_file_effect self path_ sp fs Ht E Hk) as (fs1 & -> & Hfs1).
  split; [done|]. split; [done|].
  unfold delete_file. run_guarded E. unfold OS.exists_.
  by rewrite Hfs1, bool_decide_eq_true_2.
Qed.

Lemma delete_file_removes_subtree_witness :
  let (r, fs1) := delete_file (H:=posix_env) box (lit "pics") gallery in
  r = deleted [lit "box"; lit "pics"] (lit "Directory deleted successfully")
  ∧ fs1 !! [lit "box"; lit "pics"; lit "c.png"; lit "c.png"] = None
  ∧ fs1 !! [lit "box"; lit "a.jpg"] = Some (NFile [65]%N file_meta)
  ∧ delete_file (H:=posix_env) box (lit "pics") fs1
    = (error_payload (lit "Path does not exist: pics"), fs1).
Proof.
  assert ([lit "box"; lit "pics"] ≠ []) as Hne by done.
  pose proof (delete_file_removes_subtree (H:=posix_env) box (lit "pics")
                [lit "box"; lit "pics"] gallery eq_refl eq_refl Hne eq_refl) as Hw.
  destruct (delete_file (H:=posix_env) box (lit "pics") gallery) as [r fs1].
  destruct Hw as (Hr & Hfs1 & Hagain).
  split; [exact Hr|]. split; [|split; [|exact Hagain]].
  - rewrite Hfs1. vm_compute. reflexivity.
  - rewrite Hfs1. vm_compute. reflexivity.
Defined.

(** ** The root, and the calls of a session *)

Section Root.
Context `{Env}.
Variable self : MCPFilesystemServer.
Local Abbreviation root := (allowed_directory self).

Lemma tree_anchored (fs : fsys) :
  tree fs = true → is_Some (fs !! root) → anchored self fs = true.
Proof.
  intros Ht [n Hn]. apply anchored_spec. by apply (tree_ancestors fs root n).
Qed.

Lemma tree_exists_plain (fs : fsys) (q : path) :
  tree fs = true → is_Some (fs !! q) → Forall plain q.
Proof. intros [_ Ht]%tree_spec [n Hn]. by destruct (Ht _ _ Hn). Qed.

Lemma get_safe_path_root (p : str) :
  Forall plain root → os_path_isabs p = false → parse_parts p = [] →
  _get_safe_path self p = inr root.
Proof.
  intros Hr Hrel Hparts. pose proof (get_safe_path_at self p [] ) as E.
  rewrite app_nil_r in E. by apply E.
Qed.

Lemma confined_call {A} (f : fsys → A * fsys) :
  (∀ fs q, anchored self fs = true → ¬ OS.under root q → (f fs).2 !! q = fs !! q) →
  confined self (call f).
Proof.
  intros Hf fs Ha q Hq. unfold call. specialize (Hf fs q Ha Hq).
  by destruct (f fs) as [a fs1].
Qed.

Lemma confined_tool (t : tool) (name_ : str) (args : list str) :
  t ∈ tools self → confined self (dispatch name_ t args).
Proof.
  intros Ht.
  assert (∀ a, confined self (apply1 t a)) as H1.
  { intros a. unfold apply1.
    repeat (apply elem_of_cons in Ht as [->|Ht]); [..|by apply elem_of_nil in Ht];
      cbn [tool_fn]; first [by apply confined_keeps | apply confined_call; intros fs q Ha Hq];
      by destruct (operations_confined self a [] [] [] fs q Ha Hq)
        as (? & ? & ? & ? & ? & ? & ?). }
  assert (∀ a b, confined self (apply2 t a b)) as H2.
  { intros a b. unfold apply2.
    repeat (apply elem_of_cons in Ht as [->|Ht]); [..|by apply elem_of_nil in Ht];
      cbn [tool_fn]; first [by apply confined_keeps | apply confined_call; intros fs q Ha Hq].
    - by destruct (operations_confined self a b [] [] fs q Ha Hq)
        as (? & ? & ? & ? & ? & ? & ?).
    - by destruct (operations_confined self [] [] a b fs q Ha Hq)
        as (? & ? & ? & ? & ? & ? & ?). }
  unfold dispatch. repeat case_match; done.
Qed.

Lemma execute_tool_confined (name_ tool_args : str) (fs : fsys) (q : path) :
  anchored self fs = true → ¬ OS.under root q →
  (execute_tool self name_ tool_args fs).2 !! q = fs !! q.
Proof.
  intros Ha Hq. unfold execute_tool. apply (confined_try_except self); [|done..].
  destruct (List.find _ (tools self)) as [t|] eqn:Ef; [|by apply confined_keeps].
  apply find_some in Ef as [Ht%list_elem_of_In _].
  destruct (Str.eqb name_ (lit "write_file")); [|by apply confined_tool].
  destruct (Re.match_ write_args_re tool_args) as [g|]; [|by apply confined_keeps].
  apply confined_bind.
  { apply confined_keeps. intros fs0. unfold group_of. by destruct (Re.group 2 g). }
  intros g2. apply confined_bind.
  { apply confined_keeps. intros fs0. unfold group_of. by destruct (Re.group 4 g). }
  intros g4. by apply confined_tool.
Qed.

End Root.

(** X11.  The guard admits the root itself, and [delete_file] does not
    spare it.  In a tree where the root of the sandbox is a directory
    other than [/], a relative path with no component left after
    parsing, such as the empty string or [.], makes [delete_file] remove
    the root with everything in it; what lies outside stays, and a
    listing of the same path then reports that the directory does not
    exist. *)
Theorem delete_file_can_remove_root `{Env} (self : MCPFilesystemServer) (path_ : str)
    (fs : fsys) :
  tree fs = true →
  OS.is_dir fs (allowed_directory self) = true →
  allowed_directory self ≠ [] →
  os_path_isabs path_ = false →
  parse_parts path_ = [] →
  let (r, fs1) := delete_file self path_ fs in
  r = deleted (allowed_directory self) (lit "Directory deleted successfully")
  ∧ (∀ q, fs1 !! q = if is_relative_to q (allowed_directory self) then None else fs !! q)
  ∧ list_directory self path_ fs1
    = (error_payload (lit "Directory does not exist: " ++ path_), fs1).
Proof.
  intros Ht Hd _ Hrel Hparts.
  pose proof (tree_root_plain self fs Ht Hd) as Hr.
  pose proof (get_safe_path_root self path_ Hr Hrel Hparts) as E.
  destruct (delete_file_effect self path_ _ fs Ht E) as (fs1 & -> & Hfs1).
  { by rewrite Hd, orb_true_r. }
  assert (OS.is_file fs (allowed_directory self) = false) as ->.
  { unfold OS.is_file. by destruct (is_dir_exists _ _ Hd) as [m ->]. }
  split; [done|]. split.
  - intros q. rewrite Hfs1. case_bool_decide as Hu.
    + by rewrite (proj2 (is_relative_to_prefix _ _) Hu).
    + destruct (is_relative_to q (allowed_directory self)) eqn:Eq; [|done].
      by apply is_relative_to_prefix in Eq.
  - unfold list_directory. run_guarded E. unfold OS.exists_.
    by rewrite Hfs1, bool_decide_eq_true_2.
Qed.

Lemma delete_file_can_remove_root_witness :
  let (r, fs1) := delete_file (H:=posix_env) box (lit ".") shared_host in
  r = deleted [lit "box"] (lit "Directory deleted successfully")
  ∧ fs1 !! [lit "box"] = None
  ∧ fs1 !! [lit "box"; lit "a.txt"] = None
  ∧ fs1 !! [lit "etc"; lit "passwd"] = Some (NFile [114]%N file_meta)
  ∧ list_directory (H:=posix_env) box (lit ".") fs1
    = (error_payload (lit "Directory does not exist: ."), fs1).
Proof.
  assert (allowed_directory box ≠ []) as Hne by done.
  pose proof (delete_file_can_remove_root (H:=posix_env) box (lit ".") shared_host
                eq_refl eq_refl Hne eq_refl eq_refl) as Hw.
  destruct (delete_file (H:=posix_env) box (lit ".") shared_host) as [r fs1].
  destruct Hw as (Hr & Hfs1 & Hl).
  split; [exact Hr|]. rewrite !Hfs1. repeat split; exact Hl.
Defined.

(** X12.  What [__init__] checks, and what follows.  The constructor
    resolves the directory, and what [resolve] raises for a name that
    the system does not accept leaves the constructor as it is.  For a
    directory that resolves it raises [ValueError] when nothing exists
    there; it does not ask for a directory, so a regular file is accepted
    as a root.  In a tree a server so constructed has the ancestors of
    its root in place, and the path [.] is admitted by its guard and
    denotes the root. *)
Theorem init_requires_existence `{Env} (directory : str) (fs : fsys) :
  tree fs = true →
  match resolve (Path directory), init directory fs with
  | inr root, (inr self, fs') =>
      fs' = fs
      ∧ allowed_directory self = root
      ∧ is_Some (fs !! root)
      ∧ anchored self fs = true
      ∧ _get_safe_path self (lit ".") = inr root
  | inr root, (inl e, fs') =>
      fs' = fs
      ∧ fs !! root = None
      ∧ e = ValueError (lit "Directory does not exist: " ++ path_str root)
  | inl raised, r => r = (inl raised, fs)
  end.
Proof.
  intros Ht. unfold init, mbind, M_bind, lift, get_fs, OS.exists_.
  destruct (resolve (Path directory)) as [raised|root]; [done|].
  destruct (fs !! root) as [n|] eqn:En; cbn [negb]; [|done].
  unfold mret, M_ret. cbn [allowed_directory].
  assert (is_Some (fs !! root)) as Hs by (by exists n).
  repeat split; [done| |].
  - by apply tree_anchored.
  - apply (get_safe_path_dot {| allowed_directory := root |}).
    cbn [allowed_directory]. by apply (tree_exists_plain fs).
Qed.

Lemma init_requires_existence_witness :
  tree gallery = true
  ∧ init (H:=posix_env) (lit "/box/a.jpg") gallery
    = (inr {| allowed_directory := [lit "box"; lit "a.jpg"] |}, gallery)
  ∧ init (H:=posix_env) (lit "/nowhere") gallery
    = (inl (ValueError (lit "Directory does not exist: /nowhere")), gallery)
  ∧ init (H:=posix_env) (lit "/box" ++ [0%N]) gallery
    = (inl (ValueError (lit "embedded null byte")), gallery).
Proof.
  split; [reflexivity|].
  pose proof (init_requires_existence (H:=posix_env) (lit "/box/a.jpg") gallery eq_refl)
    as H1.
  pose proof (init_requires_existence (H:=posix_env) (lit "/nowhere") gallery eq_refl)
    as H2.
  pose proof (init_requires_existence (H:=posix_env) (lit "/box" ++ [0%N]) gallery eq_refl)
    as H3.
  assert (resolve (H:=posix_env) (Path (lit "/box/a.jpg")) = inr [lit "box"; lit "a.jpg"])
    as E1 by reflexivity.
  assert (resolve (H:=posix_env) (Path (lit "/nowhere")) = inr [lit "nowhere"])
    as E2 by reflexivity.
  assert (resolve (H:=posix_env) (Path (lit "/box" ++ [0%N]))
          = inl (ValueError (lit "embedded null byte"))) as E3 by reflexivity.
  rewrite E1 in H1. rewrite E2 in H2. rewrite E3 in H3.
  split; [|split; [|exact H3]].
  - destruct (init (H:=posix_env) (lit "/box/a.jpg") gallery) as [[e|self] fs'].
    + destruct H1 as (_ & Hnone & _). vm_compute in Hnone. discriminate.
    + destruct H1 as (-> & Hroot & _). destruct self as [r]. cbn in Hroot.
      rewrite Hroot. reflexivity.
  - destruct (init (H:=posix_env) (lit "/nowhere") gallery) as [[e|self] fs'].
    + destruct H2 as (-> & _ & ->). reflexivity.
    + destruct H2 as (_ & _ & [n Hn] & _). vm_compute in Hn. discriminate.
Defined.

(** X13.  In a file system where every name has a file of its own,
    without symbolic links and without a second name for a file:
    whatever tool calls are executed, by name and raw argument string, in
    whatever number and order, and whatever each of them returns, no
    location outside the sandbox changes; the ancestors of the root stay
    in place, so that this holds call after call. *)
Theorem tool_calls_stay_inside `{Env} (self : MCPFilesystemServer)
    (calls : list (str * str)) (fs : fsys) (q : path) :
  anchored self fs = true →
  is_relative_to q (allowed_directory self) = false →
  run_calls self calls fs !! q = fs !! q
  ∧ anchored self (run_calls self calls fs) = true.
Proof.
  intros Ha Hrel. pose proof (outside_not_under _ _ Hrel) as Hq.
  revert fs Ha. unfold run_calls.
  induction calls as [|[name_ args] calls IH]; intros fs Ha; [done|].
  cbn [foldl fst snd].
  assert (anchored self (execute_tool self name_ args fs).2 = true) as Ha'.
  { apply (anchored_frame self fs); [done|]. intros q' Hq'.
    by apply execute_tool_confined. }
  destruct (IH _ Ha') as [-> Hanch]. split; [|done].
  by apply execute_tool_confined.
Qed.

Lemma tool_calls_stay_inside_witness :
  let calls := [(lit "write_file", lit "'../etc/passwd', 'x'");
                (lit "move_file", lit "a.txt, /etc/passwd");
                (lit "delete_file", lit ".")] in
  run_calls (H:=posix_env) box calls shared_host !! [lit "etc"; lit "passwd"]
  = Some (NFile [114]%N file_meta)
  ∧ run_calls (H:=posix_env) box calls shared_host !! [lit "box"] = None.
Proof.
  split.
  - rewrite (proj1 (tool_calls_stay_inside (H:=posix_env) box _ shared_host
                      [lit "etc"; lit "passwd"] eq_refl eq_refl)).
    reflexivity.
  - vm_compute. reflexivity.
Defined.

(** ** Moving *)

Section Moving.
Context `{Env}.
Variable self : MCPFilesystemServer.

(** The directories made for the destination of a move. *)
Lemma mkdir_parent_ok (fs : fsys) (d : path) :
  tree fs = true → OS.blocked fs d = false →
  ∃ fs0, OS.mkdir_parents (parent d) fs = (inr tt, fs0)
         ∧ (∀ q, fs0 !! q = with_dirs fs (OS.ancestors d) q)
         ∧ (∀ a, a ∈ OS.ancestors d → OS.is_dir fs0 a = true).
Proof.
  intros Ht Hb. destruct (tree_spec fs Ht) as [Hroot _].
  pose proof (proj1 (blocked_false fs d) Hb) as Hclear.
  assert (∀ fs0, (∀ q, fs0 !! q = with_dirs fs (OS.ancestors d) q) →
                 ∀ a, a ∈ OS.ancestors d → OS.is_dir fs0 a = true) as Hdirs.
  { intros fs0 Hfs0 a Ha. unfold OS.is_dir. rewrite Hfs0.
    by destruct (with_dirs_dirs fs (OS.ancestors d) d a Hb Ha Ha) as [m ->]. }
  destruct d as [|c d _] using rev_ind.
  - assert (∀ q, fs !! q = with_dirs fs (OS.ancestors []) q) as Hq.
    { intros q. unfold with_dirs. destruct (fs !! q); [done|].
      rewrite decide_False; [done|]. apply not_elem_of_nil. }
    exists fs. split; [|split; [done | by apply Hdirs]].
    unfold OS.mkdir_parents. cbn. by destruct (is_dir_exists _ _ Hroot) as [m ->].
  - rewrite parent_snoc. rewrite ancestors_snoc in *.
    destruct (mkdir_parents_ok fs d Ht) as (fs0 & Hmk & Hfs0).
    { apply blocked_false. intros q Hq. apply Hclear. set_solver. }
    { apply Hclear. set_solver. }
    exists fs0. split; [done|]. split; [done|]. by apply Hdirs.
Qed.

Lemma rename_file_ok (fs0 : fsys) (s t : path) (bs : list N) (m : meta) :
  fs0 !! s = Some (NFile bs m) → fs0 !! t = None → t ≠ [] →
  (∀ a, a ∈ OS.ancestors t → OS.is_dir fs0 a = true) →
  Shutil.os_rename s t fs0 = Some (<[t := NFile bs m]> (delete s fs0)).
Proof.
  intros Hs Ht Hne Hanc. unfold Shutil.os_rename. rewrite Hs.
  rewrite decide_False by congruence.
  assert (OS.blocked fs0 t = false) as ->.
  { apply blocked_false. intros a Ha. right. by apply Hanc. }
  assert (OS.is_dir fs0 (parent t) = true) as ->.
  { apply Hanc. rewrite (path_snoc t Hne) at 2. rewrite ancestors_snoc. set_solver. }
  cbn [orb negb]. by rewrite Ht.
Qed.

Lemma with_dirs_self (fs : fsys) (d : path) :
  with_dirs fs (OS.ancestors d) d = fs !! d.
Proof.
  unfold with_dirs. destruct (fs !! d); [done|].
  by rewrite decide_False by apply not_ancestor_self.
Qed.

Lemma with_dirs_longer (fs : fsys) (d t : path) :
  fs !! t = None → length d ≤ length t → with_dirs fs (OS.ancestors d) t = None.
Proof.
  intros Ht Hl. unfold with_dirs. rewrite Ht.
  rewrite decide_False; [done|]. intros Hin%ancestors_shorter. lia.
Qed.

End Moving.

(** X14.  Moving a regular file.  In a tree, with both paths inside the
    sandbox, no file among the ancestors of the destination and nothing
    yet at the place where the file is to land (the destination itself,
    or the source's name inside it when the destination is a
    directory), [move_file] succeeds: a regular file with the same bytes
    is at the landing place, the source is gone, missing
    ancestors of the destination are now directories, and everything
    else is as it was.  The result names the destination as given, also
    when the file landed inside it. *)
Theorem move_file_relocates `{Env} (self : MCPFilesystemServer)
    (source destination : str) (s d : path) (fs : fsys) (bs : list N) (m : meta) :
  tree fs = true →
  _get_safe_path self source = inr s →
  _get_safe_path self destination = inr d →
  fs !! s = Some (NFile bs m) →
  OS.blocked fs d = false →
  fs !! landing fs s d = None →
  let (r, fs1) := move_file self source destination fs in
  r = moved_result s d
  ∧ (∃ m', fs1 !! landing fs s d = Some (NFile bs m'))
  ∧ fs1 !! s = None
  ∧ ∀ q, q ≠ s → q ≠ landing fs s d → fs1 !! q = with_dirs fs (OS.ancestors d) q.
Proof.
  intros Ht Es Ed Hs Hb Hland.
  destruct (mkdir_parent_ok fs d Ht Hb) as (fs0 & Hmk & Hfs0 & Hdirs).
  destruct (tree_spec fs Ht) as [Hroot _].
  set (t := landing fs s d) in *.
  assert (s ≠ t) as Hst by congruence.
  assert (fs0 !! s = Some (NFile bs m)) as Hs0.
  { rewrite Hfs0. unfold with_dirs. by rewrite Hs. }
  assert (fs0 !! d = fs !! d) as Hd0 by (rewrite Hfs0; apply with_dirs_self).
  assert (OS.is_dir fs0 d = OS.is_dir fs d) as Hdd by (unfold OS.is_dir; by rewrite Hd0).
  assert (Shutil.move s d fs0 = (inr tt, <[t := NFile bs m]> (delete s fs0))) as Hmove.
  { unfold Shutil.move. rewrite Hdd. subst t. unfold landing in *.
    destruct (OS.is_dir fs d) eqn:Edir.
    - rewrite decide_False.
      2:{ intros ->. unfold OS.is_dir in Edir. by rewrite Hs in Edir. }
      assert (fs0 !! (d ++ [name s]) = None) as Ht0.
      { rewrite Hfs0. apply with_dirs_longer; [done|]. rewrite length_app. lia. }
      unfold OS.exists_. rewrite Ht0. unfold Shutil.rename_or_copy.
      rewrite (rename_file_ok fs0 s (d ++ [name s]) bs m); [done..| |].
      + by destruct d.
      + intros a. rewrite ancestors_snoc.
        intros [Ha| ->%list_elem_of_singleton]%elem_of_app; [by apply Hdirs|].
        by rewrite Hdd.
    - assert (fs0 !! d = None) as Ht0 by by rewrite Hd0.
      unfold Shutil.rename_or_copy.
      rewrite (rename_file_ok fs0 s d bs m); [done..| |done].
      intros ->. apply is_dir_exists in Hroot as [? ?]. congruence. }
  unfold move_file. run_guarded Es. rewrite Ed. unfold OS.exists_. rewrite Hs.
  cbn [negb]. rewrite Hmk, Hmove.
  split; [done|]. split; [exists m; by rewrite lookup_insert_eq|]. split.
  - by rewrite lookup_insert_ne, lookup_delete_eq.
  - intros q Hqs Hqt. by rewrite lookup_insert_ne, lookup_delete_ne.
Qed.

Lemma move_file_relocates_witness :
  let (r, fs1) := move_file (H:=posix_env) box (lit "notes.txt") (lit "pics") gallery in
  r = moved_result [lit "box"; lit "notes.txt"] [lit "box"; lit "pics"]
  ∧ (∃ m', fs1 !! [lit "box"; lit "pics"; lit "notes.txt"] = Some (NFile [110]%N m'))
  ∧ fs1 !! [lit "box"; lit "notes.txt"] = None.
Proof.
  pose proof (move_file_relocates (H:=posix_env) box (lit "notes.txt") (lit "pics")
                [lit "box"; lit "notes.txt"] [lit "box"; lit "pics"] gallery
                [110]%N file_meta eq_refl eq_refl eq_refl eq_refl eq_refl eq_refl) as Hw.
  destruct (move_file (H:=posix_env) box (lit "notes.txt") (lit "pics") gallery)
    as [r fs1].
  destruct Hw as (Hr & Ht & Hs & _). split; [exact Hr|]. split; [exact Ht | exact Hs].
Defined.

(** X15.  A move that fails is not undone.  Moving a directory to a place
    below itself fails with the error of [shutil.move], but by then the
    missing directories on the way to the destination have been created,
    inside the directory that was to be moved, and they stay: the state
    after the failed call is the state before it with these
    directories added. *)
Theorem move_file_into_itself `{Env} (self : MCPFilesystemServer)
    (source destination : str) (s d : path) (fs : fsys) :
  tree fs = true →
  _get_safe_path self source = inr s →
  _get_safe_path self destination = inr d →
  OS.is_dir fs s = true →
  is_relative_to d s = true →
  fs !! d = None →
  OS.blocked fs d = false →
  let (r, fs1) := move_file self source destination fs in
  r = error_payload (into_itself s d)
  ∧ (∀ q, fs1 !! q = with_dirs fs (OS.ancestors d) q)
  ∧ (fs !! parent d = None → fs1 !! parent d = Some (NDir new_dir_meta)).
Proof.
  intros Ht Es Ed Hs Hu%is_relative_to_prefix Hd Hb.
  destruct (mkdir_parent_ok fs d Ht Hb) as (fs0 & Hmk & Hfs0 & Hdirs).
  destruct (tree_spec fs Ht) as [Hroot _].
  destruct (is_dir_exists _ _ Hs) as [ms Hms].
  assert (d ≠ []) as Hne.
  { intros ->. apply is_dir_exists in Hroot as [? ?]. congruence. }
  assert (fs0 !! s = Some (NDir ms)) as Hs0.
  { rewrite Hfs0. unfold with_dirs. by rewrite Hms. }
  assert (fs0 !! d = None) as Hd0 by (by rewrite Hfs0, with_dirs_self).
  assert (Shutil.move s d fs0 = (inl (ShutilError (into_itself s d)), fs0)) as Hmove.
  { unfold Shutil.move, OS.is_dir. rewrite Hd0.
    unfold Shutil.rename_or_copy, Shutil.os_rename. rewrite Hs0.
    rewrite decide_False by congruence.
    assert (OS.blocked fs0 d = false) as ->.
    { apply blocked_false. intros a Ha. right. by apply Hdirs. }
    assert (OS.is_dir fs0 (parent d) = true) as ->.
    { apply Hdirs. rewrite (path_snoc d Hne) at 2. rewrite ancestors_snoc. set_solver. }
    cbn [orb negb]. rewrite bool_decide_eq_true_2 by done.
    unfold OS.is_dir. by rewrite Hs0. }
  unfold move_file. run_guarded Es. rewrite Ed. unfold OS.exists_. rewrite Hms.
  cbn [negb]. rewrite Hmk, Hmove.
  split; [done|]. split; [done|]. intros Hp. rewrite Hfs0. unfold with_dirs.
  rewrite Hp, decide_True; [done|].
  rewrite (path_snoc d Hne) at 2. rewrite ancestors_snoc. set_solver.
Qed.

Lemma move_file_into_itself_witness :
  let (r, fs1) := move_file (H:=posix_env) box (lit "pics") (lit "pics/old/pics") gallery in
  r = error_payload
        (lit "Cannot move a directory '/box/pics' into itself '/box/pics/old/pics'.")
  ∧ gallery !! [lit "box"; lit "pics"; lit "old"] = None
  ∧ fs1 !! [lit "box"; lit "pics"; lit "old"] = Some (NDir dir_meta).
Proof.
  pose proof (move_file_into_itself (H:=posix_env) box (lit "pics") (lit "pics/old/pics")
                [lit "box"; lit "pics"] [lit "box"; lit "pics"; lit "old"; lit "pics"]
                gallery eq_refl eq_refl eq_refl eq_refl eq_refl eq_refl eq_refl) as Hw.
  destruct (move_file (H:=posix_env) box (lit "pics") (lit "pics/old/pics") gallery)
    as [r fs1].
  destruct Hw as (Hr & _ & Hp). split; [exact Hr|]. split; [reflexivity|].
  apply Hp. reflexivity.
Defined.

(** ** File information *)

Section Info.
Context `{Env}.

Lemma oct_digits_acc (fuel : nat) (n : N) (acc : str) :
  ∃ pre, oct_digits fuel n acc = pre ++ acc.
Proof.
  revert n acc. induction fuel as [|fuel IH]; intros n acc; [by exists []|].
  cbn [oct_digits]. destruct (n <? 8)%N.
  - by exists [(48 + n mod 8)%N].
  - destruct (IH (n / 8)%N ((48 + n mod 8)%N :: acc)) as [pre ->].
    exists (pre ++ [(48 + n mod 8)%N]). by rewrite <- app_assoc.
Qed.

Lemma last3_oct (mode : N) : (64 ≤ mode)%N → last3 (oct mode) = octal3 mode.
Proof.
  intros Hm. unfold oct.
  assert (6 ≤ N.log2 mode)%N as Hlog by (apply (N.log2_le_mono 64); lia).
  destruct (N.to_nat (N.log2 mode)) as [|[|f]] eqn:Ef; [lia..|].
  cbn [oct_digits].
  assert ((mode <? 8)%N = false) as -> by (apply N.ltb_ge; lia).
  assert ((mode / 8 <? 8)%N = false) as ->.
  { apply N.ltb_ge. apply N.div_le_lower_bound; lia. }
  rewrite N.Div0.div_div. change (8 * 8)%N with 64%N.
  assert (∃ pre, (if (mode / 64 <? 8)%N
                  then [(48 + (mode / 64) mod 8)%N; (48 + (mode / 8) mod 8)%N;
                        (48 + mode mod 8)%N]
                  else oct_digits f (mode / 64 / 8)
                         [(48 + (mode / 64) mod 8)%N; (48 + (mode / 8) mod 8)%N;
                          (48 + mode mod 8)%N])
                 = pre ++ octal3 mode) as [pre ->].
  { destruct (mode / 64 <? 8)%N; [by exists []|]. apply oct_digits_acc. }
  unfold last3. rewrite app_assoc, length_app. cbn [octal3 length].
  replace (length (lit "0o" ++ pre) + 3 - 3) with (length (lit "0o" ++ pre)) by lia.
  by rewrite drop_app_length.
Qed.

End Info.

(** X16.  [get_file_info] on an entry of the sandbox.  The result gives
    the resolved path and the last component, [directory] for a
    directory and [file] for anything else, the size that [stat] has, and
    as permissions the last three octal digits of the mode, that is the
    nine permission bits, for every mode that has a bit above them set
    (as the mode of every entry has, in its file type).  The file system
    is unchanged. *)
Theorem get_file_info_reports `{Env} (self : MCPFilesystemServer) (path_ : str)
    (sp : path) (fs : fsys) (n : node) :
  _get_safe_path self path_ = inr sp →
  fs !! sp = Some n →
  (64 ≤ st_mode (OS.node_meta n))%N →
  get_file_info self path_ fs = (info_result sp n, fs).
Proof.
  intros E Hn Hm. unfold get_file_info. run_guarded E.
  unfold OS.exists_, OS.stat, OS.is_dir. rewrite Hn. cbn [negb]. rewrite Hn.
  unfold mret, M_ret, info_result. cbn [OS.stat_node OS.r_mode OS.r_size OS.r_ctime
                                        OS.r_mtime].
  rewrite last3_oct by done. by destruct n.
Qed.

Lemma get_file_info_reports_witness :
  (64 ≤ st_mode file_meta)%N
  ∧ Dict.get (lit "permissions")
      (get_file_info (H:=posix_env) box (lit "a.jpg") gallery).1
    = Some (VScalar (SStr (lit "644")))
  ∧ Dict.get (lit "type") (get_file_info (H:=posix_env) box (lit "b.jpg") gallery).1
    = Some (VScalar (SStr (lit "file"))).
Proof.
  assert (64 ≤ st_mode file_meta)%N as Hm by (vm_compute; discriminate).
  split; [exact Hm|]. split.
  - rewrite (get_file_info_reports (H:=posix_env) box (lit "a.jpg")
               [lit "box"; lit "a.jpg"] gallery (NFile [65]%N file_meta)
               eq_refl eq_refl Hm).
    reflexivity.
  - rewrite (get_file_info_reports (H:=posix_env) box (lit "b.jpg")
               [lit "box"; lit "b.jpg"] gallery (NSock file_meta) eq_refl eq_refl Hm).
    reflexivity.
Defined.

(** ** The guard, completed *)



(** * Further properties of the agent *)

(** ** The arguments of a tool call *)

Section ParseArgs.

Lemma split_sep_free (sep : N) (w : str) : sep ∉ w → Str.split sep w = [w].
Proof.
  induction w as [|c w IH]; intros Hw; [done|]. cbn [Str.split].
  destruct (N.eqb_spec c sep) as [->|Hne]; [set_solver|].
  rewrite IH by set_solver. done.
Qed.

Lemma split_app (sep : N) (w r : str) :
  sep ∉ w → Str.split sep (w ++ sep :: r) = w :: Str.split sep r.
Proof.
  induction w as [|c w IH]; intros Hw; cbn [app Str.split].
  - by rewrite N.eqb_refl.
  - destruct (N.eqb_spec c sep) as [->|Hne]; [set_solver|].
    rewrite IH by set_solver. done.
Qed.

Lemma split_length (s : str) : length (Str.split comma s) = S (commas s).
Proof.
  unfold commas. induction s as [|c s IH]; [done|]. cbn [Str.split List.filter].
  rewrite (N.eqb_sym comma c). destruct (N.eqb c comma); cbn [length]; [by rewrite IH|].
  destruct (Str.split comma s); cbn [length] in *; [done|]. exact IH.
Qed.

Lemma lstrip_nil (s : str) : Str.lstrip s = [] → forallb Str.isspace s = true.
Proof.
  induction s as [|c s IH]; [done|]. cbn [Str.lstrip forallb].
  destruct (Str.isspace c); [done|]. discriminate.
Qed.

Lemma strip_nil (s : str) : Str.strip s = [] → forallb Str.isspace s = true.
Proof.
  unfold Str.strip, Str.rstrip. intros E.
  apply (f_equal (@rev N)) in E. rewrite rev_involutive in E. cbn in E.
  apply lstrip_nil in E. apply lstrip_nil.
  destruct (Str.lstrip s) as [|c s'] eqn:El; [done|].
  pose proof (lstrip_head s c s' El) as Hc.
  rewrite forallb_forall in E. rewrite (E c) in Hc; [done|].
  apply in_rev. rewrite rev_involutive. by left.
Qed.

Lemma parse_tool_arguments_not_nil (s : str) : parse_tool_arguments s ≠ [].
Proof.
  unfold parse_tool_arguments. destruct (Str.strip s); [done|].
  intros E%(f_equal length). rewrite length_map, split_length in E. done.
Qed.

Lemma strip_quoted (q : N) (w : str) :
  Str.isspace q = false → Str.strip (quoted q w) = quoted q w.
Proof.
  intros Hq. unfold Str.strip, Str.rstrip, quoted. cbn [Str.lstrip]. rewrite Hq.
  change (q :: w ++ [q]) with ([q] ++ w ++ [q]).
  rewrite !rev_app_distr. cbn [rev app Str.lstrip]. rewrite Hq.
  change (q :: rev w ++ [q]) with ([q] ++ rev w ++ [q]).
  rewrite !rev_app_distr. cbn [rev app]. by rewrite rev_involutive.
Qed.

Lemma parse_tool_arguments_unfold (s : str) :
  parse_tool_arguments s
  = match Str.strip s with
    | [] => [lit "."]
    | _ :: _ => map unquote (Str.split comma s)
    end.
Proof. done. Qed.

Lemma unquote_quoted (q : N) (w : str) :
  Re.is_quote q = true → unquote (quoted q w) = w.
Proof.
  intros Hq. unfold unquote. cbv zeta. rewrite strip_quoted by by apply quote_not_space.
  assert (∀ q', Str.starts_with (quoted q w) [q'] && Str.ends_with (quoted q w) [q']
                = N.eqb q q') as E.
  { intros q'. unfold Str.ends_with, quoted. rewrite starts_with_one.
    change (q :: w ++ [q]) with ([q] ++ w ++ [q]). rewrite !rev_app_distr.
    cbn [rev app]. rewrite starts_with_one. apply andb_diag. }
  rewrite !E. apply is_quote_spec in Hq as [-> | ->]; cbn [N.eqb Pos.eqb orb];
    unfold slice_1_m1, quoted; cbn [tail]; apply removelast_last.
Qed.

Lemma split_join (l : list str) (w : str) :
  Forall (fun w => comma ∉ w) (w :: l) →
  Str.split comma (Str.join (lit ", ") (w :: l)) = w :: map (cons 32%N) l.
Proof.
  revert w. induction l as [|w' l IH]; intros w Hl.
  - cbn [Str.join map]. apply split_sep_free. by inversion Hl.
  - inversion Hl as [|? ? Hw Hl']; subst.
    change (Str.join (lit ", ") (w :: w' :: l))
      with (w ++ comma :: 32%N :: Str.join (lit ", ") (w' :: l)).
    rewrite split_app by done. cbn [Str.split].
    change (N.eqb 32 comma) with false. cbv iota. by rewrite IH.
Qed.

End ParseArgs.

(** X18.  [parse_tool_arguments] gives back what was written as a list of
    quoted words.  For words without a comma, each put between single or
    between double quotes and the whole joined with a comma and a space,
    the parsed arguments are the words, whatever else they contain.  The
    list is never empty: it is [.] alone for a blank string, and has one
    element more than the string has commas otherwise, so a name with a
    comma is always taken apart. *)
Theorem parse_tool_arguments_round_trip (q : N) (w : str) (l : list str) :
  Re.is_quote q = true →
  Forall (fun w => comma ∉ w) (w :: l) →
  parse_tool_arguments (Str.join (lit ", ") (map (quoted q) (w :: l))) = w :: l
  ∧ ∀ s, parse_tool_arguments s ≠ []
         ∧ (Str.strip s = [] → parse_tool_arguments s = [lit "."])
         ∧ (Str.strip s ≠ [] → length (parse_tool_arguments s) = S (commas s)).
Proof.
  intros Hq Hl. split.
  - rewrite parse_tool_arguments_unfold.
    destruct (Str.strip (Str.join (lit ", ") (map (quoted q) (w :: l)))) eqn:Es.
    { apply strip_nil in Es. cbn [map] in Es.
      assert (In q (Str.join (lit ", ") (quoted q w :: map (quoted q) l))) as Hin.
      { destruct (map (quoted q) l); cbn [Str.join quoted]; by left. }
      rewrite forallb_forall in Es. specialize (Es q Hin).
      by rewrite (quote_not_space q Hq) in Es. }
    assert (comma ≠ q) as Hcq.
    { intros <-. by vm_compute in Hq. }
    cbn [map]. rewrite split_join.
    2:{ change (quoted q w :: map (quoted q) l) with (map (quoted q) (w :: l)).
        apply Forall_fmap. eapply Forall_impl; [exact Hl|]. cbn. intros x Hx.
        unfold quoted. set_solver. }
    cbn [map]. rewrite (unquote_quoted q w Hq). f_equal.
    rewrite !map_map. rewrite <- (map_id l) at 2. apply map_ext. intros x.
    rewrite <- (unquote_quoted q x Hq) at 2. unfold unquote, Str.strip.
    by cbn [Str.lstrip].
  - intros s. split; [apply parse_tool_arguments_not_nil|].
    unfold parse_tool_arguments. split; intros E.
    + by rewrite E.
    + destruct (Str.strip s); [done|]. by rewrite length_map, split_length.
Qed.

Lemma parse_tool_arguments_round_trip_witness :
  Re.is_quote 39 = true
  ∧ parse_tool_arguments (lit "'my file.txt', 'it's here'")
    = [lit "my file.txt"; lit "it's here"].
Proof.
  split; [reflexivity|].
  assert (Forall (fun w => comma ∉ w) [lit "my file.txt"; lit "it's here"]) as Hl.
  { repeat constructor; vm_compute; intros Hin; repeat (inversion Hin as [|? ? ? Hin']; subst;
      clear Hin; rename Hin' into Hin); inversion Hin. }
  exact (proj1 (parse_tool_arguments_round_trip 39 _ _ eq_refl Hl)).
Defined.

(** ** The dispatch of [execute_tool] *)

Section Dispatch.
Context `{Env}.
Variable self : MCPFilesystemServer.

Lemma try_except_call {A} (f : fsys → A * fsys) (handler : exn → A) (fs : fsys) :
  try_except (call f) handler fs = f fs.
Proof. unfold try_except, call. by destruct (f fs). Qed.

Lemma execute_unary (name_ : str) (f : str → fsys → payload * fsys)
    (tool_args : str) (fs : fsys) :
  List.find (fun t => Str.eqb (tool_name t) name_) (tools self)
  = Some {| tool_name := name_; tool_fn := Unary f |} →
  Str.eqb name_ (lit "write_file") = false →
  Str.eqb name_ (lit "move_file") = false →
  execute_tool self name_ tool_args fs
  = f (List.hd (lit ".") (parse_tool_arguments tool_args)) fs.
Proof.
  intros Hf Hw Hm. unfold execute_tool. rewrite Hf, Hw. unfold dispatch.
  rewrite Hw, Hm. cbn [andb].
  pose proof (parse_tool_arguments_not_nil tool_args) as Hne.
  destruct (parse_tool_arguments tool_args) as [|a l]; [done|].
  cbn [length Nat.leb nth List.hd]. unfold apply1. cbn [tool_fn].
  apply try_except_call.
Qed.

Lemma find_unknown (name_ : str) :
  existsb (Str.eqb name_) (valid_tools self) = false →
  List.find (fun t => Str.eqb (tool_name t) name_) (tools self) = None.
Proof.
  unfold valid_tools. intros Hn.
  destruct (List.find _ (tools self)) as [t|] eqn:Ef; [|done].
  apply find_some in Ef as [Hin Heq]. apply not_true_iff_false in Hn.
  destruct Hn. apply existsb_exists. exists (tool_name t).
  split; [by apply in_map|]. unfold Str.eqb in *.
  apply bool_decide_eq_true. by apply bool_decide_eq_true in Heq.
Qed.

End Dispatch.

(** X19.  For the five tools with one parameter [execute_tool] calls the
    operation with the first parsed argument and with nothing else: text
    after a comma is dropped without a word, and blank arguments stand
    for the path [.].  A name that is not one of the seven gives the
    error payload that says the tool was not found, with the file system
    untouched. *)
Theorem execute_tool_uses_first_argument `{Env} (self : MCPFilesystemServer)
    (tool_args : str) (fs : fsys) :
  let first := List.hd (lit ".") (parse_tool_arguments tool_args) in
  execute_tool self (lit "list_directory") tool_args fs = list_directory self first fs
  ∧ execute_tool self (lit "read_file") tool_args fs = read_file self first fs
  ∧ execute_tool self (lit "create_directory") tool_args fs
    = create_directory self first fs
  ∧ execute_tool self (lit "delete_file") tool_args fs = delete_file self first fs
  ∧ execute_tool self (lit "get_file_info") tool_args fs = get_file_info self first fs
  ∧ (Str.strip tool_args = [] → first = lit ".")
  ∧ ∀ name_, existsb (Str.eqb name_) (valid_tools self) = false →
             execute_tool self name_ tool_args fs
             = (error_payload (lit "Tool '" ++ name_ ++ lit "' not found"), fs).
Proof.
  cbv zeta. repeat split; try (by apply execute_unary).
  - intros E. by rewrite parse_tool_arguments_unfold, E.
  - intros name_ Hn. unfold execute_tool. by rewrite find_unknown.
Qed.

(** X20.  A move needs exactly two parsed arguments.  With two,
    [execute_tool] calls [move_file] on them.  With one, or with three or
    more, which is what a comma inside a name produces, it calls the
    operation with the first argument alone; the call raises
    [TypeError] for the missing destination, and the result is the error
    payload with that text, the file system untouched. *)
Theorem execute_tool_move_needs_two `{Env} (self : MCPFilesystemServer)
    (tool_args : str) (fs : fsys) :
  execute_tool self (lit "move_file") tool_args fs
  = match parse_tool_arguments tool_args with
    | [source; destination] => move_file self source destination fs
    | _ => (error_payload missing_destination, fs)
    end.
Proof.
  unfold execute_tool.
  change (List.find _ (tools self)) with
    (Some {| tool_name := lit "move_file";
             tool_fn := Binary missing_destination (move_file self) |}).
  change (Str.eqb (lit "move_file") (lit "write_file")) with false. cbv iota.
  unfold dispatch.
  change (Str.eqb (lit "move_file") (lit "write_file")) with false.
  change (Str.eqb (lit "move_file") (lit "move_file")) with true.
  cbn [andb].
  destruct (parse_tool_arguments tool_args) as [|a [|b [|c l]]];
    cbn [length Nat.eqb Nat.leb nth]; unfold apply1, apply2; cbn [tool_fn];
    try done.
  apply try_except_call.
Qed.

(** ** What the patterns extract *)

Section Engine.
Context {R : Type}.
Implicit Types (k : nat → str → Re.groups → option R).

Lemma run_lits (w : str) r k pos s g :
  Re.run (Re.lits w ;; r)%re k pos s g
  = if Str.starts_with s w then Re.run r k (pos + length w) (drop (length w) s) g
    else None.
Proof.
  revert pos s. induction w as [|c w IH]; intros pos s.
  - rewrite starts_with_nil. cbn [Re.lits length]. rewrite run_seq, Nat.add_0_r, drop_0.
    done.
  - cbn [Re.lits]. rewrite !run_seq, run_chr. destruct s as [|x s]; [done|].
    cbn [Str.starts_with length drop]. rewrite (N.eqb_sym c x).
    destruct (N.eqb x c); [|done]. cbn [andb].
    rewrite <- run_seq, IH. by rewrite Nat.add_succ_r.
Qed.

Lemma starts_with_app (s w : str) :
  Str.starts_with s w = true → s = w ++ drop (length w) s.
Proof.
  revert s. induction w as [|c w IH]; intros s Hs; [by rewrite drop_0|].
  destruct s as [|x s]; [done|]. cbn [Str.starts_with] in Hs.
  apply andb_true_iff in Hs as [->%N.eqb_eq Hs]. cbn [app length drop]. f_equal.
  by apply IH.
Qed.

(** What a star of one character class consumes is of the class. *)
Lemma star_chr_sound (greedy : bool) (p : N → bool) k pos s g x :
  Re.run (Re.Star greedy (Re.Chr p)) k pos s g = Some x →
  ∃ w s', s = w ++ s' ∧ Forall (fun c => p c = true) w
          ∧ k (pos + length w) s' g = Some x.
Proof.
  revert pos. induction s as [|c s IH]; intros pos Hrun.
  - rewrite run_star_nil in Hrun. exists [], []. by rewrite Nat.add_0_r.
  - assert (k pos (c :: s) g = Some x
            ∨ (p c = true ∧ Re.run (Re.Star greedy (Re.Chr p)) k (S pos) s g = Some x))
      as [Hk|[Hc Hmore]].
    { destruct greedy.
      - rewrite run_star_chr_greedy in Hrun. destruct (p c); [|by left].
        destruct (Re.run _ k (S pos) s g); [by right | by left].
      - rewrite run_star_chr_lazy in Hrun. destruct (k pos (c :: s) g); [by left|].
        destruct (p c); [by right | done]. }
    + exists [], (c :: s). by rewrite Nat.add_0_r.
    + destruct (IH _ Hmore) as (w & s' & -> & Hw & Hk).
      exists (c :: w), s'. split; [done|]. split; [by constructor|].
      cbn [length]. by rewrite Nat.add_succ_r.
Qed.

(** A repeated class in a group: the group is what was consumed, and is
    not empty. *)
Lemma group_plus_sound (n : nat) (p : N → bool) k pos s g x :
  Re.run (Re.Group n (Re.plus (Re.Chr p))) k pos s g = Some x →
  ∃ w s', s = w ++ s' ∧ w ≠ [] ∧ Forall (fun c => p c = true) w
          ∧ k (pos + length w) s' ((n, w) :: g) = Some x.
Proof.
  unfold Re.plus. rewrite run_group, run_seq, run_chr.
  destruct s as [|c s]; [done|]. destruct (p c) eqn:Ec; [|done].
  intros (w & s' & -> & Hw & Hk)%star_chr_sound.
  exists (c :: w), s'. split; [done|]. split; [done|]. split; [by constructor|].
  cbn beta in Hk. cbn [length]. rewrite Nat.add_succ_r.
  replace (S pos + length w - pos) with (S (length w)) in Hk by lia.
  change (c :: w ++ s') with ((c :: w) ++ s') in Hk.
  rewrite (take_app_length' (c :: w)) in Hk by done. exact Hk.
Qed.

(** A pattern without groups hands the groups on as they are. *)
Lemma run_no_groups r k pos s g x :
  no_groups r = true → Re.run r k pos s g = Some x →
  ∃ pos' s', k pos' s' g = Some x.
Proof.
  revert k pos s g x. induction r as [|p|r1 IH1 r2 IH2|r1 IH1|greedy r1 IH1|n r1 IH1|n| |];
    intros k pos s g x Hng Hrun.
  - eauto.
  - rewrite run_chr in Hrun. destruct s as [|c s]; [done|]. destruct (p c); [eauto|done].
  - cbn [no_groups] in Hng. apply andb_true_iff in Hng as [H1 H2].
    rewrite run_seq in Hrun. destruct (IH1 _ _ _ _ _ H1 Hrun) as (pos' & s' & Hk).
    by apply (IH2 _ _ _ _ _ H2 Hk).
  - rewrite run_opt in Hrun. cbn [no_groups] in Hng.
    destruct (Re.run r1 k pos s g) eqn:E; [|eauto].
    injection Hrun as ->. by apply (IH1 _ _ _ _ _ Hng E).
  - cbn [no_groups] in Hng. cbn [Re.run] in Hrun.
    set (fuel := length s) in Hrun at 1. clearbody fuel. revert pos s g Hrun.
    induction fuel as [|fuel IHf]; intros pos s g Hrun.
    + destruct greedy; [eauto|]. destruct (k pos s g) eqn:E; [|done].
      simplify_eq. eauto.
    + match type of Hrun with
      | context [Re.run r1 ?k' pos s g] =>
          destruct (Re.run r1 k' pos s g) as [y|] eqn:Em
      end.
      * assert (y = x ∨ k pos s g = Some x) as [->|Hk].
        { destruct greedy; [left; congruence|].
          destruct (k pos s g); [right | left]; congruence. }
        -- destruct (IH1 _ _ _ _ _ Hng Em) as (pos' & s' & Hk).
           cbn beta in Hk. destruct (length s' <? length s); [|done].
           by apply (IHf _ _ _ Hk).
        -- eauto.
      * destruct greedy; [eauto|]. destruct (k pos s g) eqn:E; [|done].
        simplify_eq. eauto.
  - done.
  - cbn [Re.run] in Hrun. destruct (Re.group n g); [|done].
    destruct (Str.starts_with s l); [eauto|done].
  - cbn [Re.run] in Hrun. destruct (Nat.eqb pos 0); [eauto|done].
  - cbn [Re.run] in Hrun. destruct s as [|c [|c' s]]; [eauto| |done].
    destruct (N.eqb c 10); [eauto|done].
Qed.

End Engine.

Section Extract.
Context `{Env}.

Lemma search_from_sound (r : Re.regex) (pos : nat) (s : str) (g : Re.groups) :
  Re.search_from r pos s = Some g →
  ∃ pre s', s = pre ++ s' ∧ Re.run r Re.accept (pos + length pre) s' [] = Some g.
Proof.
  revert pos. induction s as [|c s IH]; intros pos; cbn [Re.search_from].
  - destruct (Re.run r Re.accept pos [] []) eqn:E; [|done]. intros [= ->].
    exists [], []. by rewrite Nat.add_0_r.
  - destruct (Re.run r Re.accept pos (c :: s) []) eqn:E.
    + intros [= ->]. exists [], (c :: s). by rewrite Nat.add_0_r.
    + intros (pre & s' & -> & Hrun)%IH. exists (c :: pre), s'. split; [done|].
      cbn [length]. by rewrite Nat.add_succ_r.
Qed.

(** The lazy group before the closing parenthesis: it ends at the first
    one. *)
Lemma lazy_until_paren (g : Re.groups) (w : str) (pos : nat) (s : str) (x : Re.groups) :
  lazy_from (fun _ => true)
    (fun w pos s => Re.run (Re.Chr (N.eqb 41)) Re.accept pos s ((2, w) :: g)) w pos s
  = Some x →
  ∃ a post, s = a ++ (rparen :: post) ∧ (rparen ∉ a) ∧ x = (2, w ++ a) :: g.
Proof.
  revert w pos. induction s as [|c s IH]; intros w pos; cbn [lazy_from]; [done|].
  rewrite run_chr. destruct (N.eqb_spec 41 c) as [<-|Hne].
  - intros [= <-]. exists [], s. rewrite app_nil_r. split; [done|]. split; [|done].
    apply not_elem_of_nil.
  - intros (a & post & -> & Ha & ->)%IH. exists (c :: a), post.
    split; [done|]. split; [set_solver|]. by rewrite <- app_assoc.
Qed.

Lemma call_pattern_sound (kw : str) (pos : nat) (s : str) (g : Re.groups) :
  Re.run (call_pattern kw) Re.accept pos s [] = Some g →
  ∃ sp1 name_ sp2 a post,
    s = kw ++ sp1 ++ name_ ++ sp2 ++ (lparen :: a ++ (rparen :: post))
    ∧ Forall (fun c => Str.isspace c = true) (sp1 ++ sp2)
    ∧ name_ ≠ [] ∧ Forall (fun c => Re.is_word c = true) name_
    ∧ (rparen ∉ a)
    ∧ g = [(2, a); (1, name_)].
Proof.
  unfold call_pattern. rewrite run_lits.
  destruct (Str.starts_with s kw) eqn:Ekw; [|done].
  pose proof (starts_with_app s kw Ekw) as Es. clear Ekw. revert Es.
  generalize (drop (length kw) s). intros s1 ->. rewrite run_seq. unfold Re.spaces, Re.space at 1.
  intros (sp1 & s2 & -> & Hsp1 & Hrun)%star_chr_sound.
  rewrite run_seq in Hrun. unfold Re.word in Hrun.
  apply group_plus_sound in Hrun as (name_ & s3 & -> & Hne & Hname & Hrun).
  rewrite run_seq in Hrun. unfold Re.space in Hrun.
  apply star_chr_sound in Hrun as (sp2 & s4 & -> & Hsp2 & Hrun).
  rewrite run_seq, run_chr in Hrun. destruct s4 as [|c s4]; [done|].
  destruct (N.eqb_spec 40 c) as [<-|]; [|done].
  rewrite run_seq in Hrun. unfold Re.dot_all in Hrun. rewrite group_star in Hrun.
  apply lazy_until_paren in Hrun as (a & post & -> & Ha & ->).
  exists sp1, name_, sp2, a, post. split; [done|]. split; [by apply Forall_app|]. done.
Qed.

Lemma strip_sublist (s : str) : ∃ k1 k2, s = k1 ++ Str.strip s ++ k2.
Proof.
  unfold Str.strip. destruct (lstrip_suffix s) as [k1 Hk1].
  destruct (rstrip_prefix (Str.lstrip s)) as [k2 Hk2].
  exists k1, k2. by rewrite <- Hk2.
Qed.

(** The part of a pattern of [extract_folder_name] around its group. *)
Lemma around_group_sound (before after : Re.regex) (pos : nat) (s : str)
    (g : Re.groups) :
  no_groups before = true → no_groups after = true →
  Re.run (before ;; Re.Group 1 (Re.plus Re.word) ;; after)%re Re.accept pos s [] = Some g →
  ∃ w, g = [(1, w)] ∧ w ≠ [] ∧ Forall (fun c => Re.is_word c = true) w.
Proof.
  intros Hb Ha Hrun. rewrite run_seq in Hrun.
  apply run_no_groups in Hrun as (pos1 & s1 & Hrun); [|done].
  rewrite run_seq in Hrun. unfold Re.word in Hrun.
  apply group_plus_sound in Hrun as (w & s2 & -> & Hne & Hw & Hrun).
  apply run_no_groups in Hrun as (pos2 & s3 & Hrun); [|done].
  injection Hrun as <-. by exists w.
Qed.

Lemma no_groups_lits (w : str) : no_groups (Re.lits w) = true.
Proof. induction w as [|c w IH]; [done|]. exact IH. Qed.

End Extract.

(** X21.  What [process_user_input] takes for a tool call is in the
    response, and has this form: the keyword [TOOL_CALL:] or [USE_TOOL:],
    optional spaces, the tool name, a non-empty run of word characters,
    optional spaces, an opening parenthesis, and a text without a closing
    parenthesis that a closing parenthesis follows.  The arguments are
    that text, stripped: they end at the first closing parenthesis after
    the opening one, so that arguments with a closing parenthesis of
    their own, as the code of a program has, are cut there. *)
Theorem tool_call_is_in_response `{Env} (response name_ tool_args : str) :
  tool_call_of response = Some (name_, tool_args) →
  ∃ before keyword sp1 sp2 inner after,
    response = before ++ keyword ++ sp1 ++ name_ ++ sp2
               ++ (lparen :: inner ++ (rparen :: after))
    ∧ (keyword = lit "TOOL_CALL:" ∨ keyword = lit "USE_TOOL:")
    ∧ Forall (fun c => Str.isspace c = true) (sp1 ++ sp2)
    ∧ name_ ≠ [] ∧ Forall (fun c => Re.is_word c = true) name_
    ∧ (rparen ∉ inner)
    ∧ tool_args = Str.strip inner
    ∧ rparen ∉ tool_args.
Proof.
  unfold tool_call_of, tool_call_patterns. cbn [first_match]. unfold Re.search.
  intros Hcall.
  assert (∃ keyword g, (keyword = lit "TOOL_CALL:" ∨ keyword = lit "USE_TOOL:")
                       ∧ Re.search_from (call_pattern keyword) 0 response = Some g
                       ∧ Re.group 1 g = Some name_
                       ∧ ∃ inner, Re.group 2 g = Some inner ∧ tool_args = Str.strip inner)
    as (keyword & g & Hkw & Hsearch & Hname & inner & Hinner & ->).
  { destruct (Re.search_from (call_pattern (lit "TOOL_CALL:")) 0 response) as [g|] eqn:E1.
    - exists (lit "TOOL_CALL:"), g. split; [by left|]. split; [done|].
      destruct (Re.group 1 g), (Re.group 2 g); try done.
      injection Hcall as -> <-. eauto.
    - destruct (Re.search_from (call_pattern (lit "USE_TOOL:")) 0 response) as [g|] eqn:E2;
        [|done].
      exists (lit "USE_TOOL:"), g. split; [by right|]. split; [done|].
      destruct (Re.group 1 g), (Re.group 2 g); try done.
      injection Hcall as -> <-. eauto. }
  apply search_from_sound in Hsearch as (before & s' & -> & Hrun).
  apply call_pattern_sound in Hrun
    as (sp1 & name' & sp2 & a & after & -> & Hsp & Hne & Hword & Ha & ->).
  cbn in Hname, Hinner. injection Hname as <-. injection Hinner as <-.
  exists before, keyword, sp1, sp2, a, after. repeat split; try done.
  destruct (strip_sublist a) as (k1 & k2 & Hk). intros Hin. apply Ha.
  rewrite Hk. set_solver.
Qed.

Lemma tool_call_is_in_response_witness :
  let response := lit "Here it is. TOOL_CALL: write_file('a.py', 'print(1)')" in
  tool_call_of (H:=posix_env) response = Some (lit "write_file", lit "'a.py', 'print(1")
  ∧ ∃ before keyword sp1 sp2 inner after,
      response = before ++ keyword ++ sp1 ++ lit "write_file" ++ sp2
                 ++ (lparen :: inner ++ (rparen :: after))
      ∧ (rparen ∉ inner) ∧ lit "'a.py', 'print(1" = Str.strip inner.
Proof.
  intros response.
  assert (tool_call_of (H:=posix_env) response
          = Some (lit "write_file", lit "'a.py', 'print(1")) as E by (vm_compute; reflexivity).
  split; [exact E|].
  destruct (tool_call_is_in_response (H:=posix_env) response _ _ E)
    as (before & keyword & sp1 & sp2 & inner & after & H1 & _ & _ & _ & _ & H2 & H3 & _).
  exists before, keyword, sp1, sp2, inner, after. split; [exact H1|]. split; [exact H2|].
  exact H3.
Defined.

(** X22.  The folder name that [extract_folder_name] finds in a request
    is never empty and consists of word characters only: whichever of the
    five patterns matched, its group is a non-empty run of the class
    [\w].  A folder whose name has a space, a dot or a dash in it is
    never named in full by this function. *)
Theorem extract_folder_name_is_a_word `{Env} (user_input folder_name : str) :
  extract_folder_name user_input = Some folder_name →
  folder_name ≠ [] ∧ Forall (fun c => Re.is_word c = true) folder_name.
Proof.
  unfold extract_folder_name, folder_patterns. cbn [first_match]. unfold Re.search.
  intros Hx.
  assert (∃ before after pos s g,
             no_groups before = true ∧ no_groups after = true
             ∧ Re.run (before ;; Re.Group 1 (Re.plus Re.word) ;; after)%re Re.accept pos s []
               = Some g
             ∧ Re.group 1 g = Some folder_name)
    as (before & after & pos & s & g & Hb & Ha & Hrun & Hg).
  { repeat match type of Hx with
    | context [Re.search_from ?r 0 ?t] =>
        let E := fresh "E" in
        destruct (Re.search_from r 0 t) as [g|] eqn:E;
          [apply search_from_sound in E as (pre & s' & _ & E) | clear E]
    end; [..|done].
    - exists (Re.lits (lit "list") ;; Re.Star false Re.dot ;; Re.lits (lit "in")
              ;; Re.plus Re.space)%re,
        (Re.plus Re.space ;; Re.lits (lit "folder"))%re, (0 + length pre), s', g. done.
    - exists (Re.lits (lit "list") ;; Re.Star false Re.dot)%re,
        (Re.plus Re.space ;; Re.lits (lit "folder"))%re, (0 + length pre), s', g. done.
    - exists (Re.lits (lit "in") ;; Re.plus Re.space)%re,
        (Re.plus Re.space ;; Re.lits (lit "folder"))%re, (0 + length pre), s', g. done.
    - exists (Re.lits (lit "folder") ;; Re.plus Re.space)%re, Re.Eps,
        (0 + length pre), s', g. done.
    - exists Re.Eps, (Re.plus Re.space ;; Re.lits (lit "folder"))%re,
        (0 + length pre), s', g. done. }
  apply around_group_sound in Hrun as (w & -> & Hne & Hw); [|done..].
  cbn in Hg. by injection Hg as <-.
Qed.

Lemma extract_folder_name_is_a_word_witness :
  extract_folder_name (H:=posix_env) (lit "List my Holiday-Photos folder")
  = Some (lit "photos")
  ∧ lit "photos" ≠ [].
Proof.
  assert (extract_folder_name (H:=posix_env) (lit "List my Holiday-Photos folder")
          = Some (lit "photos")) as E by (vm_compute; reflexivity).
  split; [exact E|].
  exact (proj1 (extract_folder_name_is_a_word (H:=posix_env) _ _ E)).
Defined.

(** ** A turn of the agent *)

Section Turn.
Context `{Env} `{Repr}.
Variable self : MCPFilesystemServer.
Local Abbreviation root := (allowed_directory self).

Lemma keeps_call {A} (f : fsys → A * fsys) :
  (∀ fs, (f fs).2 = fs) → keeps_state (call f).
Proof. intros Hf fs. unfold call. specialize (Hf fs). by destruct (f fs). Qed.

Lemma keeps_list_directory (p : str) : keeps_state (call (list_directory self p)).
Proof. apply keeps_call. apply list_directory_keeps. Qed.

Lemma keeps_items_of (d : payload) : keeps_state (items_of d).
Proof. intros fs. unfold items_of. by destruct (Dict.get _ d) as [[]|]. Qed.

Lemma keeps_field (key : str) (item : Dict.t scalar) : keeps_state (field key item).
Proof. intros fs. unfold field. by destruct (Dict.get key item). Qed.

Lemma keeps_name_of (item : Dict.t scalar) : keeps_state (name_of item).
Proof.
  apply keeps_bind; [apply keeps_field|]. intros []; first [apply keeps_raise | apply keeps_ret].
Qed.

Lemma keeps_is_file_item (item : Dict.t scalar) : keeps_state (is_file_item item).
Proof. apply keeps_bind; [apply keeps_field|]. intros v. apply keeps_ret. Qed.

Lemma keeps_image_files_of (items : list (Dict.t scalar)) :
  keeps_state (image_files_of items).
Proof.
  induction items as [|item items IH]; [apply keeps_ret|]. cbn [image_files_of].
  apply keeps_bind; [apply keeps_is_file_item|]. intros [|]; [|done].
  apply keeps_bind; [apply keeps_name_of|]. intros name_.
  apply keeps_bind; [done|]. intros rest. apply keeps_ret.
Qed.

Lemma keeps_files_of (items : list (Dict.t scalar)) : keeps_state (files_of items).
Proof.
  induction items as [|item items IH]; [apply keeps_ret|]. cbn [files_of].
  apply keeps_bind; [apply keeps_is_file_item|]. intros [|]; [|done].
  apply keeps_bind; [apply keeps_name_of|]. intros name_.
  apply keeps_bind; [done|]. intros rest. apply keeps_ret.
Qed.

Lemma confined_op_call {A} (f : fsys → A * fsys) :
  (∀ fs q, anchored self fs = true → ¬ OS.under root q → (f fs).2 !! q = fs !! q) →
  confined self (call f).
Proof. apply confined_call. Qed.

Lemma confined_move_file (a b : str) : confined self (call (move_file self a b)).
Proof.
  apply confined_call. intros fs q Ha Hq.
  by destruct (operations_confined self [] [] a b fs q Ha Hq) as (? & ? & ? & ? & ? & ? & ?).
Qed.

Lemma confined_delete_file (a : str) : confined self (call (delete_file self a)).
Proof.
  apply confined_call. intros fs q Ha Hq.
  by destruct (operations_confined self a [] [] [] fs q Ha Hq) as (? & ? & ? & ? & ? & ? & ?).
Qed.

Lemma confined_move_each (folder_name : str) (total : nat) (files : list str) :
  confined self (move_each self folder_name total files).
Proof.
  induction files as [|f files IH]; [by apply confined_keeps|]. cbn [move_each].
  apply confined_bind; [apply confined_move_file|]. intros r.
  destruct (Dict.mem (lit "error") r); [by apply confined_keeps | done].
Qed.

Lemma confined_delete_each (total : nat) (files : list str) :
  confined self (delete_each self total files).
Proof.
  induction files as [|f files IH]; [by apply confined_keeps|]. cbn [delete_each].
  apply confined_bind; [apply confined_delete_file|]. intros r.
  destruct (Dict.mem (lit "error") r); [by apply confined_keeps | done].
Qed.

Lemma confined_delete_all_loop (files : list str) (n : nat) (errors : list str) :
  confined self (delete_all_loop self files n errors).
Proof.
  revert n errors. induction files as [|f files IH]; intros n errors;
    [by apply confined_keeps|]. cbn [delete_all_loop].
  apply confined_bind; [apply confined_delete_file|]. intros r.
  destruct (Dict.mem (lit "error") r); apply IH.
Qed.

Lemma macros_confined (folder_name : str) (fs : fsys) (q : path) :
  anchored self fs = true → ¬ OS.under root q →
  (move_images_to_folder self folder_name fs).2 !! q = fs !! q
  ∧ (delete_images self fs).2 !! q = fs !! q
  ∧ (delete_all_files_in_current_folder self fs).2 !! q = fs !! q.
Proof.
  intros Ha Hq. repeat split; apply (confined_try_except self); try done.
  - apply confined_bind; [apply confined_keeps, keeps_list_directory|]. intros r.
    destruct (Dict.mem (lit "error") r); [by apply confined_keeps|].
    apply confined_bind; [apply confined_keeps, keeps_items_of|]. intros items.
    apply confined_bind; [apply confined_keeps, keeps_image_files_of|]. intros [|f l].
    + by apply confined_keeps.
    + apply confined_move_each.
  - apply confined_bind; [apply confined_keeps, keeps_list_directory|]. intros r.
    destruct (Dict.mem (lit "error") r); [by apply confined_keeps|].
    apply confined_bind; [apply confined_keeps, keeps_items_of|]. intros items.
    apply confined_bind; [apply confined_keeps, keeps_image_files_of|]. intros [|f l].
    + by apply confined_keeps.
    + apply confined_delete_each.
  - apply confined_bind; [apply confined_keeps, keeps_list_directory|]. intros r.
    destruct (Dict.mem (lit "error") r); [by apply confined_keeps|].
    apply confined_bind; [apply confined_keeps, keeps_items_of|]. intros items.
    apply confined_bind; [apply confined_keeps, keeps_files_of|]. intros [|f l].
    + by apply confined_keeps.
    + apply confined_bind; [apply confined_delete_all_loop|]. intros r'.
      by apply confined_keeps.
Qed.

(** The formatters read; they do not write. *)
Lemma keeps_shown {V} (text : V → str) (key : str) (d : Dict.t V) :
  keeps_state (DesktopAgent.shown text key d).
Proof. intros fs. unfold DesktopAgent.shown. by destruct (Dict.get key d). Qed.

Lemma keeps_has_type (kind : str) (item : Dict.t scalar) :
  keeps_state (DesktopAgent.has_type kind item).
Proof. apply keeps_bind; [apply keeps_field|]. intros v. apply keeps_ret. Qed.

Lemma keeps_filterM {A} (test : A → M bool) (l : list A) :
  (∀ a, keeps_state (test a)) → keeps_state (DesktopAgent.filterM test l).
Proof.
  intros Ht. induction l as [|a l IH]; [apply keeps_ret|]. cbn [DesktopAgent.filterM].
  apply keeps_bind; [apply Ht|]. intros b.
  apply keeps_bind; [apply IH|]. intros rest. apply keeps_ret.
Qed.

Lemma keeps_lines {A} (line : A → M str) (l : list A) :
  (∀ a, keeps_state (line a)) → keeps_state (DesktopAgent.lines line l).
Proof.
  intros Hl. induction l as [|a l IH]; [apply keeps_ret|]. cbn [DesktopAgent.lines].
  apply keeps_bind; [apply Hl|]. intros s.
  apply keeps_bind; [apply IH|]. intros rest. apply keeps_ret.
Qed.

Lemma keeps_size_text (d : Z) (item : Dict.t scalar) :
  keeps_state (DesktopAgent.size_text d item).
Proof.
  intros fs. unfold DesktopAgent.size_text.
  destruct (Dict.get _ item) as [[|[]|[]|[]]|]; done.
Qed.

Lemma keeps_named_line (lead mark : str) (item : Dict.t scalar) :
  keeps_state (DesktopAgent.named_line lead mark item).
Proof. apply keeps_bind; [apply keeps_shown|]. intros s. apply keeps_ret. Qed.

Lemma keeps_sized_line (lead mark unit_ : str) (d : Z) (item : Dict.t scalar) :
  keeps_state (DesktopAgent.sized_line lead mark unit_ d item).
Proof.
  apply keeps_bind; [apply keeps_size_text|]. intros size.
  apply keeps_bind; [apply keeps_shown|]. intros s. apply keeps_ret.
Qed.

Lemma keeps_matching_folder_of (folder_name : str) (items : list (Dict.t scalar)) :
  keeps_state (DesktopAgent.matching_folder_of folder_name items).
Proof.
  induction items as [|item items IH]; [apply keeps_ret|].
  cbn [DesktopAgent.matching_folder_of].
  apply keeps_bind; [apply keeps_has_type|]. intros [|]; [|done].
  apply keeps_bind; [apply keeps_name_of|]. intros name_.
  destruct (Str.starts_with _ _); [apply keeps_ret | done].
Qed.

Lemma list_folder_contents_keeps (folder_name : str) (fs : fsys) :
  (DesktopAgent.list_folder_contents self folder_name fs).2 = fs.
Proof.
  apply keeps_try_except.
  apply keeps_bind; [apply keeps_list_directory|]. intros r.
  destruct (Dict.mem (lit "error") r).
  { apply keeps_bind; [apply keeps_shown|]. intros e. apply keeps_ret. }
  apply keeps_bind; [apply keeps_items_of|]. intros items.
  apply keeps_bind; [apply keeps_matching_folder_of|]. intros [[|c w]|]; try apply keeps_ret.
  apply keeps_bind; [apply keeps_list_directory|]. intros r'.
  destruct (Dict.mem (lit "error") r').
  { apply keeps_bind; [apply keeps_shown|]. intros e. apply keeps_ret. }
  apply keeps_bind; [apply keeps_items_of|]. intros [|item items']; [apply keeps_ret|].
  unfold DesktopAgent.folder_report.
  apply keeps_bind; [apply keeps_filterM, keeps_has_type|]. intros folders.
  apply keeps_bind; [apply keeps_filterM, keeps_has_type|]. intros files.
  apply keeps_bind.
  { destruct folders; [apply keeps_ret|].
    apply keeps_bind; [apply keeps_lines, keeps_named_line|]. intros b. apply keeps_ret. }
  intros folder_part. apply keeps_bind.
  { destruct files; [apply keeps_ret|].
    apply keeps_bind; [apply keeps_lines, keeps_sized_line|]. intros b. apply keeps_ret. }
  intros file_part. apply keeps_ret.
Qed.

Lemma ask_model_confined (ext : External) (user_input : str) (h : history)
    (fs : fsys) (q : path) :
  anchored self fs = true → ¬ OS.under root q →
  (ask_model ext self user_input h fs).2 !! q = fs !! q.
Proof.
  intros Ha Hq. unfold ask_model.
  destruct (tool_call_of _) as [[name_ tool_args]|]; [|done].
  destruct (validate self name_ tool_args) as [reply|[name' args']]; [done|].
  pose proof (execute_tool_confined self name' args' fs q Ha Hq) as Hx.
  by destruct (execute_tool self name' args' fs).
Qed.

Lemma turn_confined (model : list (str * str) → str) (user_input : str) (h : history)
    (fs : fsys) (q : path) :
  anchored self fs = true → ¬ OS.under root q →
  (process_user_input (DesktopAgent.agent self model) self user_input h fs).2 !! q
  = fs !! q.
Proof.
  intros Ha Hq. unfold process_user_input. cbv zeta.
  destruct (macros_confined [] fs q Ha Hq) as (_ & Hdel & Hall).
  repeat case_match; unfold with_history; cbn [snd list_folder_contents DesktopAgent.agent];
    first [ done
          | by apply ask_model_confined
          | by rewrite list_folder_contents_keeps
          | match goal with
            | |- (move_images_to_folder self ?l fs).2 !! q = _ =>
                by destruct (macros_confined l fs q Ha Hq) as (? & _)
            end ].
Qed.

End Turn.

(** X23.  A whole turn of the agent stays inside the sandbox, in a file
    system where every name has a file of its own, without symbolic
    links and without a second name for a file.  Whatever the user
    writes, whatever the conversation so far, and whatever the language
    model answers, [process_user_input] leaves every location outside
    the root as it was: by a macro, by a folder listing or by the tool
    call that the answer of the model holds.  The ancestors of the root
    stay in place, so the same holds for the next turn. *)
Theorem agent_turn_stays_inside `{Env} `{Repr} (self : MCPFilesystemServer)
    (model : list (str * str) → str) (user_input : str) (h : history) (fs : fsys)
    (q : path) :
  anchored self fs = true →
  is_relative_to q (allowed_directory self) = false →
  let fs' := (process_user_input (DesktopAgent.agent self model) self user_input h fs).2 in
  fs' !! q = fs !! q ∧ anchored self fs' = true.
Proof.
  intros Ha Hrel. cbv zeta. split.
  - apply turn_confined; [done|]. by apply outside_not_under.
  - apply (anchored_frame self fs); [done|]. intros q' Hq'. by apply turn_confined.
Qed.

Lemma agent_turn_stays_inside_witness :
  let fs' := (process_user_input (H:=posix_env)
                (DesktopAgent.agent (H:=posix_env) (H0:=plain_repr) box
                   (answering (lit "TOOL_CALL:delete_file(.)")))
                box (lit "tidy up") [] shared_host).2 in
  fs' !! [lit "etc"; lit "passwd"] = shared_host !! [lit "etc"; lit "passwd"]
  ∧ anchored box fs' = true
  ∧ fs' ≠ shared_host.
Proof.
  intros fs'.
  destruct (agent_turn_stays_inside (H:=posix_env) (H0:=plain_repr) box
              (answering (lit "TOOL_CALL:delete_file(.)")) (lit "tidy up") []
              shared_host [lit "etc"; lit "passwd"] eq_refl eq_refl) as [Hq Ha].
  split; [exact Hq|]. split; [exact Ha|].
  intros E. assert (fs' !! [lit "box"] = None) as Hn by (vm_compute; reflexivity).
  rewrite E in Hn. discriminate Hn.
Defined.

(** ** The replies *)

Section RepliesFacts.
Context `{Env} `{Repr}.
Variable self : MCPFilesystemServer.
Local Abbreviation root := (allowed_directory self).

Lemma has_type_item_of (fs fs0 : fsys) (q : path) :
  is_Some (fs !! q) →
  DesktopAgent.has_type (lit "directory") (item_of fs q) fs0 = (inr (OS.is_dir fs q), fs0).
Proof.
  intros [n Hn]. unfold item_of. rewrite Hn. by destruct (OS.is_dir fs q).
Qed.

Lemma matching_folder_of_items (folder_name : str) (fs fs0 : fsys) (l : list path) :
  (∀ q, q ∈ l → is_Some (fs !! q)) →
  DesktopAgent.matching_folder_of folder_name (map (item_of fs) l) fs0
  = (inr (option_map name
            (List.find (fun q => OS.is_dir fs q
                                 && Str.starts_with (py_lower (name q))
                                      (py_lower folder_name)) l)), fs0).
Proof.
  induction l as [|q l IH]; intros Hl; [done|].
  cbn [map DesktopAgent.matching_folder_of List.find]. unfold mbind, M_bind.
  rewrite has_type_item_of by (apply Hl; left).
  destruct (OS.is_dir fs q); cbn [andb].
  - rewrite name_of_item by (apply Hl; left).
    destruct (Str.starts_with _ _); [done|]. apply IH. intros; apply Hl; by right.
  - apply IH. intros; apply Hl; by right.
Qed.

Lemma listing_items (fs fs0 : fsys) (sp : path) (l : list path) :
  items_of (listing fs sp l) fs0 = (inr (map (item_of fs) l), fs0).
Proof. done. Qed.

Lemma Z_str_of_nat (n : nat) : DesktopAgent.Z_str (Z.of_nat n) = Str.of_nat n.
Proof.
  unfold DesktopAgent.Z_str, Str.of_N.
  destruct (Z.of_nat n) eqn:E; try lia;
    by rewrite <- E, <- nat_N_Z, N2Z.id, Nnat.Nat2N.id.
Qed.

Lemma folder_report_opens (folder : str) (items : list (Dict.t scalar)) :
  returns (fun a => ∃ rest, a = contents_header folder (length items) ++ rest)
    (DesktopAgent.folder_report folder items).
Proof.
  unfold DesktopAgent.folder_report. repeat (apply returns_bind; intros ?).
  apply returns_ret. unfold contents_header. eexists. rewrite <- !app_assoc. reflexivity.
Qed.

Lemma final_response_error (name_ msg request : str) (fs0 : fsys) :
  DesktopAgent.generate_final_response name_ (error_payload msg) request fs0
  = (cross ++ lit " Error: " ++ msg, fs0).
Proof. done. Qed.

End RepliesFacts.

(** X24.  Which folder [list_folder_contents] lists.  In a tree with the
    root a directory, the folder is the first directory, in the order in
    which the root is listed, whose name in lower case begins with the
    name asked for in lower case; a regular file never counts.  Without
    one, the reply says that no folder was found; for one without
    entries, that the folder is empty; otherwise the reply opens with the
    name of the folder and the number of its entries, unless the
    formatting of a size fails.  Nothing is written. *)
Theorem folder_listing_picks_first_match `{Env} `{Repr} (self : MCPFilesystemServer)
    (folder_name : str) (fs : fsys) :
  tree fs = true →
  OS.is_dir fs (allowed_directory self) = true →
  let (reply, fs') := DesktopAgent.list_folder_contents self folder_name fs in
  fs' = fs
  ∧ match chosen_folder self fs folder_name with
    | None =>
        reply = cross ++ lit " No folder found starting with '" ++ folder_name ++ lit "'"
    | Some q =>
        OS.is_dir fs q = true
        ∧ parent q = allowed_directory self
        ∧ Str.starts_with (py_lower (name q)) (py_lower folder_name) = true
        ∧ match OS.iterdir fs q with
          | [] =>
              reply = DesktopAgent.folder_mark ++ lit " Folder '" ++ name q
                      ++ lit "' is empty"
          | entries =>
              (∃ rest, reply = contents_header (name q) (length entries) ++ rest)
              ∨ (∃ e, reply = cross ++ lit " Error listing folder: " ++ exn_str e)
          end
    end.
Proof.
  intros Ht Hd.
  pose proof (list_folder_contents_keeps self folder_name fs) as Hk.
  destruct (DesktopAgent.list_folder_contents self folder_name fs) as [reply fs'] eqn:Er.
  cbn [snd] in Hk. subst fs'. split; [done|].
  apply (f_equal fst) in Er. cbn [fst] in Er. subst reply.
  pose proof (tree_root_plain self fs Ht Hd) as Hr.
  destruct (tree_spec fs Ht) as [_ Htree].
  unfold DesktopAgent.list_folder_contents, try_except, mbind, M_bind, call.
  rewrite (list_directory_dot self fs Ht Hd). rewrite root_listing_ok, root_listing_items.
  rewrite matching_folder_of_items by apply iterdir_exist.
  unfold chosen_folder.
  destruct (List.find _ (OS.iterdir fs (allowed_directory self))) as [q|] eqn:Ef; [|done].
  apply find_some in Ef as [Hin [Hdq Hst]%andb_true_iff].
  apply list_elem_of_In, iterdir_spec in Hin as (Hne & Hpar & [n Hn]).
  destruct (Htree q n Hn) as [_ Hpl]. pose proof (last_plain q Hpl Hne) as Hlast.
  assert (allowed_directory self ++ [name q] = q) as Eq.
  { rewrite <- Hpar. symmetry. by apply path_snoc. }
  cbn [option_map]. destruct (name q) as [|c w] eqn:En; [by destruct Hlast|].
  rewrite <- En in *.
  rewrite (list_directory_at self (name q) q fs); [|by rewrite get_safe_path_child, Eq | done].
  repeat split; [done..|].
  change (Dict.mem (lit "error") (listing fs q (OS.iterdir fs q))) with false. cbv iota.
  cbv beta. rewrite listing_items.
  destruct (OS.iterdir fs q) as [|q1 l] eqn:Ei; [done|]. cbn [map]. cbv iota.
  pose proof (folder_report_opens (name q) (item_of fs q1 :: map (item_of fs) l)) as Hret.
  destruct (DesktopAgent.folder_report (name q) (item_of fs q1 :: map (item_of fs) l) fs)
    as [[e|a] fs2] eqn:Em.
  - right. by exists e.
  - left. apply Hret in Em. cbn [length] in Em. by rewrite length_map in Em.
Qed.

Lemma folder_listing_picks_first_match_witness :
  chosen_folder (H:=posix_env) box gallery (lit "PI") = Some [lit "box"; lit "pics"]
  ∧ let (reply, fs') :=
      DesktopAgent.list_folder_contents (H:=posix_env) (H0:=plain_repr) box (lit "PI")
        gallery in
    fs' = gallery
    ∧ ((∃ rest, reply = contents_header (lit "pics") 1 ++ rest)
       ∨ (∃ e, reply = cross ++ lit " Error listing folder: " ++ exn_str (H:=posix_env) e)).
Proof.
  assert (chosen_folder (H:=posix_env) box gallery (lit "PI")
          = Some [lit "box"; lit "pics"]) as Ec by (vm_compute; reflexivity).
  assert (OS.iterdir gallery [lit "box"; lit "pics"]
          = [[lit "box"; lit "pics"; lit "c.png"]]) as Ei by (vm_compute; reflexivity).
  split; [exact Ec|].
  pose proof (folder_listing_picks_first_match (H:=posix_env) (H0:=plain_repr) box
                (lit "PI") gallery eq_refl eq_refl) as Hw.
  destruct (DesktopAgent.list_folder_contents (H:=posix_env) (H0:=plain_repr) box
              (lit "PI") gallery) as [reply fs'].
  destruct Hw as [Hfs Hm]. split; [exact Hfs|].
  rewrite Ec in Hm. destruct Hm as (_ & _ & _ & Hm). rewrite Ei in Hm. exact Hm.
Defined.

(** X25.  An error of a tool reaches the user.  When the answer of the
    model holds a call of one of the seven tools and the execution of the
    call gives the error payload with a message, whichever tool it was,
    the reply of the agent is the cross mark, the word [Error:] and that
    message; the reply is entered in the history after the request, and
    the file system is the one the tool left. *)
Theorem errors_reach_the_user `{Env} `{Repr} (self : MCPFilesystemServer)
    (model : list (str * str) → str) (user_input : str) (h : history) (fs fs' : fsys)
    (name_ tool_args msg : str) :
  tool_call_of (model (h ++ [(lit "user", user_input)])) = Some (name_, tool_args) →
  existsb (Str.eqb name_) (valid_tools self) = true →
  execute_tool self name_ tool_args fs = (error_payload msg, fs') →
  ask_model (DesktopAgent.agent self model) self user_input h fs
  = (cross ++ lit " Error: " ++ msg,
     h ++ [(lit "user", user_input); (lit "assistant", cross ++ lit " Error: " ++ msg)],
     fs').
Proof.
  intros Hcall Hvalid Hexec. unfold ask_model. cbn [generate_response DesktopAgent.agent].
  rewrite Hcall. unfold validate. rewrite Hvalid. cbn [negb]. rewrite Hexec.
  unfold DesktopAgent.agent. cbn [generate_final_response].
  rewrite final_response_error. cbn [fst]. by rewrite <- app_assoc.
Qed.

Lemma errors_reach_the_user_witness :
  ask_model (H:=posix_env)
    (DesktopAgent.agent (H:=posix_env) (H0:=plain_repr) box
       (answering (lit "TOOL_CALL:read_file('todo.txt')")))
    box (lit "show me the todo list") [] empty_box
  = (cross ++ lit " Error: File does not exist: todo.txt",
     [(lit "user", lit "show me the todo list");
      (lit "assistant", cross ++ lit " Error: File does not exist: todo.txt")],
     empty_box).
Proof.
  apply (errors_reach_the_user (H:=posix_env) (H0:=plain_repr) box
           (answering (lit "TOOL_CALL:read_file('todo.txt')"))
           (lit "show me the todo list") [] empty_box empty_box
           (lit "read_file") (lit "'todo.txt'") (lit "File does not exist: todo.txt"));
    vm_compute; reflexivity.
Defined.

(** X26.  What the user is told after a write.  When the answer of the
    model holds a [write_file] call and the execution writes, the reply
    says [Successfully wrote n bytes to] the resolved path, where [n] is
    the number of characters of the content, whatever the number of bytes
    written. *)
Theorem write_reply_counts_characters `{Env} `{Repr} (self : MCPFilesystemServer)
    (model : list (str * str) → str) (user_input : str) (h : history) (fs fs' : fsys)
    (tool_args content : str) (sp : path) :
  tool_call_of (model (h ++ [(lit "user", user_input)]))
  = Some (lit "write_file", tool_args) →
  execute_tool self (lit "write_file") tool_args fs = (written_result sp content, fs') →
  let reply := tick ++ lit " Successfully wrote " ++ Str.of_nat (length content)
               ++ lit " bytes to " ++ path_str sp in
  ask_model (DesktopAgent.agent self model) self user_input h fs
  = (reply, h ++ [(lit "user", user_input); (lit "assistant", reply)], fs').
Proof.
  intros Hcall Hexec. cbv zeta. unfold ask_model.
  cbn [generate_response DesktopAgent.agent]. rewrite Hcall. unfold validate.
  change (existsb (Str.eqb (lit "write_file")) (valid_tools self)) with true.
  cbn [negb]. rewrite Hexec. unfold DesktopAgent.agent. cbn [generate_final_response].
  unfold DesktopAgent.generate_final_response, try_except.
  change (Dict.mem (lit "error") (written_result sp content)) with false. cbv iota.
  change (Str.eqb (lit "write_file") (lit "list_directory")) with false.
  change (Str.eqb (lit "write_file") (lit "read_file")) with false.
  change (Str.eqb (lit "write_file") (lit "write_file")) with true. cbv iota.
  unfold mret, M_ret. cbn [fst].
  change (DesktopAgent.shown_or DesktopAgent.value_str (lit "size") (lit "0")
            (written_result sp content))
    with (DesktopAgent.Z_str (Z.of_nat (length content))).
  change (DesktopAgent.shown_or DesktopAgent.value_str (lit "path") (lit "file")
            (written_result sp content))
    with (path_str sp).
  rewrite Z_str_of_nat. by rewrite <- app_assoc.
Qed.

Lemma write_reply_counts_characters_witness :
  let model := answering (lit "TOOL_CALL:write_file('a.txt', 'ab')") in
  let content := lit "ab" in
  let sp := [lit "box"; lit "a.txt"] in
  ∃ fs', (ask_model (H:=posix_env)
            (DesktopAgent.agent (H:=posix_env) (H0:=plain_repr) box model)
            box (lit "save it") [] empty_box)
         = (tick ++ lit " Successfully wrote 2 bytes to /box/a.txt",
            [(lit "user", lit "save it");
             (lit "assistant", tick ++ lit " Successfully wrote 2 bytes to /box/a.txt")],
            fs').
Proof.
  intros model content sp.
  exists (execute_tool (H:=posix_env) box (lit "write_file") (lit "'a.txt', 'ab'")
            empty_box).2.
  apply (write_reply_counts_characters (H:=posix_env) (H0:=plain_repr) box model
           (lit "save it") [] empty_box _ (lit "'a.txt', 'ab'") content sp).
  - vm_compute. reflexivity.
  - rewrite (surjective_pairing (execute_tool _ _ _ _)). f_equal.
Defined.

Lemma read_reply `{Env} `{Repr} (sp : path) (content request : str)
    (bs : list N) (fs0 : fsys) :
  DesktopAgent.generate_final_response (lit "read_file") (text_result sp content)
    request fs0
  = (text_reply sp content, fs0)
  ∧ DesktopAgent.generate_final_response (lit "read_file") (binary_result sp bs)
      request fs0
    = (binary_reply sp bs, fs0).
Proof.
  split.
  - unfold DesktopAgent.generate_final_response, try_except.
    change (Dict.mem (lit "error") (text_result sp content)) with false. cbv iota.
    change (Str.eqb (lit "read_file") (lit "list_directory")) with false.
    change (Str.eqb (lit "read_file") (lit "read_file")) with true. cbv iota.
    unfold DesktopAgent.format_file_content, text_result.
    cbn [Dict.get].
    change (Str.eqb (lit "path") (lit "content")) with false.
    change (Str.eqb (lit "content") (lit "content")) with true. cbv iota.
    change (Str.eqb (lit "path") (lit "type")) with false.
    change (Str.eqb (lit "content") (lit "type")) with false.
    change (Str.eqb (lit "size") (lit "type")) with false.
    change (Str.eqb (lit "type") (lit "type")) with true. cbv iota zeta.
    change (Str.eqb (lit "text") (lit "binary")) with false. cbv iota.
    unfold DesktopAgent.preview_of, mbind, M_bind, mret, M_ret, DesktopAgent.shown_or.
    cbn [Dict.get].
    change (Str.eqb (lit "path") (lit "path")) with true.
    change (Str.eqb (lit "path") (lit "size")) with false.
    change (Str.eqb (lit "content") (lit "size")) with false.
    change (Str.eqb (lit "size") (lit "size")) with true. cbv iota.
    cbn [DesktopAgent.value_str DesktopAgent.scalar_str]. rewrite Z_str_of_nat.
    reflexivity.
  - unfold DesktopAgent.generate_final_response, try_except.
    change (Dict.mem (lit "error") (binary_result sp bs)) with false. cbv iota.
    change (Str.eqb (lit "read_file") (lit "list_directory")) with false.
    change (Str.eqb (lit "read_file") (lit "read_file")) with true. cbv iota.
    unfold DesktopAgent.format_file_content, binary_result.
    cbn [Dict.get].
    change (Str.eqb (lit "path") (lit "content")) with false.
    change (Str.eqb (lit "content") (lit "content")) with true. cbv iota.
    change (Str.eqb (lit "path") (lit "type")) with false.
    change (Str.eqb (lit "content") (lit "type")) with false.
    change (Str.eqb (lit "size") (lit "type")) with false.
    change (Str.eqb (lit "type") (lit "type")) with true. cbv iota zeta.
    change (Str.eqb (lit "binary") (lit "binary")) with true. cbv iota.
    unfold mret, M_ret, DesktopAgent.shown_or. cbn [Dict.get].
    change (Str.eqb (lit "path") (lit "path")) with true.
    change (Str.eqb (lit "path") (lit "size")) with false.
    change (Str.eqb (lit "content") (lit "size")) with false.
    change (Str.eqb (lit "size") (lit "size")) with true. cbv iota.
    cbn [DesktopAgent.value_str DesktopAgent.scalar_str]. by rewrite Z_str_of_nat.
Qed.

(** X27.  What the user is shown of a file that was read.  For a regular
    file of the sandbox whose bytes are valid UTF-8, the reply made from
    the result of [read_file] gives the resolved path, the number of
    characters of the text, under the name of bytes, and the text itself
    when it has at most 500 characters, its first 500 characters and
    three dots otherwise; for bytes that are not valid UTF-8 it gives the
    path and the number of bytes of the file, and nothing of the
    content. *)
Theorem read_reply_shows_a_preview `{Env} `{Repr} (self : MCPFilesystemServer)
    (path_ request : str) (sp : path) (fs fs0 : fsys) (bs : list N) (m : meta) :
  tree fs = true →
  _get_safe_path self path_ = inr sp →
  fs !! sp = Some (NFile bs m) →
  DesktopAgent.generate_final_response (lit "read_file") (read_file self path_ fs).1
    request fs0
  = (match Utf8.decode bs with
     | Some s => text_reply sp (Utf8.universal_newlines s)
     | None => binary_reply sp bs
     end, fs0).
Proof.
  intros Ht E Hf. rewrite (read_file_at self path_ sp fs bs m Ht E Hf). cbn [fst].
  destruct (Utf8.decode bs) as [s|]; by apply read_reply.
Qed.

Lemma read_reply_shows_a_preview_witness :
  tree three_files = true
  ∧ ∃ sp bs m, three_files !! sp = Some (NFile bs m)
    ∧ Utf8.decode bs = Some (lit "a")
    ∧ (DesktopAgent.generate_final_response (H:=posix_env) (H0:=plain_repr)
         (lit "read_file") (read_file (H:=posix_env) box (lit "a.txt") three_files).1
         (lit "show a.txt") ∅).1
      = text_reply sp (lit "a").
Proof.
  split; [reflexivity|].
  exists [lit "box"; lit "a.txt"], [97%N], file_meta.
  split; [reflexivity|]. split; [reflexivity|].
  rewrite (read_reply_shows_a_preview (H:=posix_env) (H0:=plain_repr) box (lit "a.txt")
             (lit "show a.txt") [lit "box"; lit "a.txt"] three_files ∅
             [97%N] file_meta eq_refl eq_refl eq_refl).
  reflexivity.
Defined.

Lemma ask_model_history `{Env} (ext : External) (self : MCPFilesystemServer)
    (user_input : str) (h : history) (fs : fsys) :
  let '(reply, h', fs') := ask_model ext self user_input h fs in
  let asked := h ++ [(lit "user", user_input)] in
  match tool_call_of (generate_response ext asked) with
  | None =>
      reply = generate_response ext asked
      ∧ h' = asked ++ [(lit "assistant", reply)] ∧ fs' = fs
  | Some (name_, tool_args) =>
      if existsb (Str.eqb name_) (valid_tools self)
         || Str.contains (py_lower name_) (lit "list")
      then h' = asked ++ [(lit "assistant", reply)]
      else reply = unknown_tool self name_ ∧ h' = asked ∧ fs' = fs
  end.
Proof.
  unfold ask_model.
  destruct (tool_call_of _) as [[name_ tool_args]|] eqn:Ec; [|done].
  unfold validate.
  destruct (existsb (Str.eqb name_) (valid_tools self)) eqn:Ev; cbn [negb orb].
  - by destruct (execute_tool _ _ _ _).
  - destruct (Str.contains (py_lower name_) (lit "list")) eqn:El; [|done].
    by destruct (execute_tool _ _ _ _).
Qed.

(** X28.  The history only grows, and only on the way through the
    language model.  A turn that [process_user_input] answers itself,
    by one of the macros or by the listing of a folder, leaves the
    history as it was.  Any other turn asks the model with the history
    and the request after it, and these stay: when the answer holds no
    tool call, the answer is the reply and is entered after the request;
    when it holds a call of a tool that is known, or whose name in lower
    case contains [list], the reply made from the result is entered
    after the request; when it names any other tool, the reply says so
    and the request is entered without a reply. *)
Theorem history_only_grows `{Env} (ext : External) (self : MCPFilesystemServer)
    (user_input : str) (h : history) (fs : fsys) :
  let '(reply, h', fs') := process_user_input ext self user_input h fs in
  let asked := h ++ [(lit "user", user_input)] in
  if answered_directly user_input then h' = h
  else
    match tool_call_of (generate_response ext asked) with
    | None =>
        reply = generate_response ext asked
        ∧ h' = asked ++ [(lit "assistant", reply)] ∧ fs' = fs
    | Some (name_, tool_args) =>
        if existsb (Str.eqb name_) (valid_tools self)
           || Str.contains (py_lower name_) (lit "list")
        then h' = asked ++ [(lit "assistant", reply)]
        else reply = unknown_tool self name_ ∧ h' = asked ∧ fs' = fs
    end.
Proof.
  pose proof (ask_model_history ext self user_input h fs) as Ha.
  unfold process_user_input, with_history, answered_directly.
  destruct (Str.contains (py_lower user_input) (lit "move")
            && Str.contains (py_lower user_input) (lit "image")) eqn:Em;
    cbn [andb orb].
  - destruct (match Re.search to_folder (py_lower user_input) with
              | Some g => Re.group 1 g
              | None => None
              end) as [folder_name|] eqn:Ef.
    + rewrite bool_decide_eq_true_2 by done. done.
    + rewrite bool_decide_eq_false_2 by (by intros [? ?]). cbn [orb].
      destruct (Str.contains (py_lower user_input) (lit "delete")
                && Str.contains (py_lower user_input) (lit "image")); [done|].
      cbn [orb].
      destruct (Str.contains (py_lower user_input) (lit "delete all files"));
        [done|]. cbn [orb].
      destruct (Str.contains (py_lower user_input) (lit "clear all files"));
        [done|]. cbn [orb].
      destruct (Str.contains (py_lower user_input) (lit "list")
                && (Str.contains (py_lower user_input) (lit "in")
                    || Str.contains (py_lower user_input) (lit "folder")));
        cbn [andb]; [|exact Ha].
      destruct (extract_folder_name user_input) as [[|c w]|]; done.
  - destruct (Str.contains (py_lower user_input) (lit "delete")
              && Str.contains (py_lower user_input) (lit "image")); [done|].
    cbn [orb].
    destruct (Str.contains (py_lower user_input) (lit "delete all files"));
      [done|]. cbn [orb].
    destruct (Str.contains (py_lower user_input) (lit "clear all files"));
      [done|]. cbn [orb].
    destruct (Str.contains (py_lower user_input) (lit "list")
              && (Str.contains (py_lower user_input) (lit "in")
                  || Str.contains (py_lower user_input) (lit "folder")));
      cbn [andb]; [|exact Ha].
    destruct (extract_folder_name user_input) as [[|c w]|]; done.
Qed.

(** * A link below the root *)

(** C8.  Where the root holds a symbolic link to a file of a folder, the
    delete-all macro does not stay with the files of the root and does
    not leave the folder alone.  The listing calls the link a file;
    [delete_file] resolves its name and removes the file it points to,
    inside the folder; the link itself stays, and it counts as deleted.
    On the sandbox with the files [a.txt] and [b.txt], the link [c.txt]
    to [sub/d.txt] and the folder [sub], the reply says that 3 files
    were deleted: the two files are gone, [sub/d.txt] is gone, the link
    is still there, and a listing of the root now fails on it. *)
Theorem delete_all_follows_symlink :
  let d := [lit "box"; lit "sub"; lit "d.txt"] in
  let (reply, st) :=
    Links.delete_all_files_in_current_folder (H:=posix_env) box linked_box in
  reply = tick ++ lit " Successfully deleted 3 files in the current folder."
  ∧ Links.entries st !! [lit "box"; lit "a.txt"] = None
  ∧ Links.entries st !! [lit "box"; lit "b.txt"] = None
  ∧ Links.entries linked_box !! d = Some (NFile [100]%N file_meta)
  ∧ Links.entries st !! d = None
  ∧ Links.links st !! [lit "box"; lit "c.txt"] = Some d
  ∧ (Links.list_directory (H:=posix_env) box (lit ".") st).1
    = error_payload (lit "[Errno 2] No such file or directory: '/box/c.txt'").
Proof. vm_compute. done. Qed.

(** ** Without links the two embeddings agree *)

Section NoLinks.
Context `{Env}.
Variable self : MCPFilesystemServer.

Lemma agree_ret {A} (a : A) : agree (mret a) (Links.ret a).
Proof. by intros fs. Qed.

Lemma agree_bind {A B} (m : M A) (lm : Links.LM A) (k : A → M B) (lk : A → Links.LM B) :
  agree m lm → (∀ a, agree (k a) (lk a)) → agree (m ≫= k) (Links.bind lm lk).
Proof.
  intros Hm Hk fs. unfold Links.bind, mbind, M_bind. rewrite Hm.
  destruct (m fs) as [[e|a] fs']; [done|]. apply Hk.
Qed.

Lemma agree_on_entries {A} (m : M A) : agree m (Links.on_entries m).
Proof. intros fs. unfold Links.on_entries. cbn. by destruct (m fs). Qed.

Lemma agree_call {A} (f : fsys → A * fsys) (lf : Links.state → A * Links.state) :
  (∀ fs, lf (no_links fs) = let (a, fs') := f fs in (a, no_links fs')) →
  agree (call f) (Links.call lf).
Proof. intros Hf fs. unfold Links.call, call. rewrite Hf. by destruct (f fs). Qed.

Lemma agree_try_except {A} (m : M A) (lm : Links.LM A) (handler : exn → A) (fs : fsys) :
  agree m lm →
  Links.try_except lm handler (no_links fs)
  = let (a, fs') := try_except m handler fs in (a, no_links fs').
Proof.
  intros Hm. unfold Links.try_except, try_except. rewrite Hm.
  by destruct (m fs) as [[e|a] fs'].
Qed.

Lemma walk_no_links (fs : fsys) (cs : path) (abs : bool) (acc : path) :
  Links.joinrealpath (no_links fs) abs acc cs
  = match joinrealpath abs acc cs with
    | inl e => inl e
    | inr q => inr (abs, q)
    end.
Proof.
  revert acc. induction cs as [|c cs IH]; intros acc; [done|].
  cbn [Links.joinrealpath joinrealpath]. destruct (decide (c = pardir)); [apply IH|].
  destruct (os_refuses _); [done|]. cbn [Links.links no_links].
  rewrite lookup_empty. apply IH.
Qed.

Lemma resolve_no_links (fs : fsys) (p : PurePath) :
  Links.resolve (no_links fs) p = resolve p.
Proof.
  unfold Links.resolve, resolve, Links.walked. rewrite walk_no_links.
  by destruct (joinrealpath _ _ _).
Qed.

Lemma get_safe_path_no_links (p : str) :
  agree (lift (_get_safe_path self p)) (Links._get_safe_path self p).
Proof.
  intros fs. unfold Links._get_safe_path, Links._is_path_allowed, lift,
    _get_safe_path, _is_path_allowed.
  rewrite !resolve_no_links.
  destruct (if os_path_isabs p then resolve (Path p)
            else resolve (joinpath (of_abs (allowed_directory self)) p)) as [e|sp];
    [done|].
  by rewrite resolve_no_links.
Qed.

Lemma follow_no_links (fs : fsys) (p : path) : Links.follow (no_links fs) p = p.
Proof. unfold Links.follow. cbn. by rewrite lookup_empty. Qed.

Lemma iterdir_no_links (fs : fsys) (p : path) :
  Links.iterdir (no_links fs) p = OS.iterdir fs p.
Proof.
  unfold Links.iterdir, OS.iterdir. cbn. by rewrite map_to_list_empty, app_nil_r.
Qed.

Lemma agree_get_state {B} (k : fsys → M B) (lk : Links.state → Links.LM B) :
  (∀ fs, agree (k fs) (lk (no_links fs))) →
  agree (get_fs ≫= k) (Links.bind Links.get_state lk).
Proof. intros Hk fs. unfold Links.bind, Links.get_state, mbind, M_bind, get_fs. apply Hk. Qed.

Lemma stat_no_links (p : path) : agree (OS.stat p) (Links.stat p).
Proof.
  intros fs. unfold Links.stat, OS.stat. rewrite follow_no_links. cbn.
  by destruct (fs !! p).
Qed.

Lemma unlink_no_links (p : path) : agree (OS.unlink p) (Links.unlink p).
Proof.
  intros fs. unfold Links.unlink. cbn. rewrite lookup_empty.
  apply agree_on_entries.
Qed.

Lemma rmtree_no_links (p : path) : agree (OS.rmtree p) (Links.rmtree p).
Proof.
  intros fs. unfold Links.rmtree. cbn. rewrite lookup_empty.
  destruct (OS.rmtree p fs) as [[e|[]] fs']; [done|].
  unfold no_links. by rewrite map_filter_empty.
Qed.

Lemma item_info_no_links (q : path) : agree (item_info q) (Links.item_info q).
Proof.
  unfold item_info, Links.item_info. apply agree_get_state. intros fs.
  apply agree_bind; [apply stat_no_links|]. intros s.
  unfold Links.is_dir, Links.is_file. rewrite follow_no_links. apply agree_ret.
Qed.

Lemma mapM_no_links {A B} (f : A → M B) (lf : A → Links.LM B) (l : list A) :
  (∀ a, agree (f a) (lf a)) → agree (mapM f l) (Links.mapM lf l).
Proof.
  intros Hf. induction l as [|a l IH]; [apply agree_ret|]. cbn [mapM Links.mapM].
  apply agree_bind; [apply Hf|]. intros b.
  apply agree_bind; [apply IH|]. intros bs. apply agree_ret.
Qed.

Lemma list_directory_no_links (p : str) (fs : fsys) :
  Links.list_directory self p (no_links fs)
  = let (r, fs') := list_directory self p fs in (r, no_links fs').
Proof.
  unfold Links.list_directory, list_directory. apply agree_try_except.
  apply agree_bind; [apply get_safe_path_no_links|]. intros sp.
  apply agree_get_state. intros fs0.
  unfold Links.exists_, Links.is_dir. rewrite follow_no_links. cbn [Links.entries no_links].
  destruct (negb (OS.exists_ fs0 sp)); [apply agree_ret|].
  destruct (negb (OS.is_dir fs0 sp)); [apply agree_ret|].
  rewrite iterdir_no_links.
  apply agree_bind; [apply mapM_no_links, item_info_no_links|]. intros items.
  apply agree_ret.
Qed.

Lemma delete_file_no_links (p : str) (fs : fsys) :
  Links.delete_file self p (no_links fs)
  = let (r, fs') := delete_file self p fs in (r, no_links fs').
Proof.
  unfold Links.delete_file, delete_file. apply agree_try_except.
  apply agree_bind; [apply get_safe_path_no_links|]. intros sp.
  apply agree_get_state. intros fs0.
  unfold Links.exists_, Links.is_dir, Links.is_file. rewrite follow_no_links.
  cbn [Links.entries no_links].
  destruct (negb (OS.exists_ fs0 sp)); [apply agree_ret|].
  destruct (OS.is_file fs0 sp).
  { apply agree_bind; [apply unlink_no_links|]. intros _. apply agree_ret. }
  destruct (OS.is_dir fs0 sp); [|apply agree_ret].
  apply agree_bind; [apply rmtree_no_links|]. intros _. apply agree_ret.
Qed.

Lemma delete_all_loop_no_links (files : list str) (n : nat) (errors : list str) :
  agree (delete_all_loop self files n errors) (Links.delete_all_loop self files n errors).
Proof.
  revert n errors. induction files as [|f files IH]; intros n errors; [apply agree_ret|].
  cbn [delete_all_loop Links.delete_all_loop].
  apply agree_bind; [apply agree_call, delete_file_no_links|]. intros r.
  destruct (Dict.mem (lit "error") r); apply IH.
Qed.

(** On a file system without links the delete-all macro over entries and
    links does what the macro over the entries does, and no link
    appears. *)
Lemma delete_all_no_links (fs : fsys) :
  Links.delete_all_files_in_current_folder self (no_links fs)
  = let (reply, fs') := delete_all_files_in_current_folder self fs in
    (reply, no_links fs').
Proof.
  unfold Links.delete_all_files_in_current_folder, delete_all_files_in_current_folder.
  apply agree_try_except.
  apply agree_bind; [apply agree_call, list_directory_no_links|]. intros r.
  destruct (Dict.mem (lit "error") r); [apply agree_ret|].
  apply agree_bind; [apply agree_on_entries|]. intros items.
  apply agree_bind; [apply agree_on_entries|]. intros files.
  destruct files as [|f files]; [apply agree_ret|].
  apply agree_bind; [apply delete_all_loop_no_links|]. intros [n errors].
  apply agree_ret.
Qed.

End NoLinks.
